(** * SpotifyA2ABuddy: the orchestration core of [server-agents.js]

    A shallow embedding of the message bus, the A2A task protocol handler,
    the response manager and the speech agent's flush path, followed by the
    properties of the specification that were checked against them.

    Conventions.
    - A JS [Map] keyed by strings is a [gmap string _]; [Map.get] is [!!],
      [Map.set] is [<[k:=v]>], [Map.delete] is [delete].
    - [Date.now()] and [crypto.randomBytes] read the environment; the model
      passes the value read (or an oracle for the successive values)
      explicitly.
    - A JS number is an IEEE 754 binary64 value: the kernel's [float].
    - A JS string is a [string] that holds its UTF-8 encoding: a character
      below 128 is one byte, which is also its UTF-16 code unit.
    - Calls to [log]/[logA2A] only write to the console and are left out. *)

From Stdlib Require Import ZArith Lia.
From Stdlib Require Import Strings.Ascii Strings.Byte Floats.
From stdpp Require Import base gmap strings list fin_maps pretty.

Open Scope Z_scope.

(* ===================================================================== *)
(** * Response manager (class [ResponseManager]) *)
(* ===================================================================== *)

Module ResponseManager.

(** The object stored by [lock]: [{ locked: true, queue: [] }].  Nothing in
    the program ever pushes to [queue]. *)
Record Pending := { locked : bool; queue : list unit }.

Record t := {
  pendingResponses : gmap string Pending; (* sessionId -> { locked, queue } *)
  lastResponseTime : gmap string Z        (* sessionId -> timestamp *)
}.

(** [constructor()] *)
Definition new : t :=
  {| pendingResponses := ∅; lastResponseTime := ∅ |}.

(** [canRespond(sessionId)] *)
Definition canRespond (rm : t) (sessionId : string) : bool :=
  match pendingResponses rm !! sessionId with
  | None => true
  | Some pending => negb (locked pending)
  end.

(** [lock(sessionId)] *)
Definition lock (rm : t) (sessionId : string) : t :=
  {| pendingResponses :=
       <[sessionId := {| locked := true; queue := [] |}]> (pendingResponses rm);
     lastResponseTime := lastResponseTime rm |}.

(** [unlock(sessionId)]; [now] is the value of [Date.now()]. *)
Definition unlock (now : Z) (rm : t) (sessionId : string) : t :=
  {| pendingResponses := delete sessionId (pendingResponses rm);
     lastResponseTime := <[sessionId := now]> (lastResponseTime rm) |}.

(** [shouldDebounce(sessionId, minGapMs = 2000)]; [minGapMs = None] is a
    call that leaves the second argument out.  [!lastTime] holds for
    [undefined] and for the number [0]. *)
Definition shouldDebounce (now : Z) (rm : t) (sessionId : string)
    (minGapMs : option Z) : bool :=
  match lastResponseTime rm !! sessionId with
  | None => false
  | Some lastTime =>
      if lastTime =? 0 then false
      else now - lastTime <? default 2000 minGapMs
  end.

(** The calls a client can make that change the manager. *)
Inductive call :=
| Lock (sessionId : string)
| Unlock (sessionId : string) (now : Z).

Definition step (rm : t) (c : call) : t :=
  match c with
  | Lock s => lock rm s
  | Unlock s now => unlock now rm s
  end.

(** The manager after a sequence of calls, oldest first. *)
Definition run (calls : list call) : t := foldl step new calls.

(** Some [lock(s)] in the sequence has no [unlock(s)] after it. *)
Definition open_lock (s : string) (calls : list call) : Prop :=
  ∃ before after,
    calls = before ++ Lock s :: after ∧ ∀ now, Unlock s now ∉ after.

(** The clock value of the last [unlock(s)] of the sequence. *)
Fixpoint last_unlock (s : string) (calls : list call) : option Z :=
  match calls with
  | [] => None
  | c :: rest =>
      match last_unlock s rest with
      | Some t => Some t
      | None =>
          match c with
          | Unlock s' now => if decide (s' = s) then Some now else None
          | Lock _ => None
          end
      end
  end.

(** [Date.now()] counts milliseconds from 1970 and is never [0] on a
    running server. *)
Definition clock_nonzero (calls : list call) : Prop :=
  ∀ s now, Unlock s now ∈ calls → now ≠ 0.

End ResponseManager.

(* ===================================================================== *)
(** * Message bus (class [MessageBus]) *)
(* ===================================================================== *)

Module MessageBus.
Section Bus.

(** [Payload] is the data published, [State] everything a callback can read
    or change, [Exn] the values a callback can throw. *)
Context {Payload State Exn : Type}.

(** How a synchronous call ends. *)
Inductive completion :=
| Normal
| Throw (e : Exn).

(** A subscriber: called with the payload, it changes the state and either
    returns or throws. *)
Definition callback : Type := Payload → State → State * completion.

Record t := { subscribers : gmap string (list callback) }.

(** [constructor()] *)
Definition new : t := {| subscribers := ∅ |}.

(** [subscribe(event, callback)] *)
Definition subscribe (event : string) (cb : callback) (bus : t) : t :=
  let subs :=
    match subscribers bus !! event with
    | None => <[event := []]> (subscribers bus)
    | Some _ => subscribers bus
    end in
  {| subscribers := <[event := default [] (subs !! event) ++ [cb]]> subs |}.

(** [handlers.forEach(handler => handler(data))].  An exception thrown by
    the arrow function leaves [forEach] at once.  The third component
    counts the handlers that were called (it is not part of the program:
    it records which prefix of the array ran).  [subscribe] only appends,
    and [forEach] does not visit elements appended after it started, so the
    array is fixed for one call. *)
Fixpoint forEach (handlers : list callback) (data : Payload) (st : State)
    : State * completion * nat :=
  match handlers with
  | [] => (st, Normal, 0%nat)
  | handler :: rest =>
      match handler data st with
      | (st', Normal) =>
          let '(st'', c, n) := forEach rest data st' in (st'', c, S n)
      | (st', Throw e) => (st', Throw e, 1%nat)
      end
  end.

(** [publish(event, data)] *)
Definition publish (event : string) (data : Payload) (bus : t) (st : State)
    : State * completion * nat :=
  let handlers := default [] (subscribers bus !! event) in
  forEach handlers data st.

(** The state in which the [i]-th handler of the array is called when every
    handler before it returned. *)
Fixpoint state_before (handlers : list callback) (data : Payload)
    (st : State) (i : nat) : State :=
  match i, handlers with
  | S j, handler :: rest => state_before rest data (fst (handler data st)) j
  | _, _ => st
  end.

(** The [i]-th handler, called in its turn, throws [e]. *)
Definition throws_at (handlers : list callback) (data : Payload)
    (st : State) (i : nat) (e : Exn) : Prop :=
  ∃ handler, handlers !! i = Some handler ∧
    snd (handler data (state_before handlers data st i)) = Throw e.

(** The [i]-th handler, called in its turn, returns. *)
Definition returns_at (handlers : list callback) (data : Payload)
    (st : State) (i : nat) : Prop :=
  ∃ handler, handlers !! i = Some handler ∧
    snd (handler data (state_before handlers data st i)) = Normal.

End Bus.
Arguments completion : clear implicits.
Arguments callback : clear implicits.
Arguments t : clear implicits.
End MessageBus.

(* ===================================================================== *)
(** * A2A protocol (classes [A2ATask], [A2AMessage], [A2AProtocolHandler]
      and the [/api/a2a] routes) *)
(* ===================================================================== *)

Module A2A.

(** ** Values *)

(** The JSON-like values that travel as task input, output and error, and
    the values a handler can throw.  An [Error] object is an object with a
    [message] property. *)
Inductive jsval :=
| JUndefined
| JNull
| JBool (b : bool)
| JNum (n : Z)
| JStr (s : string)
| JObj (fields : jsfields)
with jsfields :=
| FNil
| FCons (key : string) (value : jsval) (rest : jsfields).

(** [new Error(message)] *)
Definition Error (message : string) : jsval :=
  JObj (FCons "message" (JStr message) FNil).

(** [fields[key]] *)
Fixpoint assoc (key : string) (fields : jsfields) : jsval :=
  match fields with
  | FNil => JUndefined
  | FCons k v rest => if decide (k = key) then v else assoc key rest
  end.

(** [error.message]: reading a property of [undefined] or [null] throws a
    [TypeError] ([None]); a primitive has no such property. *)
Definition get_message (error : jsval) : option jsval :=
  match error with
  | JUndefined | JNull => None
  | JObj fields => Some (assoc "message" fields)
  | _ => Some JUndefined
  end.

(** The [TypeError] that reading [error.message] throws when [error] is
    [undefined] or [null]. *)
Definition unreadable (error : jsval) : jsval :=
  Error ("Cannot read properties of "
         +:+ match error with JNull => "null" | _ => "undefined" end
         +:+ " (reading 'message')").

(** A string-typed argument that a caller may leave out ([undefined]). *)
Definition jsstring : Type := option string.

(** A value inside a template literal. *)
Definition interpolate (s : jsstring) : string := default "undefined" s.

(** ** Environment: clock and random bytes *)

(** [clock n] and [entropy n] are what the [n]-th read of the environment
    returns: [Date.now()], and [crypto.randomBytes(4).toString('hex')]. *)
Record Env := {
  clock : nat → Z;
  entropy : nat → string;
  reads : nat
}.

Definition Date_now (e : Env) : Z * Env :=
  (clock e (reads e),
   {| clock := clock e; entropy := entropy e; reads := S (reads e) |}).

Definition randomHex (e : Env) : string * Env :=
  (entropy e (reads e),
   {| clock := clock e; entropy := entropy e; reads := S (reads e) |}).

(** [generateTaskId()] *)
Definition generateTaskId (e : Env) : string * Env :=
  let '(now, e) := Date_now e in
  let '(hex, e) := randomHex e in
  ("task_" +:+ pretty now +:+ "_" +:+ hex, e).

(** ** Tasks *)

(** [TaskState] *)
Inductive TaskState :=
| SUBMITTED
| WORKING
| INPUT_REQUIRED
| COMPLETED
| FAILED
| CANCELED.

Global Instance TaskState_eq_dec : EqDecision TaskState.
Proof. solve_decision. Defined.

Record HistoryEntry := {
  h_state : TaskState;
  h_timestamp : Z;
  h_message : jsval
}.

Record A2ATask := {
  id : string;
  sessionId : jsstring;
  skillId : jsstring;
  input : jsval;
  state : TaskState;
  output : jsval;
  error : jsval;
  createdAt : Z;
  updatedAt : Z;
  history : list HistoryEntry
}.

(** [new A2ATask(skillId, input, sessionId)] *)
Definition A2ATask_new (skill : jsstring) (inp : jsval) (session : jsstring)
    (e : Env) : A2ATask * Env :=
  let '(tid, e) := generateTaskId e in
  let '(created, e) := Date_now e in
  let '(updated, e) := Date_now e in
  ({| id := tid; sessionId := session; skillId := skill; input := inp;
      state := SUBMITTED; output := JNull; error := JNull;
      createdAt := created; updatedAt := updated; history := [] |}, e).

(** [updateState(newState, message = null)]: the default applies when the
    argument is [undefined]. *)
Definition updateState (newState : TaskState) (message : jsval)
    (now : Z) (task : A2ATask) : A2ATask :=
  let message := match message with JUndefined => JNull | m => m end in
  {| id := id task; sessionId := sessionId task; skillId := skillId task;
     input := input task;
     state := newState;
     output := output task; error := error task;
     createdAt := createdAt task;
     updatedAt := now;
     history := history task ++
       [{| h_state := newState; h_timestamp := now; h_message := message |}]
  |}.

Definition set_output (v : jsval) (task : A2ATask) : A2ATask :=
  {| id := id task; sessionId := sessionId task; skillId := skillId task;
     input := input task; state := state task;
     output := v; error := error task;
     createdAt := createdAt task; updatedAt := updatedAt task;
     history := history task |}.

Definition set_error (v : jsval) (task : A2ATask) : A2ATask :=
  {| id := id task; sessionId := sessionId task; skillId := skillId task;
     input := input task; state := state task;
     output := output task; error := v;
     createdAt := createdAt task; updatedAt := updatedAt task;
     history := history task |}.

(** [complete(output)] *)
Definition complete (out : jsval) (now : Z) (task : A2ATask) : A2ATask :=
  updateState COMPLETED JUndefined now (set_output out task).

(** [fail(error)] *)
Definition fail (err : jsval) (now : Z) (task : A2ATask) : A2ATask :=
  updateState FAILED err now (set_error err task).

(** [toJSON()] of a task: the fields it copies. *)
Record TaskJSON := {
  j_id : string;
  j_sessionId : jsstring;
  j_skillId : jsstring;
  j_state : TaskState;
  j_input : jsval;
  j_output : jsval;
  j_error : jsval;
  j_history : list HistoryEntry
}.

Definition toJSON (task : A2ATask) : TaskJSON :=
  {| j_id := id task; j_sessionId := sessionId task;
     j_skillId := skillId task; j_state := state task;
     j_input := input task; j_output := output task;
     j_error := error task; j_history := history task |}.

(** ** Agent cards *)

Record Skill := { skill_id : string; skill_name : string }.

Record AgentCard := {
  name : string;
  description : string;
  version : string;
  skills : list Skill
}.

(** ** Skill handlers *)

(** How the promise of an asynchronous handler ends; [Pending] is a promise
    that never settles. *)
Inductive Settlement :=
| Fulfilled (result : jsval)
| Rejected (reason : jsval)
| Pending.

(** What [handler(input, sessionId, task)] does: it throws before returning,
    or it returns a value that [await] waits for.  The handlers registered
    in the program take [input] and [sessionId] only; none changes the
    task it is given. *)
Inductive HandlerCall :=
| ThrowsSync (e : jsval)
| Awaits (s : Settlement).

Definition Handler : Type := jsval → jsstring → A2ATask → HandlerCall.


(** ** The protocol handler and the objects it shares *)

(** Task objects live in a heap and are named by their address: the [tasks]
    map and a running [sendTask] hold the same object. *)
Abbreviation ref := nat (only parsing).

Record A2AProtocolHandler := {
  agents : list (string * AgentCard);   (* agentId -> AgentCard, in insertion order *)
  tasks : gmap string nat;              (* taskId -> A2ATask (address) *)
  agentHandlers : gmap string Handler   (* skillId -> handler function *)
}.

(** The state of the process: the protocol handler, the task objects, the
    environment, and the calls of [sendTask] that are suspended at their
    [await], each with the settlement its handler's promise will have. *)
Record Sys := {
  a2a : A2AProtocolHandler;
  heap : list A2ATask;
  env : Env;
  awaiting : gmap nat Settlement
}.

(** [new A2AProtocolHandler(bus)] in a fresh process. *)
Definition init (e : Env) : Sys :=
  {| a2a := {| agents := []; tasks := ∅; agentHandlers := ∅ |};
     heap := []; env := e; awaiting := ∅ |}.

Definition with_a2a (f : A2AProtocolHandler → A2AProtocolHandler) (σ : Sys) : Sys :=
  {| a2a := f (a2a σ); heap := heap σ; env := env σ; awaiting := awaiting σ |}.

Definition with_env (e : Env) (σ : Sys) : Sys :=
  {| a2a := a2a σ; heap := heap σ; env := e; awaiting := awaiting σ |}.

Definition with_awaiting (f : gmap nat Settlement → gmap nat Settlement) (σ : Sys) : Sys :=
  {| a2a := a2a σ; heap := heap σ; env := env σ; awaiting := f (awaiting σ) |}.

(** Allocate a task object. *)
Definition alloc (task : A2ATask) (σ : Sys) : nat * Sys :=
  (length (heap σ),
   {| a2a := a2a σ; heap := heap σ ++ [task]; env := env σ;
      awaiting := awaiting σ |}).

(** Call a method that mutates the task object at [r]; the method reads the
    clock once. *)
Definition mutate (r : nat) (method : Z → A2ATask → A2ATask) (σ : Sys) : Sys :=
  let '(now, e) := Date_now (env σ) in
  {| a2a := a2a σ; heap := alter (method now) r (heap σ); env := e;
     awaiting := awaiting σ |}.

(** [Map.set] on a map that keeps insertion order. *)
Fixpoint map_set {V} (k : string) (v : V) (m : list (string * V))
    : list (string * V) :=
  match m with
  | [] => [(k, v)]
  | (k', v') :: rest =>
      if decide (k' = k) then (k, v) :: rest else (k', v') :: map_set k v rest
  end.

Fixpoint map_get {V} (k : string) (m : list (string * V)) : option V :=
  match m with
  | [] => None
  | (k', v') :: rest => if decide (k' = k) then Some v' else map_get k rest
  end.

(** A [handlers] object as [registerAgent] reads it: [handlers key] is the
    value of [handlers[key]] when it is truthy, with what a call of it as a
    handler does ([None] when it is falsy).  The lookup finds the members
    of the object itself and those it inherits. *)
Definition Handlers : Type := string → option Handler.

(** The object with the own members [own], all truthy, on top of a
    prototype whose members are [proto].  For an object literal the
    prototype is [Object.prototype], which has the members [toString],
    [constructor], [valueOf] and others; for [Object.create(null)] there is
    none. *)
Definition member_of (proto : Handlers) (own : gmap string Handler) : Handlers :=
  λ key, match own !! key with
         | Some h => Some h
         | None => proto key
         end.

(** [registerAgent(agentId, card, handlers = {})] *)
Definition registerAgent (agentId : string) (card : AgentCard)
    (handlers : Handlers) (p : A2AProtocolHandler)
    : A2AProtocolHandler :=
  {| agents := map_set agentId card (agents p);
     tasks := tasks p;
     agentHandlers :=
       foldl (λ hs skill,
                match handlers (skill_id skill) with
                | Some h => <[skill_id skill := h]> hs
                | None => hs
                end)
             (agentHandlers p) (skills card) |}.

(** [getAgentCard(agentId)] *)
Definition getAgentCard (agentId : jsstring) (p : A2AProtocolHandler)
    : option AgentCard :=
  k ← agentId; map_get k (agents p).

(** [listAgents()] *)
Definition listAgents (p : A2AProtocolHandler) : list (string * AgentCard) :=
  agents p.

(** [getTask(taskId)] *)
Definition getTask (taskId : jsstring) (σ : Sys) : option TaskJSON :=
  k ← taskId; r ← tasks (a2a σ) !! k; toJSON <$> heap σ !! r.

(** ** Sending a task *)

(** What the caller of [sendTask] gets when its promise settles. *)
Inductive Reply :=
| Returned (task : nat)   (* [return task] *)
| Threw (e : jsval).      (* the promise is rejected *)

(** The [catch (error) { task.fail(error.message); }] block followed by
    [return task].  Reading [error.message] can itself throw. *)
Definition catch_fail (r : nat) (thrown : jsval) (σ : Sys) : Reply * Sys :=
  match get_message thrown with
  | Some message => (Returned r, mutate r (fail message) σ)
  | None => (Threw (unreadable thrown), σ)
  end.

(** [sendTask(skillId, input, sessionId)] up to its first [await] or, when
    it does not reach one, to its end.  [None] is a call suspended at
    [await handler(...)]. *)
Definition sendTask_start (skill : jsstring) (inp : jsval) (session : jsstring)
    (σ : Sys) : nat * option Reply * Sys :=
  let '(task, e) := A2ATask_new skill inp session (env σ) in
  let '(r, σ) := alloc task (with_env e σ) in
  let σ := with_a2a (λ p, {| agents := agents p;
                             tasks := <[id task := r]> (tasks p);
                             agentHandlers := agentHandlers p |}) σ in
  match k ← skill; agentHandlers (a2a σ) !! k with
  | None =>
      let σ := mutate r (fail (JStr ("No handler for skill: " +:+ interpolate skill))) σ in
      (r, Some (Returned r), σ)
  | Some handler =>
      let σ := mutate r (updateState WORKING JUndefined) σ in
      match heap σ !! r with
      | None => (r, None, σ) (* unreachable: [r] was just allocated *)
      | Some working =>
          match handler inp session working with
          | ThrowsSync thrown =>
              let '(reply, σ) := catch_fail r thrown σ in (r, Some reply, σ)
          | Awaits s => (r, None, with_awaiting (insert r s) σ)
          end
      end
  end.

(** The rest of [sendTask] for the task at [r], run when the awaited promise
    settles.  Nothing happens for a call that is not suspended or whose
    promise never settles. *)
Definition sendTask_resume (r : nat) (σ : Sys) : option Reply * Sys :=
  match awaiting σ !! r with
  | Some (Fulfilled result) =>
      let σ := with_awaiting (delete r) σ in
      (Some (Returned r), mutate r (complete result) σ)
  | Some (Rejected reason) =>
      let '(reply, σ) := catch_fail r reason (with_awaiting (delete r) σ) in
      (Some reply, σ)
  | Some Pending | None => (None, σ)
  end.

(** ** Bus events *)

(** [handleTaskComplete(data)], subscribed to ['a2a:task:complete'] *)
Definition handleTaskComplete (taskId : jsstring) (out : jsval) (σ : Sys) : Sys :=
  match k ← taskId; tasks (a2a σ) !! k with
  | Some r => mutate r (complete out) σ
  | None => σ
  end.

(** [handleTaskFail(data)], subscribed to ['a2a:task:fail'] *)
Definition handleTaskFail (taskId : jsstring) (err : jsval) (σ : Sys) : Sys :=
  match k ← taskId; tasks (a2a σ) !! k with
  | Some r => mutate r (fail err) σ
  | None => σ
  end.

(** ** Turns of the event loop *)

(** The pieces of code of the protocol handler that run without
    interruption.  A run of the process is a sequence of turns. *)
Inductive Turn :=
| Register (agentId : string) (card : AgentCard) (handlers : Handlers)
| Send (skill : jsstring) (inp : jsval) (session : jsstring)
| Resume (r : nat)
| TaskComplete (taskId : jsstring) (out : jsval)
| TaskFail (taskId : jsstring) (err : jsval).

Definition turn (σ : Sys) (t : Turn) : Sys :=
  match t with
  | Register agentId card handlers => with_a2a (registerAgent agentId card handlers) σ
  | Send skill inp session => (sendTask_start skill inp session σ).2
  | Resume r => (sendTask_resume r σ).2
  | TaskComplete taskId out => handleTaskComplete taskId out σ
  | TaskFail taskId err => handleTaskFail taskId err σ
  end.

Definition run (turns : list Turn) (σ : Sys) : Sys := foldl turn σ turns.

(** [await sendTask(skillId, input, sessionId)] as its caller sees it:
    the call runs to its [await], the turns [during] (other requests and
    bus events, not the continuation of this call) run while the handler's
    promise is pending, then the call continues.  [None]: the caller waits
    for ever. *)
Definition sendTask (skill : jsstring) (inp : jsval) (session : jsstring)
    (during : list Turn) (σ : Sys) : option Reply * Sys :=
  match sendTask_start skill inp session σ with
  | (r, Some reply, σ) => (Some reply, σ)
  | (r, None, σ) => sendTask_resume r (run during σ)
  end.

(** ** JSON-RPC messages and HTTP routes *)

Inductive Result :=
| ResultTask (task : TaskJSON)
| ResultAgents (agents : list (string * AgentCard))
| ResultCard (card : AgentCard).

(** [A2AMessage.createResponse] and [A2AMessage.createError] *)
Inductive A2AMessage :=
| createResponse (id : jsval) (result : Result)
| createError (id : jsval) (code : Z) (message : jsval) (data : jsval).

Record HttpResponse := { status : Z; body : A2AMessage }.

(** [res.json(x)] answers with status 200. *)
Definition json (m : A2AMessage) : HttpResponse := {| status := 200; body := m |}.

(** The body of a [POST /api/a2a/tasks/send] request. *)
Record SendBody := {
  b_id : jsval;
  b_skillId : jsstring;
  b_input : jsval;
  b_sessionId : jsstring
}.

(** [x || d] on a string: [undefined] and the empty string are falsy. *)
Definition or_string (x : jsstring) (d : string) : jsstring :=
  match x with
  | None | Some "" => Some d
  | Some s => Some s
  end.

(** [x || {}] on a value. *)
Definition or_object (x : jsval) : jsval :=
  match x with
  | JUndefined | JNull | JBool false | JNum 0 | JStr "" => JObj FNil
  | v => v
  end.

(** The message of the error a route catches. *)
Definition message_of (e : jsval) : jsval :=
  default JUndefined (get_message e).

(** [app.post('/api/a2a/tasks/send', ...)]; [None]: no response is sent. *)
Definition post_tasks_send (req : SendBody) (during : list Turn) (σ : Sys)
    : option HttpResponse * Sys :=
  match b_skillId req with
  | None | Some "" =>
      (Some {| status := 400;
               body := createError (b_id req) (-32602) (JStr "Missing skillId") JNull |}, σ)
  | Some _ =>
      match sendTask (b_skillId req) (or_object (b_input req))
                     (or_string (b_sessionId req) "api") during σ with
      | (Some (Returned r), σ) =>
          match heap σ !! r with
          | Some task => (Some (json (createResponse (b_id req) (ResultTask (toJSON task)))), σ)
          | None => (None, σ) (* unreachable: [r] is allocated *)
          end
      | (Some (Threw e), σ) =>
          (Some {| status := 500;
                   body := createError (b_id req) (-32603) (message_of e) JNull |}, σ)
      | (None, σ) => (None, σ)
      end
  end.

(** [app.get('/api/a2a/tasks/:taskId', ...)] *)
Definition get_task (taskId : string) (σ : Sys) : HttpResponse :=
  match getTask (Some taskId) σ with
  | None =>
      {| status := 404;
         body := createError JNull (-32001) (JStr "Task not found") JNull |}
  | Some task => json (createResponse JNull (ResultTask task))
  end.

(** [app.get('/api/a2a/agents/:agentId', ...)] *)
Definition get_agent (agentId : string) (σ : Sys) : HttpResponse :=
  match getAgentCard (Some agentId) (a2a σ) with
  | None =>
      {| status := 404;
         body := createError JNull (-32001) (JStr "Agent not found") JNull |}
  | Some card => json (createResponse JNull (ResultCard card))
  end.

(** The [params] member of a JSON-RPC request: the members the routes
    read. *)
Record Params := {
  p_skillId : jsstring;
  p_input : jsval;
  p_sessionId : jsstring;
  p_taskId : jsstring;
  p_agentId : jsstring
}.

(** The body of a [POST /api/a2a/rpc] request. *)
Record RpcRequest := {
  jsonrpc : jsstring;
  rpc_id : jsval;
  method : jsstring;
  params : option Params
}.

(** The [catch] block of the RPC route. *)
Definition rpc_catch (req : RpcRequest) (e : jsval) : HttpResponse :=
  {| status := 500;
     body := createError (rpc_id req) (-32603) (message_of e) JNull |}.

(** Reading a member of [params] when the request has none throws. *)
Definition no_params (member : string) : jsval :=
  Error ("Cannot read properties of undefined (reading '" +:+ member +:+ "')").

(** [app.post('/api/a2a/rpc', ...)]; [None]: no response is sent. *)
Definition post_rpc (req : RpcRequest) (during : list Turn) (σ : Sys)
    : option HttpResponse * Sys :=
  if negb (bool_decide (jsonrpc req = Some "2.0")) then
    (Some {| status := 400;
             body := createError (rpc_id req) (-32600)
                       (JStr "Invalid JSON-RPC version") JNull |}, σ)
  else
    let ok result := Some (json (createResponse (rpc_id req) result)) in
    match method req with
    | Some "tasks/send" =>
        match params req with
        | None => (Some (rpc_catch req (no_params "skillId")), σ)
        | Some p =>
            match sendTask (p_skillId p) (p_input p) (p_sessionId p) during σ with
            | (Some (Returned r), σ) =>
                match heap σ !! r with
                | Some task => (ok (ResultTask (toJSON task)), σ)
                | None => (None, σ) (* unreachable: [r] is allocated *)
                end
            | (Some (Threw e), σ) => (Some (rpc_catch req e), σ)
            | (None, σ) => (None, σ)
            end
        end
    | Some "tasks/get" =>
        match params req with
        | None => (Some (rpc_catch req (no_params "taskId")), σ)
        | Some p =>
            match getTask (p_taskId p) σ with
            | Some task => (ok (ResultTask task), σ)
            | None => (Some (rpc_catch req (Error "Task not found")), σ)
            end
        end
    | Some "agents/list" => (ok (ResultAgents (listAgents (a2a σ))), σ)
    | Some "agents/get" =>
        match params req with
        | None => (Some (rpc_catch req (no_params "agentId")), σ)
        | Some p =>
            match getAgentCard (p_agentId p) (a2a σ) with
            | Some card => (ok (ResultCard card), σ)
            | None => (Some (rpc_catch req (Error "Agent not found")), σ)
            end
        end
    | m =>
        (Some {| status := 400;
                 body := createError (rpc_id req) (-32601)
                           (JStr ("Method not found: " +:+ interpolate m)) JNull |}, σ)
    end.

(** ** Reading a history *)

(** The states recorded in the history of a task, oldest first. *)
Definition states_of (task : A2ATask) : list TaskState :=
  h_state <$> history task.

Definition terminal (s : TaskState) : bool :=
  match s with
  | COMPLETED | FAILED | CANCELED => true
  | _ => false
  end.

(** The number of terminal states recorded in the history. *)
Definition terminal_entries (task : A2ATask) : nat :=
  length (filter (λ s, terminal s = true) (states_of task)).

(** [states] is a walk from [from] along [edge]. *)
Fixpoint walk (edge : TaskState → TaskState → bool) (from : TaskState)
    (states : list TaskState) : bool :=
  match states with
  | [] => true
  | s :: rest => edge from s && walk edge s rest
  end.

(** The transitions the code performs: [sendTask] goes from [SUBMITTED] to
    [WORKING] or, without a handler, to [FAILED], and from [WORKING] to
    [COMPLETED] or [FAILED]; [handleTaskComplete] and [handleTaskFail]
    complete or fail a task of the [tasks] map whatever its state, and a
    task of the map has left [SUBMITTED]. *)
Definition code_edge (a b : TaskState) : bool :=
  match a, b with
  | SUBMITTED, WORKING | SUBMITTED, FAILED
  | WORKING, COMPLETED | WORKING, FAILED
  | COMPLETED, COMPLETED | COMPLETED, FAILED
  | FAILED, COMPLETED | FAILED, FAILED => true
  | _, _ => false
  end.

(** The transitions [sendTask] performs on its own task. *)
Definition send_edge (a b : TaskState) : bool :=
  match a, b with
  | SUBMITTED, WORKING | SUBMITTED, FAILED
  | WORKING, COMPLETED | WORKING, FAILED => true
  | _, _ => false
  end.

(** A turn that delivers an ['a2a:task:complete'] or ['a2a:task:fail']
    event. *)
Definition is_event (t : Turn) : bool :=
  match t with
  | TaskComplete _ _ | TaskFail _ _ => true
  | _ => false
  end.

(** ** Invariants of the runs *)

(** What [sendTask] has done when it reaches its [await] or returns. *)
Inductive started (σ : Sys) (skill : jsstring) (inp : jsval)
    (session : jsstring) (σ' : Sys) (task : A2ATask)
    : option Reply → Prop :=
| started_no_handler :
    (k ← skill; agentHandlers (a2a σ) !! k) = None →
    states_of task = [FAILED] → state task = FAILED →
    error task = JStr ("No handler for skill: " +:+ interpolate skill) →
    h_message <$> history task = [error task] →
    awaiting σ' = awaiting σ →
    started σ skill inp session σ' task (Some (Returned (length (heap σ))))
| started_sync_throw_caught h w thrown message :
    (k ← skill; agentHandlers (a2a σ) !! k) = Some h →
    h inp session w = ThrowsSync thrown →
    get_message thrown = Some message →
    states_of task = [WORKING; FAILED] → state task = FAILED →
    error task = message →
    awaiting σ' = awaiting σ →
    started σ skill inp session σ' task (Some (Returned (length (heap σ))))
| started_sync_throw_escapes h w thrown e :
    (k ← skill; agentHandlers (a2a σ) !! k) = Some h →
    h inp session w = ThrowsSync thrown →
    get_message thrown = None →
    states_of task = [WORKING] → state task = WORKING →
    awaiting σ' = awaiting σ →
    started σ skill inp session σ' task (Some (Threw e))
| started_awaits h w s :
    (k ← skill; agentHandlers (a2a σ) !! k) = Some h →
    h inp session w = Awaits s →
    states_of task = [WORKING] → state task = WORKING →
    awaiting σ' = <[length (heap σ) := s]> (awaiting σ) →
    started σ skill inp session σ' task None.

(** What holds of every task object between two turns. *)
Definition task_ok (task : A2ATask) : Prop :=
  walk code_edge SUBMITTED (states_of task) = true ∧
  last (states_of task) = Some (state task) ∧
  (state task = WORKING ∨ state task = COMPLETED ∨ state task = FAILED).

Definition heap_ok (σ : Sys) : Prop :=
  ∀ r task, heap σ !! r = Some task → task_ok task.

(** Without bus events, a task only changes through its own [sendTask]. *)
Definition own_history (σ : Sys) (r : nat) (task : A2ATask) : Prop :=
  states_of task ∈ [[FAILED]; [WORKING]; [WORKING; COMPLETED]; [WORKING; FAILED]] ∧
  (is_Some (awaiting σ !! r) → states_of task = [WORKING]).

Definition heap_own (σ : Sys) : Prop :=
  (∀ r task, heap σ !! r = Some task → own_history σ r task) ∧
  (∀ r, is_Some (awaiting σ !! r) → (r < length (heap σ))%nat).

End A2A.

(* ===================================================================== *)
(** * Speech agent (class [SpeechAgent]): voice activity detection and the
      flush of a session's audio buffer *)
(* ===================================================================== *)

Module SpeechAgent.

(** A Node [Buffer]. *)
Abbreviation Buffer := (list byte) (only parsing).

Definition byte_to_Z (b : byte) : Z := Z.of_N (Byte.to_N b).

Definition byte_of_Z (z : Z) : byte :=
  default x00 (Byte.of_N (Z.to_N (z mod 256))).

(** ** Audio level *)

(** An integer as a JS number. *)
Definition number (z : Z) : float :=
  if z <? 0 then PrimFloat.opp (PrimFloat.of_uint63 (Uint63.of_Z (- z)))
  else PrimFloat.of_uint63 (Uint63.of_Z z).

(** One element of an [Int16Array] over little-endian memory. *)
Definition int16_le (lo hi : byte) : Z :=
  let u := byte_to_Z lo + 256 * byte_to_Z hi in
  if u <? 32768 then u else u - 65536.

(** [new Int16Array(buffer.buffer, buffer.byteOffset, buffer.length / 2)]:
    the length is truncated, a trailing odd byte is not part of the view. *)
Fixpoint Int16Array (buffer : list byte) : list Z :=
  match buffer with
  | lo :: hi :: rest => int16_le lo hi :: Int16Array rest
  | _ => []
  end.

(** The loop [sum += samples[i] * samples[i]]. *)
Definition sum_squares (samples : list Z) : float :=
  foldl (λ sum s, PrimFloat.add sum (PrimFloat.mul (number s) (number s)))
        0%float samples.

(** [calculateAudioLevel(buffer)] *)
Definition calculateAudioLevel (buffer : list byte) : float :=
  let samples := Int16Array buffer in
  let sum := sum_squares samples in
  PrimFloat.div
    (PrimFloat.sqrt (PrimFloat.div sum (number (Z.of_nat (length samples)))))
    32768%float.

(** ** Constants of [handleAudio] and [processAudio] *)

(** [SPEECH_THRESHOLD = 0.02], the binary64 value nearest to it. *)
Definition SPEECH_THRESHOLD : float := 0x1.47ae147ae147bp-6%float.
Definition SILENCE_DURATION : Z := 1500.
Definition NO_AUDIO_TIMEOUT : Z := 500.
(** The bound in [if (audioBuffer.length < 3200)]. *)
Definition MIN_AUDIO_BYTES : Z := 3200.

(** ** WAV header *)

Definition u16le (z : Z) : list byte :=
  [byte_of_Z z; byte_of_Z (z / 256)].

Definition u32le (z : Z) : list byte :=
  [byte_of_Z z; byte_of_Z (z / 256); byte_of_Z (z / 65536);
   byte_of_Z (z / 16777216)].

(** [pcmToWav(pcmBuffer)].  [writeUInt32LE] throws a [RangeError] for a
    value above [2^32 - 1] ([None]). *)
Definition pcmToWav (pcmBuffer : list byte) : option (list byte) :=
  let sampleRate := 16000 in
  let numChannels := 1 in
  let bitsPerSample := 16 in
  let byteRate := sampleRate * numChannels * bitsPerSample / 8 in
  let blockAlign := numChannels * bitsPerSample / 8 in
  let dataSize := Z.of_nat (length pcmBuffer) in
  if 4294967295 <? 36 + dataSize then None
  else Some (
    String.list_byte_of_string "RIFF" ++ u32le (36 + dataSize) ++
    String.list_byte_of_string "WAVE" ++
    String.list_byte_of_string "fmt " ++ u32le 16 ++ u16le 1 ++
    u16le numChannels ++ u32le sampleRate ++ u32le byteRate ++
    u16le blockAlign ++ u16le bitsPerSample ++
    String.list_byte_of_string "data" ++ u32le dataSize ++
    pcmBuffer).

(** ** Timers *)

Inductive TimerKind :=
| SilenceTimer   (* the callback armed with [SILENCE_DURATION] *)
| NoAudioTimer.  (* the callback armed with [NO_AUDIO_TIMEOUT] *)

(** The timers of the runtime that have been set and have neither fired
    nor been cleared, each with the callback it runs. *)
Record Timers := {
  next_timer : nat;
  armed : gmap nat (TimerKind * string)
}.

Definition setTimeout (kind : TimerKind) (sessionId : string) (tm : Timers)
    : nat * Timers :=
  (next_timer tm,
   {| next_timer := S (next_timer tm);
      armed := <[next_timer tm := (kind, sessionId)]> (armed tm) |}).

Definition clearTimeout (timer : nat) (tm : Timers) : Timers :=
  {| next_timer := next_timer tm; armed := delete timer (armed tm) |}.

(** ** The agent *)

Record t := {
  audioBuffers : gmap string (list (list byte));
  silenceTimers : gmap string nat;
  isProcessing : gmap string bool;
  isSpeaking : gmap string bool;
  noAudioTimers : option (gmap string nat);  (* created on first use *)
  timers : Timers
}.

(** The maps of a new agent. *)
Definition new : t :=
  {| audioBuffers := ∅; silenceTimers := ∅; isProcessing := ∅;
     isSpeaking := ∅; noAudioTimers := None;
     timers := {| next_timer := 0; armed := ∅ |} |}.

(** What the agent sends out: events published on the bus, and the buffer
    handed to the transcription service by [this.transcribe(wavBuffer)]. *)
Inductive Effect :=
| ListeningState (sessionId : string) (state : string)  (* 'client:listening_state' *)
| SpeechTranscribed (sessionId : string) (text : string) (* 'speech:transcribed' *)
| ClientTranscript (sessionId : string) (text : string) (role : string) (* 'client:transcript' *)
| Transcribe (sessionId : string) (wavBuffer : list byte).

Definition set_audioBuffers (f : gmap string (list (list byte)) → gmap string (list (list byte))) (a : t) : t :=
  {| audioBuffers := f (audioBuffers a); silenceTimers := silenceTimers a;
     isProcessing := isProcessing a; isSpeaking := isSpeaking a;
     noAudioTimers := noAudioTimers a; timers := timers a |}.

Definition set_silenceTimers (f : gmap string nat → gmap string nat) (a : t) : t :=
  {| audioBuffers := audioBuffers a; silenceTimers := f (silenceTimers a);
     isProcessing := isProcessing a; isSpeaking := isSpeaking a;
     noAudioTimers := noAudioTimers a; timers := timers a |}.

Definition set_isProcessing (s : string) (b : bool) (a : t) : t :=
  {| audioBuffers := audioBuffers a; silenceTimers := silenceTimers a;
     isProcessing := <[s := b]> (isProcessing a); isSpeaking := isSpeaking a;
     noAudioTimers := noAudioTimers a; timers := timers a |}.

Definition set_isSpeaking (s : string) (b : bool) (a : t) : t :=
  {| audioBuffers := audioBuffers a; silenceTimers := silenceTimers a;
     isProcessing := isProcessing a; isSpeaking := <[s := b]> (isSpeaking a);
     noAudioTimers := noAudioTimers a; timers := timers a |}.

Definition set_noAudioTimers (m : option (gmap string nat)) (a : t) : t :=
  {| audioBuffers := audioBuffers a; silenceTimers := silenceTimers a;
     isProcessing := isProcessing a; isSpeaking := isSpeaking a;
     noAudioTimers := m; timers := timers a |}.

Definition set_timers (tm : Timers) (a : t) : t :=
  {| audioBuffers := audioBuffers a; silenceTimers := silenceTimers a;
     isProcessing := isProcessing a; isSpeaking := isSpeaking a;
     noAudioTimers := noAudioTimers a; timers := tm |}.

(** [this.isSpeaking.get(sessionId)] and [this.isProcessing.get(sessionId)]
    used as conditions: [undefined] is falsy. *)
Definition speaking (s : string) (a : t) : bool := default false (isSpeaking a !! s).
Definition processing (s : string) (a : t) : bool := default false (isProcessing a !! s).

(** [if (this.silenceTimers.has(s)) { clearTimeout(...); this.silenceTimers.delete(s); }] *)
Definition clear_silence_timer (s : string) (a : t) : t :=
  match silenceTimers a !! s with
  | Some timer =>
      set_silenceTimers (delete s) (set_timers (clearTimeout timer (timers a)) a)
  | None => a
  end.

(** ** Flush: [processAudio] *)

(** [processAudio(sessionId)] up to [await this.transcribe(wavBuffer)] or,
    when it does not get there, to its end.  A [Transcribe] effect in the
    result means that the call is suspended at the [await], with
    [isProcessing] still set. *)
Definition processAudio (s : string) (a : t) : t * list Effect :=
  if processing s a then (a, [])
  else
    let a := set_isProcessing s true a in
    let chunks := default [] (audioBuffers a !! s) in
    if bool_decide (length chunks = 0%nat) then (set_isProcessing s false a, [])
    else
      let a := set_audioBuffers (insert s []) a in
      let audioBuffer := concat chunks in
      if Z.of_nat (length audioBuffer) <? MIN_AUDIO_BYTES then
        (set_isProcessing s false a, [])
      else
        match pcmToWav audioBuffer with
        | Some wavBuffer =>
            (a, [ListeningState s "processing"; Transcribe s wavBuffer])
        | None =>
            (* the outer [catch]: 'Processing failed' *)
            (set_isProcessing s false a,
             [ListeningState s "processing"; ListeningState s "ready"])
        end.

(** How [await this.transcribe(wavBuffer)] ends. *)
Inductive Transcription :=
| Text (response : string)
| TranscribeError (message : string).

(** The white space that [String.prototype.trim] strips: the characters
    U+0009 to U+000D and U+0020, and the characters U+00A0, U+1680, U+2000
    to U+200A, U+2028, U+2029, U+202F, U+205F, U+3000 and U+FEFF.  A
    string holds the UTF-8 encoding of a text: [is_space] is the white
    space below 128, which takes one byte, and [space2] and [space3] tell
    the encodings of the others, of two and of three bytes. *)
Definition is_space (c : ascii) : bool :=
  bool_decide (c ∈ [" "; "009"; "010"; "011"; "012"; "013"]%char).

Definition space2 (b1 b2 : ascii) : bool :=
  (nat_of_ascii b1 =? 194)%nat && (nat_of_ascii b2 =? 160)%nat.   (* U+00A0 *)

Definition space3 (b1 b2 b3 : ascii) : bool :=
  let x := nat_of_ascii b1 in
  let y := nat_of_ascii b2 in
  let z := nat_of_ascii b3 in
  ((x =? 225) && (y =? 154) && (z =? 128)                (* U+1680 *)
   || (x =? 226) && (y =? 128) &&
      ((128 <=? z) && (z <=? 138)                        (* U+2000 to U+200A *)
       || (z =? 168) || (z =? 169)                       (* U+2028, U+2029 *)
       || (z =? 175))                                    (* U+202F *)
   || (x =? 226) && (y =? 129) && (z =? 159)             (* U+205F *)
   || (x =? 227) && (y =? 128) && (z =? 128)             (* U+3000 *)
   || (x =? 239) && (y =? 187) && (z =? 191))%nat.       (* U+FEFF *)

(** [transcription.trim()] is the empty string: the text is made of white
    space only. *)
Fixpoint blank (text : string) : bool :=
  match text with
  | EmptyString => true
  | String b1 rest =>
      if is_space b1 then blank rest
      else
        match rest with
        | String b2 rest2 =>
            if space2 b1 b2 then blank rest2
            else
              match rest2 with
              | String b3 rest3 => space3 b1 b2 b3 && blank rest3
              | EmptyString => false
              end
        | EmptyString => false
        end
  end.

(** The rest of [processAudio] once the transcription has settled. *)
Definition processAudio_resume (s : string) (r : Transcription) (a : t)
    : t * list Effect :=
  if negb (processing s a) then (a, [])  (* no call is suspended *)
  else
    let effects :=
      match r with
      | Text transcription =>
          if blank transcription then [ListeningState s "ready"]
          else [SpeechTranscribed s transcription;
                ClientTranscript s transcription "user"]
      | TranscribeError _ => [ListeningState s "ready"]
      end in
    (set_isProcessing s false a, effects).

(** [processAudioNow(data)], subscribed to ['audio:process_now'] *)
Definition processAudioNow (s : string) (a : t) : t * list Effect :=
  processAudio s (clear_silence_timer s a).

(** ** Voice activity detection: [handleAudio] *)

(** [handleAudio(data)], subscribed to ['audio:received'] *)
Definition handleAudio (s : string) (audioData : list byte) (a : t)
    : t * list Effect :=
  let buffer := audioData in
  let audioLevel := calculateAudioLevel buffer in
  let a :=
    match audioBuffers a !! s with
    | None => set_isSpeaking s false (set_audioBuffers (insert s []) a)
    | Some _ => a
    end in
  (* clear the "no audio" timeout *)
  let a :=
    match noAudioTimers a with
    | Some m =>
        match m !! s with
        | Some timer =>
            set_noAudioTimers (Some (delete s m))
              (set_timers (clearTimeout timer (timers a)) a)
        | None => a
        end
    | None => a
    end in
  (* start the "no audio" timeout *)
  let a :=
    if speaking s a then
      let m := default ∅ (noAudioTimers a) in
      let '(timer, tm) := setTimeout NoAudioTimer s (timers a) in
      set_noAudioTimers (Some (<[s := timer]> m)) (set_timers tm a)
    else a in
  let push a :=
    set_audioBuffers (λ bufs, <[s := default [] (bufs !! s) ++ [buffer]]> bufs) a in
  if PrimFloat.ltb SPEECH_THRESHOLD audioLevel then
    let '(a, effects) :=
      if negb (speaking s a)
      then (set_isSpeaking s true a, [ListeningState s "listening"])
      else (a, []) in
    let a := push a in
    (clear_silence_timer s a, effects)
  else if speaking s a then
    let a := push a in
    match silenceTimers a !! s with
    | None =>
        let '(timer, tm) := setTimeout SilenceTimer s (timers a) in
        (set_silenceTimers (insert s timer) (set_timers tm a), [])
    | Some _ => (a, [])
    end
  else (a, []).

(** The callback of a timer that fires. *)
Definition timeout (kind : TimerKind) (s : string) (a : t) : t * list Effect :=
  match kind with
  | SilenceTimer =>
      let a := set_isSpeaking s false a in
      let a := set_silenceTimers (delete s) a in
      processAudio s a
  | NoAudioTimer =>
      if speaking s a &&
         negb (bool_decide (length (default [] (audioBuffers a !! s)) = 0%nat))
      then
        let a := set_isSpeaking s false a in
        let a := clear_silence_timer s a in
        processAudio s a
      else (a, [])
  end.

(** ** Turns of the event loop *)

Inductive Turn :=
| Audio (sessionId : string) (audioData : list byte)   (* 'audio:received' *)
| ProcessNow (sessionId : string)                      (* 'audio:process_now' *)
| Fire (timer : nat)                                   (* an armed timer fires *)
| Transcribed (sessionId : string) (r : Transcription).

Definition turn (a : t) (x : Turn) : t * list Effect :=
  match x with
  | Audio s audioData => handleAudio s audioData a
  | ProcessNow s => processAudioNow s a
  | Fire timer =>
      match armed (timers a) !! timer with
      | Some (kind, s) => timeout kind s (set_timers (clearTimeout timer (timers a)) a)
      | None => (a, [])
      end
  | Transcribed s r => processAudio_resume s r a
  end.

(** The agent after a sequence of turns, with everything it sent out. *)
Definition run (turns : list Turn) (a : t) : t * list Effect :=
  foldl (λ '(a, out) x, let '(a', out') := turn a x in (a', out ++ out'))
        (a, []) turns.

(** The utterances handed over for transcription: the PCM data of each
    [Transcribe] effect, after the 44 bytes of WAV header. *)
Definition utterances (out : list Effect) : list (string * list byte) :=
  omap (λ e, match e with
             | Transcribe s wavBuffer => Some (s, drop 44 wavBuffer)
             | _ => None
             end) out.

(** ** Reading the state *)

(** The frame counts as speech: [audioLevel > SPEECH_THRESHOLD]. *)
Definition is_speech (frame : list byte) : bool :=
  PrimFloat.ltb SPEECH_THRESHOLD (calculateAudioLevel frame).

(** The session is known to the agent and marked as speaking. *)
Definition in_speech (s : string) (a : t) : bool :=
  match audioBuffers a !! s with
  | Some _ => speaking s a
  | None => false
  end.

End SpeechAgent.

(* ===================================================================== *)
(** * Binary64 numbers that are integers or lie between powers of two *)
(* ===================================================================== *)

(** The vocabulary of the proofs about [calculateAudioLevel]: the
    arithmetic of JS numbers is the one of [SpecFloat], to which the
    kernel's floats are related by [FloatAxioms]. *)
Module Binary64.

(** A mantissa of exactly 53 bits. *)
Definition full_mantissa (m : positive) : Prop := 2 ^ 52 ≤ Z.pos m < 2 ^ 53.

(** [f] is the binary64 number of the integer [z > 0]: a positive float
    with a 53-bit mantissa [m] and an exponent [e] such that
    [z = m * 2^e]. *)
Definition represents (z : Z) (f : spec_float) : Prop :=
  ∃ m e, f = S754_finite false m e ∧ full_mantissa m ∧ e ≤ 0 ∧
         Z.pos m = z * 2 ^ (- e).

(** The same for [z ≥ 0], with [+0] for [0]. *)
Definition represents0 (z : Z) (f : spec_float) : Prop :=
  (z = 0 ∧ f = S754_zero false) ∨ (0 < z ∧ represents z f).

(** [f] is a normal positive float with [2^i ≤ f ≤ 2^j]. *)
Definition between (f : spec_float) (i j : Z) : Prop :=
  ∃ m e, f = S754_finite false m e ∧ full_mantissa m ∧
         i ≤ e + 52 ∧ (e + 52 < j ∨ (e + 52 = j ∧ Z.pos m = 2 ^ 52)).

(** The sum of the squares of the samples, as an integer. *)
Definition exact_sum_squares (samples : list Z) : Z :=
  foldl (λ sum s, sum + s * s) 0 samples.

(** The range of a 16-bit signed sample. *)
Definition int16 (s : Z) : Prop := -32768 ≤ s ≤ 32767.

End Binary64.

(* ===================================================================== *)
(** * The specification's statements, in its own words *)
(* ===================================================================== *)

(** These definitions follow the text of the specification, not the code;
    the properties below compare them with the code. *)
Module Stated.

(** Event bus: "handlers that throw synchronously must not prevent sibling
    handlers on the same publish call from running", and errors inside one
    handler must not stop the publisher: whenever a handler of the topic
    throws in its turn, the call still runs every handler of the topic and
    returns normally. *)
Definition isolates_failures (Payload State Exn : Type) : Prop :=
  ∀ (bus : MessageBus.t Payload State Exn) (event : string) (data : Payload)
    (st : State) (i : nat) (e : Exn),
    let handlers := default [] (MessageBus.subscribers bus !! event) in
    MessageBus.throws_at handlers data st i e →
    ∃ st', MessageBus.publish event data bus st
           = (st', MessageBus.Normal, length handlers).

(** Task lifecycle: the graph [Submitted→Working→{Completed,Failed}]. *)
Definition spec_edge (a b : A2A.TaskState) : bool :=
  match a, b with
  | A2A.SUBMITTED, A2A.WORKING
  | A2A.WORKING, A2A.COMPLETED | A2A.WORKING, A2A.FAILED => true
  | _, _ => false
  end.

(** Task lifecycle: the history is "seeded with the initial state", every
    later entry is a legal successor of the one before, and "no task has
    two terminal states". *)
Definition history_as_specified (task : A2A.A2ATask) : Prop :=
  ∃ rest,
    A2A.states_of task = A2A.SUBMITTED :: rest ∧
    A2A.walk spec_edge A2A.SUBMITTED rest = true ∧
    (A2A.terminal_entries task ≤ 1)%nat.


End Stated.

(* ===================================================================== *)
(** * Sample inputs *)
(* ===================================================================== *)

Module Samples.
Import A2A.

(** A bus with two subscribers on one topic: the first throws, the second
    writes to a log. *)
Definition thrower : MessageBus.callback unit (list string) string :=
  λ _ log, (log ++ ["first"], MessageBus.Throw "boom").
Definition logger : MessageBus.callback unit (list string) string :=
  λ _ log, (log ++ ["second"], MessageBus.Normal).
Definition two_subscribers : MessageBus.t unit (list string) string :=
  MessageBus.subscribe "topic" logger
    (MessageBus.subscribe "topic" thrower MessageBus.new).

(** A clock that starts in November 2023 and advances by one millisecond at
    each reading, and a source of random bytes that repeats itself. *)
Definition env0 : Env :=
  {| clock := λ n, 1700000000000 + Z.of_nat n;
     entropy := λ _, "deadbeef";
     reads := 0 |}.

(** A handler that answers [{success: true, mood: input.mood}], and one
    whose promise is rejected with an [Error]. *)
Definition echo : Handler :=
  λ inp _ _,
    Awaits (Fulfilled
      (JObj (FCons "success" (JBool true)
            (FCons "mood" (match inp with
                           | JObj fields => assoc "mood" fields
                           | _ => JUndefined
                           end) FNil)))).
Definition offline : Handler :=
  λ _ _ _, Awaits (Rejected (Error "No active Spotify device found")).

Definition spotify_card : AgentCard :=
  {| name := "SpotifyAgent";
     description := "Controls Spotify playback";
     version := "1.0.0";
     skills := [ {| skill_id := "play_by_mood"; skill_name := "Play By Mood" |};
                 {| skill_id := "pause_music"; skill_name := "Pause" |} ] |}.

(** The handlers of the two skills, in an object without prototype. *)
Definition spotify_handlers : Handlers :=
  member_of (λ _, None) (<["pause_music" := offline]> {["play_by_mood" := echo]}).

(** A process in which the Spotify agent has registered. *)
Definition registered : Sys :=
  run [Register "spotify" spotify_card spotify_handlers] (init env0).

Definition happy : jsval := JObj (FCons "mood" (JStr "happy") FNil).




(** Audio frames: 1600 samples of amplitude 32767, and 160 samples of
    silence. *)
Definition loud_frame : list byte := concat (repeat [xff; x7f] 1600).
Definition silent_frame : list byte := repeat x00 320.

End Samples.

(* ===================================================================== *)
(** * Values of the language, used as conditions *)
(* ===================================================================== *)


Module JS.
Import A2A.

(** [v === s] for a string [s]. *)
Definition is_string (s : string) (v : jsval) : bool :=
  match v with
  | JStr s' => bool_decide (s' = s)
  | _ => false
  end.

(** A value used as a condition. *)
Definition truthy (v : jsval) : bool :=
  match v with
  | JUndefined | JNull | JBool false | JNum 0 | JStr "" => false
  | _ => true
  end.

(** A string that may be missing, used as a condition. *)
Definition present (x : jsstring) : bool :=
  match x with
  | None | Some "" => false
  | Some _ => true
  end.

(** [v.key]: reading a member of [undefined] or [null] throws ([None]); a
    primitive has none of the members read here. *)
Definition get (v : jsval) (key : string) : option jsval :=
  match v with
  | JUndefined | JNull => None
  | JObj fields => Some (assoc key fields)
  | _ => Some JUndefined
  end.

End JS.

(* ===================================================================== *)
(** * Runs of the protocol handler: what is read off a run *)
(* ===================================================================== *)


Module A2ARuns.
Import A2A.

(** The card of the last [registerAgent(agentId, ...)] of the run. *)
Fixpoint last_registered (agentId : string) (turns : list Turn) : option AgentCard :=
  match turns with
  | [] => None
  | x :: rest =>
      match last_registered agentId rest with
      | Some card => Some card
      | None =>
          match x with
          | Register a card _ => if decide (a = agentId) then Some card else None
          | _ => None
          end
      end
  end.

(** The members of a task that no method assigns after the constructor. *)
Definition same_identity (task task' : A2ATask) : Prop :=
  id task' = id task ∧ sessionId task' = sessionId task ∧
  skillId task' = skillId task ∧ input task' = input task ∧
  createdAt task' = createdAt task.

(** The clock never runs backwards. *)
Definition monotone (e : Env) : Prop :=
  ∀ n m : nat, (n ≤ m)%nat → clock e n ≤ clock e m.

(** The timestamps of a task in the order in which they were read:
    [createdAt], then one for each entry of the history. *)
Definition timestamps (task : A2ATask) : list Z :=
  createdAt task :: (h_timestamp <$> history task).

Fixpoint ascending (l : list Z) : bool :=
  match l with
  | a :: (b :: _) as rest => (a <=? b) && ascending rest
  | _ => true
  end.

(** A method of [A2ATask] keeps the identity of the task and appends to its
    history. *)
Definition appends (f : Z → A2ATask → A2ATask) : Prop :=
  ∀ now task, same_identity task (f now task) ∧
              history task `prefix_of` history (f now task).

(** Every task id of the [tasks] map leads to a task object with that
    id. *)
Definition tasks_wf (σ : Sys) : Prop :=
  ∀ k r, tasks (a2a σ) !! k = Some r →
         ∃ task, heap σ !! r = Some task ∧ id task = k.

Definition is_send (x : Turn) : bool :=
  match x with Send _ _ _ => true | _ => false end.

(** What the clock has shown so far is not later than what it shows next,
    and every task carries timestamps in the order in which they were
    read. *)
Definition task_times_ok (limit : Z) (task : A2ATask) : Prop :=
  ascending (timestamps task) = true ∧
  last (h_timestamp <$> history task) = Some (updatedAt task) ∧
  Forall (λ t, t ≤ limit) (timestamps task).

(** The same while a method of the task at [r] is running. *)
Definition times_ok_but (r : nat) (e : Env) (σ : Sys) : Prop :=
  clock (env σ) = clock e ∧
  ∀ r' task, heap σ !! r' = Some task →
    ascending (timestamps task) = true ∧
    Forall (λ t, t ≤ clock e (reads (env σ))) (timestamps task) ∧
    (r' ≠ r → last (h_timestamp <$> history task) = Some (updatedAt task)).

(** A method that ends in [updateState]: it reads the clock once and
    records what it read, in [updatedAt] and in a new entry of the
    history. *)
Definition stamps (f : Z → A2ATask → A2ATask) : Prop :=
  ∀ now task, createdAt (f now task) = createdAt task ∧
              updatedAt (f now task) = now ∧
              h_timestamp <$> history (f now task)
                = (h_timestamp <$> history task) ++ [now].

Definition times_ok (e : Env) (σ : Sys) : Prop :=
  clock (env σ) = clock e ∧
  ∀ r task, heap σ !! r = Some task →
            task_times_ok (clock e (reads (env σ))) task.

(** The methods that the RPC route knows. *)
Definition known_method (m : jsstring) : Prop :=
  m = Some "tasks/send" ∨ m = Some "tasks/get" ∨
  m = Some "agents/list" ∨ m = Some "agents/get".

End A2ARuns.

(* ===================================================================== *)
(** * The ['a2a:task:send'] event ([A2AProtocolHandler.handleTaskSend]) *)
(* ===================================================================== *)


Module A2ABus.
Import A2A.

(** The data of an ['a2a:task:send'] event. *)
Record TaskSendData := {
  d_skillId : jsstring;
  d_input : jsval;
  d_sessionId : jsstring;
  d_responseEvent : jsstring
}.

(** What [handleTaskSend] publishes on [responseEvent]. *)
Record TaskOutcome := {
  o_sessionId : jsstring;
  o_task : TaskJSON;
  o_result : jsval;
  o_error : jsval
}.

(** [handleTaskSend(data)], subscribed to ['a2a:task:send']: the event it
    publishes with its data, if any, what its promise settles to, and the
    state it leaves. *)
Definition handleTaskSend (data : TaskSendData) (during : list Turn) (σ : Sys)
    : option (string * TaskOutcome) * option Reply * Sys :=
  match sendTask (d_skillId data) (d_input data) (d_sessionId data) during σ with
  | (Some (Returned r), σ) =>
      match heap σ !! r with
      | Some task =>
          let published :=
            match d_responseEvent data with
            | None | Some "" => None
            | Some responseEvent =>
                Some (responseEvent,
                      {| o_sessionId := d_sessionId data;
                         o_task := toJSON task;
                         o_result := output task;
                         o_error := error task |})
            end in
          (published, Some (Returned r), σ)
      | None => (None, None, σ) (* unreachable: [r] is allocated *)
      end
  | (reply, σ) => (None, reply, σ)
  end.

End A2ABus.

(* ===================================================================== *)
(** * Speech agent: reading a WAV file, and the handles of the timers *)
(* ===================================================================== *)


Module SpeechRuns.
Import SpeechAgent.

(** The unsigned integer that a reader of the file finds in a field stored
    in little-endian order ([Buffer.readUIntLE]). *)
Fixpoint readUIntLE (field : list byte) : Z :=
  match field with
  | [] => 0
  | b :: rest => byte_to_Z b + 256 * readUIntLE rest
  end.

(** The field of [size] bytes at [offset]. *)
Definition field (offset size : nat) (file : list byte) : list byte :=
  take size (drop offset file).

(** The timers that are pending and the handles that the agent keeps agree:
    the silence timer recorded for a session is pending and is the only
    pending silence timer of the session; a pending no-audio timer is the
    one recorded for its session; handles are not reused. *)
Definition handles_ok (sil : gmap string nat) (noa : option (gmap string nat))
    (next : nat) (arm : gmap nat (TimerKind * string)) : Prop :=
  (∀ s timer, sil !! s = Some timer ↔ arm !! timer = Some (SilenceTimer, s)) ∧
  (∀ timer s, arm !! timer = Some (NoAudioTimer, s) →
     ∃ m, noa = Some m ∧ m !! s = Some timer) ∧
  (∀ timer, is_Some (arm !! timer) → (timer < next)%nat) ∧
  (∀ m s timer, noa = Some m → m !! s = Some timer →
     (timer < next)%nat ∧ ∀ s', arm !! timer ≠ Some (SilenceTimer, s')).

Definition timers_ok (a : t) : Prop :=
  handles_ok (silenceTimers a) (noAudioTimers a)
             (next_timer (timers a)) (armed (timers a)).

(** [p] holds for the [n] integers from [c] on. *)
Fixpoint holds_from (n : nat) (c : Z) (p : Z → bool) : bool :=
  match n with
  | O => true
  | S n => p c && holds_from n (c + 1) p
  end.

End SpeechRuns.

(* ===================================================================== *)
(** * WebSocket gateway (the ['connection'] handler of [wss]) *)
(* ===================================================================== *)


Module Gateway.
Import A2A JS.

(** [ws.readyState] *)
Inductive ReadyState := CONNECTING | OPEN | CLOSING | CLOSED.

Global Instance ReadyState_eq_dec : EqDecision ReadyState.
Proof. solve_decision. Defined.

(** What the callbacks of the gateway read and change: the state of each
    socket, and the objects handed to [ws.send(JSON.stringify(...))], with
    the socket they were sent on, oldest first. *)
Record World := {
  readyState : nat → ReadyState;
  sent : list (nat * jsval)
}.

Definition send (ws : nat) (message : jsval) (w : World) : World :=
  {| readyState := readyState w; sent := sent w ++ [(ws, message)] |}.

(** The callback that [sendToClient(event, handler)] subscribes for the
    connection of [sessionId] on the socket [ws]:
    [(data) => { if (data.sessionId === sessionId &&
                     ws.readyState === WebSocket.OPEN) handler(data); }];
    [handler] builds the object that is sent.  Reading [data.sessionId]
    throws when [data] is [undefined] or [null]. *)
Definition sendToClient (sessionId : string) (ws : nat)
    (handler : jsfields → jsval) : MessageBus.callback jsval World jsval :=
  λ data w,
    match data with
    | JUndefined =>
        (w, MessageBus.Throw
              (Error "Cannot read properties of undefined (reading 'sessionId')"))
    | JNull =>
        (w, MessageBus.Throw
              (Error "Cannot read properties of null (reading 'sessionId')"))
    | JObj fields =>
        if is_string sessionId (assoc "sessionId" fields) &&
           bool_decide (readyState w ws = OPEN)
        then (send ws (handler fields) w, MessageBus.Normal)
        else (w, MessageBus.Normal)
    | _ => (w, MessageBus.Normal)
    end.

(** The four objects that the handlers of a connection send. *)
Definition transcript (data : jsfields) : jsval :=
  JObj (FCons "type" (JStr "transcript")
       (FCons "role" (assoc "role" data)
       (FCons "text" (assoc "text" data) FNil))).

Definition audio_mp3 (data : jsfields) : jsval :=
  JObj (FCons "type" (JStr "audio_mp3")
       (FCons "data" (assoc "audio" data) FNil)).

Definition listening_state (data : jsfields) : jsval :=
  JObj (FCons "type" (JStr "listening_state")
       (FCons "state" (assoc "state" data) FNil)).

Definition echo_suppress (data : jsfields) : jsval :=
  JObj (FCons "type" (JStr "echo_suppress")
       (FCons "suppress" (assoc "suppress" data) FNil)).

(** The events forwarded to clients, each with the object it becomes, in
    the order in which a connection subscribes to them. *)
Definition client_events : list (string * (jsfields → jsval)) :=
  [("client:transcript", transcript);
   ("client:audio", audio_mp3);
   ("client:listening_state", listening_state);
   ("client:echo_suppress", echo_suppress)].

(** The subscriptions made by the ['connection'] handler for a new socket
    [ws], to which it has given the id [sessionId]. *)
Definition connection (sessionId : string) (ws : nat)
    (bus : MessageBus.t jsval World jsval) : MessageBus.t jsval World jsval :=
  foldl (λ bus '(event, handler),
           MessageBus.subscribe event (sendToClient sessionId ws handler) bus)
        bus client_events.

(** The bus after the connections [conns], oldest first. *)
Definition connections (conns : list (string * nat))
    (bus : MessageBus.t jsval World jsval) : MessageBus.t jsval World jsval :=
  foldl (λ bus '(sessionId, ws), connection sessionId ws bus) bus conns.

(** The sockets that an event of a session is delivered to: the open
    sockets of the connections with this session id, oldest first. *)
Definition recipients (w : World) (sessionId : jsval)
    (conns : list (string * nat)) : list nat :=
  omap (λ '(s, ws),
          if is_string s sessionId &&
             bool_decide (readyState w ws = OPEN)
          then Some ws else None) conns.

End Gateway.

(* ===================================================================== *)
(** * Regular expressions of the source, as data *)
(* ===================================================================== *)


Module Regex.

(** The regular expressions used by the program, over texts whose
    characters are all below 128 (ASCII).  [Class f] is a character
    class. *)
Inductive re :=
| Never                      (* matches nothing *)
| Eps                        (* matches the empty string *)
| Class (f : ascii → bool)
| Alt (r1 r2 : re)
| Seq (r1 r2 : re)
| Star (r : re).

Definition Plus (r : re) : re := Seq r (Star r).
Definition Opt (r : re) : re := Alt r Eps.

(** [c], ignoring case (the [i] flag), for a character below 128: the
    letters [A] to [Z] become [a] to [z]. *)
Definition lower (c : ascii) : ascii :=
  let n := nat_of_ascii c in
  if (65 <=? n)%nat && (n <=? 90)%nat then ascii_of_nat (n + 32) else c.

Definition Chr (c : ascii) : re := Class (λ x, bool_decide (lower x = lower c)).

(** A word, ignoring case. *)
Fixpoint Word (w : string) : re :=
  match w with
  | EmptyString => Eps
  | String c rest => Seq (Chr c) (Word rest)
  end.

Fixpoint OneOf (words : list string) : re :=
  match words with
  | [] => Never
  | w :: rest => Alt (Word w) (OneOf rest)
  end.

Fixpoint nullable (r : re) : bool :=
  match r with
  | Never => false
  | Eps => true
  | Class _ => false
  | Alt r1 r2 => nullable r1 || nullable r2
  | Seq r1 r2 => nullable r1 && nullable r2
  | Star _ => true
  end.

(** The strings [s] such that [c s] matches [r]. *)
Fixpoint derive (c : ascii) (r : re) : re :=
  match r with
  | Never | Eps => Never
  | Class f => if f c then Eps else Never
  | Alt r1 r2 => Alt (derive c r1) (derive c r2)
  | Seq r1 r2 =>
      if nullable r1 then Alt (Seq (derive c r1) r2) (derive c r2)
      else Seq (derive c r1) r2
  | Star r => Seq (derive c r) (Star r)
  end.

(** [/^r$/.test(s)] *)
Fixpoint test (r : re) (s : string) : bool :=
  match s with
  | EmptyString => nullable r
  | String c rest => test (derive c r) rest
  end.

End Regex.

(* ===================================================================== *)
(** * Conversation agent (class [ConversationAgent]): intents and
      transcripts *)
(* ===================================================================== *)


Module ConversationAgent.
Import A2A JS Regex.

(** ** Intents *)

(** The members of an [intent] object that [routeIntent] reads
    ([confidence] is only logged). *)
Record Intent := {
  intent : jsval;
  query : jsval;
  mood : jsval;
  volume_level : jsval;
  volume_direction : jsval
}.

Definition just (action : string) : Intent :=
  {| intent := JStr action; query := JUndefined; mood := JUndefined;
     volume_level := JUndefined; volume_direction := JUndefined |}.

(** [{ ...funcToIntent[funcName], confidence: 0.95 }] for the tool call
    [funcName] with the parsed arguments [args].  The table is an object
    literal, so all its entries are built, and [args.query] is read, before
    the lookup.  A name that is not in the table gives an intent without
    [intent] member. *)
Definition funcToIntent (funcName : string) (args : jsval) : option Intent :=
  q ← get args "query";
  m ← get args "mood";
  level ← get args "level";
  direction ← get args "direction";
  let called name := bool_decide (funcName = name) in
  Some (if called "play_specific_music" then
          {| intent := JStr "play_music"; query := q; mood := JUndefined;
             volume_level := JUndefined; volume_direction := JUndefined |}
        else if called "play_by_mood" then
          {| intent := JStr "play_mood"; query := JUndefined; mood := m;
             volume_level := JUndefined; volume_direction := JUndefined |}
        else if called "skip_to_next" then just "next"
        else if called "go_to_previous" then just "previous"
        else if called "pause_music" then just "pause"
        else if called "resume_music" then just "resume"
        else if called "adjust_volume" then
          {| intent := JStr "volume"; query := JUndefined; mood := JUndefined;
             volume_level := level; volume_direction := direction |}
        else if called "get_current_track" then just "current_track"
        else if called "general_chat" then just "chat"
        else
          {| intent := JUndefined; query := JUndefined; mood := JUndefined;
             volume_level := JUndefined; volume_direction := JUndefined |}).

(** The intent when the model's answer holds no tool call. *)
Definition no_tool_call : Intent := just "chat".

(** What [routeIntent] does: it publishes a ['spotify:command'] event, or
    it publishes ['sentiment:analyze'] and answers by chat. *)
Inductive Routed :=
| SpotifyCommand (sessionId : string) (command : string) (args : jsfields)
| Chat (sessionId : string) (text : string).

(** [routeIntent(sessionId, intent, originalText)]: the [switch (action)]
    compares [action] with each label by [===]. *)
Definition routeIntent (sessionId : string) (i : Intent) (originalText : string)
    : Routed :=
  let action := intent i in
  if is_string "play_music" action then
    SpotifyCommand sessionId "play_music" (FCons "query" (query i) FNil)
  else if is_string "pause" action then SpotifyCommand sessionId "pause" FNil
  else if is_string "resume" action then SpotifyCommand sessionId "resume" FNil
  else if is_string "next" action then SpotifyCommand sessionId "next" FNil
  else if is_string "previous" action then
    SpotifyCommand sessionId "previous" FNil
  else if is_string "volume" action then
    let level := volume_level i in
    let level := if is_string "up" (volume_direction i) then JNum 80 else level in
    let level := if is_string "down" (volume_direction i) then JNum 30 else level in
    SpotifyCommand sessionId "volume"
      (FCons "level" (if truthy level then level else JNum 50) FNil)
  else if is_string "current_track" action then
    SpotifyCommand sessionId "current_track" FNil
  else if is_string "play_mood" action then
    SpotifyCommand sessionId "play_mood" (FCons "mood" (mood i) FNil)
  else Chat sessionId originalText.

(** ** [String.prototype.trim] and [toLowerCase] on ASCII text *)

(** The texts whose characters are all below 128.  In such a text every
    character is one UTF-16 code unit, so [String.length] is [text.length];
    the only white space is that of [SpeechAgent.is_space], and the only
    letters that [toLowerCase] changes are [A] to [Z].  The three functions
    below are [toLowerCase], [trim] and the noise test of the source on
    these texts; a text with other characters (for which [trim] strips
    more and [toLowerCase] changes more) is outside them. *)
Definition is_ascii (text : string) : bool :=
  forallb (λ c, (nat_of_ascii c <? 128)%nat) (String.list_ascii_of_string text).

Fixpoint toLowerCase (s : string) : string :=
  match s with
  | EmptyString => EmptyString
  | String c rest => String (lower c) (toLowerCase rest)
  end.

Fixpoint trimStart (s : list ascii) : list ascii :=
  match s with
  | c :: rest => if SpeechAgent.is_space c then trimStart rest else s
  | [] => []
  end.

Definition trim (s : string) : string :=
  String.string_of_list_ascii
    (reverse (trimStart (reverse (trimStart (String.list_ascii_of_string s))))).

(** ** The patterns of [noisePatterns] *)

Definition letter (c : ascii) : bool :=
  let n := nat_of_ascii c in
  ((65 <=? n)%nat && (n <=? 90)%nat) || ((97 <=? n)%nat && (n <=? 122)%nat).

Definition dot : re := Class (λ c, bool_decide (c = "."%char)).

(** [/^(uh|um|hmm|ah|oh|psst|shh|tsk)+\.?$/i] *)
Definition fillers : re :=
  Seq (Plus (OneOf ["uh"; "um"; "hmm"; "ah"; "oh"; "psst"; "shh"; "tsk"]))
      (Opt dot).

(** [/^\.+$/] *)
Definition dots : re := Plus dot.

(** [/^[^a-zA-Z]*$/] *)
Definition no_letter : re := Star (Class (λ c, negb (letter c))).

(** [/^(bye[.-]?)+$/i] *)
Definition byes : re :=
  Plus (Seq (Word "bye")
            (Opt (Class (λ c, bool_decide (c = "."%char) ||
                              bool_decide (c = "-"%char))))).

Definition noisePatterns : list re := [fillers; dots; no_letter; byes].

(** [cleanText.length < 2 || noisePatterns.some(p => p.test(cleanText))],
    for an ASCII [text] *)
Definition noise (text : string) : bool :=
  let cleanText := toLowerCase (trim text) in
  (String.length cleanText <? 2)%nat ||
  existsb (λ p, test p cleanText) noisePatterns.

(** ** The history of a conversation *)

Record Message := { role : string; content : string }.

Record t := { conversationHistory : gmap string (list Message) }.

Definition new : t := {| conversationHistory := ∅ |}.

(** [getHistory(sessionId)]: the history, and the agent in which the
    session has one. *)
Definition getHistory (sessionId : string) (c : t) : list Message * t :=
  match conversationHistory c !! sessionId with
  | Some history => (history, c)
  | None => ([], {| conversationHistory := <[sessionId := []]> (conversationHistory c) |})
  end.

(** [history.slice(-n)] *)
Definition last_n {A} (n : nat) (l : list A) : list A :=
  drop (length l - n) l.

(** [handleTranscript(data)], subscribed to ['speech:transcribed'], for an
    ASCII [text], up to the request to the model: the messages sent after
    the system prompt ([None] when the transcript is ignored), and the
    state left.  [now] is the value of [Date.now()]; [rm] is the global
    [responseManager]. *)
Definition handleTranscript (now : Z) (sessionId text : string)
    (c : t) (rm : ResponseManager.t)
    : option (list Message) * t * ResponseManager.t :=
  if noise text then (None, c, rm)
  else if ResponseManager.shouldDebounce now rm sessionId (Some 1500)
  then (None, c, rm)
  else
    let rm := ResponseManager.lock rm sessionId in
    let '(history, c) := getHistory sessionId c in
    let history := history ++ [{| role := "user"; content := text |}] in
    let history :=
      if (10 <? length history)%nat
      then drop (length history - 10) history else history in
    (Some (last_n 3 history),
     {| conversationHistory := <[sessionId := history]> (conversationHistory c) |},
     rm).

End ConversationAgent.

(* ===================================================================== *)
(** * Spotify access: the token ([getValidToken], [refreshSpotifyToken]),
      the playback device ([SpotifyAgent.ensureDeviceActive]) and the
      commands ([SpotifyAgent.handleCommand]) *)
(* ===================================================================== *)


Module Spotify.
Import A2A JS.

(** How an asynchronous function ends. *)
Inductive Outcome :=
| Returns (v : jsstring)
| Throws (e : jsval).

(** ** Token *)

(** The member [expires_at] of [spotifyTokens]: a time in milliseconds
    (small enough to be exact), [NaN], no such member, or [null]. *)
Inductive Expiry :=
| Time (ms : Z)
| NaN
| Undefined
| Null.

(** The object [spotifyTokens]. *)
Record Tokens := {
  access_token : jsstring;
  refresh_token : jsstring;
  expires_at : Expiry
}.

(** The members read from the answer of the token endpoint; [None] is a
    member that the answer does not have. *)
Record TokenResponse := {
  r_access_token : jsstring;
  r_expires_in : option Z;
  r_refresh_token : jsstring
}.

(** [JSON.parse(JSON.stringify(spotifyTokens))]: the tokens as
    [loadTokens] finds them in the file that [refreshSpotifyToken] has
    written.  [JSON.stringify] writes [NaN] as [null] and leaves out the
    members that are [undefined]. *)
Definition reloaded (t : Tokens) : Tokens :=
  {| access_token := access_token t;
     refresh_token := refresh_token t;
     expires_at := match expires_at t with
                   | NaN => Null
                   | e => e
                   end |}.

(** What happens after [refreshSpotifyToken] has sent its request: the
    request or the parsing of the answer fails with [e], or the answer
    [data] is read at clock time [now] and the tokens are written to the
    file, which fails with [write = Some e] or succeeds. *)
Inductive Refresh :=
| RequestFails (e : jsval)
| Answers (data : TokenResponse) (now : Z) (write : option jsval).

(** A function up to its first [await]. *)
Inductive Start :=
| Settled (o : Outcome)
| Requests.   (* the request to the token endpoint has been sent *)

(** [refreshSpotifyToken()] up to [await fetch(...)] *)
Definition refreshSpotifyToken_start (spotifyTokens : option Tokens) : Start :=
  match spotifyTokens with
  | Some t =>
      if present (refresh_token t) then Requests
      else Settled (Throws (Error "No refresh token"))
  | None => Settled (Throws (Error "No refresh token"))
  end.

(** [refreshSpotifyToken()] from [await fetch(...)] on *)
Definition refreshSpotifyToken_resume (r : Refresh) (spotifyTokens : option Tokens)
    : Outcome * option Tokens :=
  match r, spotifyTokens with
  | RequestFails e, _ => (Throws e, spotifyTokens)
  | Answers data now write, Some t =>
      let t :=
        {| access_token := r_access_token data;
           expires_at := match r_expires_in data with
                         | Some expires_in => Time (now + expires_in * 1000)
                         | None => NaN  (* [undefined * 1000] *)
                         end;
           refresh_token :=
             if present (r_refresh_token data) then r_refresh_token data
             else refresh_token t |} in
      match write with
      | Some e => (Throws e, Some t)
      | None => (Returns (access_token t), Some t)
      end
  | Answers _ _ _, None =>
      (Throws (Error "Cannot set properties of null (setting 'access_token')"),
       None)
  end.

(** [getValidToken()] up to its first [await]; [now] is the value of
    [Date.now()].  In [spotifyTokens.expires_at - 60000], [null] counts as
    0, and [undefined] and [NaN] make the difference [NaN]; a comparison
    with [NaN] is false. *)
Definition getValidToken_start (now : Z) (spotifyTokens : option Tokens) : Start :=
  match spotifyTokens with
  | None => Settled (Throws (Error "No Spotify token"))
  | Some t =>
      if match expires_at t with
         | Time expires => expires - 60000 <=? now
         | Null => 0 - 60000 <=? now
         | NaN | Undefined => false
         end
      then refreshSpotifyToken_start spotifyTokens
      else Settled (Returns (access_token t))
  end.

(** [await getValidToken()] when nothing else runs in between. *)
Definition getValidToken (now : Z) (r : Refresh) (spotifyTokens : option Tokens)
    : Outcome * option Tokens :=
  match getValidToken_start now spotifyTokens with
  | Settled o => (o, spotifyTokens)
  | Requests => refreshSpotifyToken_resume r spotifyTokens
  end.

(** ** Playback device *)

(** A device of the answer of [/me/player/devices]. *)
Record Device := {
  d_id : jsstring;
  d_name : string;
  is_active : bool
}.

(** How a call of [spotifyAPI] ends. *)
Inductive Api (A : Type) :=
| Ok (v : A)
| Failed (e : jsval).
Arguments Ok {A} v.
Arguments Failed {A} e.

Definition no_device : jsval :=
  Error "No active Spotify device found. Please open Spotify app or refresh browser.".

(** [ensureDeviceActive(deviceId = null)]: how it ends, the value of the
    global [webPlaybackDeviceId] that it leaves, and the [device_ids] of
    its request to transfer the playback, when it makes one.  [devices] is
    how the request for the devices ends, for an answer that is an object
    whose [devices] member is missing ([Ok None]) or an array of devices;
    [transfer] is how the transfer ends.  What [spotifyAPI] throws is an
    error object, so that reading [error.message] in the [catch] block
    succeeds. *)
Definition ensureDeviceActive (deviceId : jsstring)
    (devices : Api (option (list Device))) (transfer : Api unit)
    (webPlaybackDeviceId : jsstring)
    : Outcome * jsstring * option (list jsstring) :=
  match devices with
  | Failed e => (Throws e, webPlaybackDeviceId, None)
  | Ok None | Ok (Some []) => (Throws no_device, webPlaybackDeviceId, None)
  | Ok (Some (first :: rest)) =>
      let ds := first :: rest in
      let targetDeviceId :=
        if present deviceId then deviceId else webPlaybackDeviceId in
      let targetDeviceId :=
        if present targetDeviceId then
          if existsb (λ d, bool_decide (d_id d = targetDeviceId)) ds
          then targetDeviceId else None
        else targetDeviceId in
      let '(targetDeviceId, webPlaybackDeviceId) :=
        if present targetDeviceId then (targetDeviceId, webPlaybackDeviceId)
        else
          let activeDevice := default first (find is_active ds) in
          (d_id activeDevice, d_id activeDevice) in
      match transfer with
      | Failed e => (Throws e, webPlaybackDeviceId, Some [targetDeviceId])
      | Ok _ => (Returns targetDeviceId, webPlaybackDeviceId, Some [targetDeviceId])
      end
  end.

(** ** Commands *)

(** The cases of the [switch (command)] of [SpotifyAgent.handleCommand];
    [CmdUnknown] is its [default], which answers
    [{ success: false, message: `Unknown command: ${command}` }]. *)
Inductive Command :=
| CmdPlayMusic | CmdPause | CmdResume | CmdNext | CmdPrevious | CmdVolume | CmdCurrentTrack
| CmdPlayMood | CmdUnknown.

Definition command_of (command : string) : Command :=
  let case label := bool_decide (command = label) in
  if case "play_music" then CmdPlayMusic
  else if case "pause" then CmdPause
  else if case "resume" then CmdResume
  else if case "next" then CmdNext
  else if case "previous" then CmdPrevious
  else if case "volume" then CmdVolume
  else if case "current_track" then CmdCurrentTrack
  else if case "play_mood" then CmdPlayMood
  else CmdUnknown.

End Spotify.

(* ===================================================================== *)
(** * Mood history (class [SentimentAgent]) *)
(* ===================================================================== *)


Module SentimentAgent.
Import A2A.

(** [{ ...fields, [key]: v }]: the member is replaced where it stands, or
    added at the end. *)
Fixpoint set_field (key : string) (v : jsval) (fields : jsfields) : jsfields :=
  match fields with
  | FNil => FCons key v FNil
  | FCons k v' rest =>
      if decide (k = key) then FCons k v rest
      else FCons k v' (set_field key v rest)
  end.

(** The moods stored for each session; a session id that a caller left out
    is the key [undefined]. *)
Record t := { userMoods : gmap jsstring (list jsfields) }.

Definition new : t := {| userMoods := ∅ |}.

(** [getMoodHistory(sessionId)] *)
Definition getMoodHistory (sessionId : jsstring) (a : t) : list jsfields :=
  default [] (userMoods a !! sessionId).

(** [storeMood(sessionId, sentiment)] for a [sentiment] that is an object;
    [now] is the value of [Date.now()]. *)
Definition storeMood (now : Z) (sessionId : jsstring) (sentiment : jsfields)
    (a : t) : t :=
  let moods :=
    match userMoods a !! sessionId with
    | None => <[sessionId := []]> (userMoods a)
    | Some _ => userMoods a
    end in
  {| userMoods :=
       <[sessionId := default [] (moods !! sessionId)
                      ++ [set_field "timestamp" (JNum now) sentiment]]> moods |}.

(** A call of [storeMood], with the clock value it reads. *)
Record Stored := {
  s_now : Z;
  s_sessionId : jsstring;
  s_sentiment : jsfields
}.

Definition run (calls : list Stored) : t :=
  foldl (λ a c, storeMood (s_now c) (s_sessionId c) (s_sentiment c) a) new calls.

End SentimentAgent.

(* ===================================================================== *)
(** * Sessions (class [OrchestratorAgent]) *)
(* ===================================================================== *)


Module Orchestrator.

(** [{ ws, startTime }] *)
Record Session := { ws : nat; startTime : Z }.

Record t := { sessions : gmap string Session }.

Definition new : t := {| sessions := ∅ |}.

(** [registerSession(sessionId, ws)]; [now] is the value of [Date.now()]. *)
Definition registerSession (now : Z) (sessionId : string) (socket : nat)
    (o : t) : t :=
  {| sessions := <[sessionId := {| ws := socket; startTime := now |}]> (sessions o) |}.

(** [removeSession(sessionId)] *)
Definition removeSession (sessionId : string) (o : t) : t :=
  {| sessions := delete sessionId (sessions o) |}.

(** [getSession(sessionId)] *)
Definition getSession (sessionId : string) (o : t) : option Session :=
  sessions o !! sessionId.

(** What [getSessionInfo] returns for a session. *)
Record SessionInfo := {
  i_sessionId : string;
  i_startTime : Z;
  i_duration : Z
}.

(** [getSessionInfo(sessionId)]: [None] is [null]; the skill
    [manage_sessions] calls it with [input.sessionId], which may be
    missing. *)
Definition getSessionInfo (now : Z) (sessionId : A2A.jsstring) (o : t)
    : option SessionInfo :=
  k ← sessionId;
  session ← sessions o !! k;
  Some {| i_sessionId := k; i_startTime := startTime session;
          i_duration := now - startTime session |}.

(** The calls made by the gateway: a connection registers its session, the
    end of the connection removes it. *)
Inductive call :=
| Connect (now : Z) (sessionId : string) (socket : nat)
| Close (sessionId : string).

Definition step (o : t) (c : call) : t :=
  match c with
  | Connect now sessionId socket => registerSession now sessionId socket o
  | Close sessionId => removeSession sessionId o
  end.

Definition run (calls : list call) : t := foldl step new calls.

(** The start time of the session, when the last call that concerns it is
    a connection. *)
Fixpoint connected_since (sessionId : string) (calls : list call) : option Z :=
  match calls with
  | [] => None
  | c :: rest =>
      if existsb (λ c', match c' with
                        | Connect _ s _ | Close s => bool_decide (s = sessionId)
                        end) rest
      then connected_since sessionId rest
      else match c with
           | Connect now s _ => if decide (s = sessionId) then Some now else None
           | Close _ => None
           end
  end.

End Orchestrator.

(* ===================================================================== *)
(** * Properties of the response manager *)
(* ===================================================================== *)

Section ResponseManagerFacts.
Import ResponseManager.

Lemma run_snoc (calls : list call) (c : call) :
  run (calls ++ [c]) = step (run calls) c.
Proof. unfold run. by rewrite foldl_app. Qed.

Lemma open_lock_snoc (s : string) (calls : list call) (c : call) :
  open_lock s (calls ++ [c]) ↔
  c = Lock s ∨ (open_lock s calls ∧ ∀ now, c ≠ Unlock s now).
Proof.
  split.
  - intros (before & after & Heq & Hno).
    destruct after as [|a after _] using rev_ind.
    + left. apply (app_inj_tail calls before c (Lock s)) in Heq. tauto.
    + right.
      change (before ++ Lock s :: after ++ [a])
        with (before ++ (Lock s :: after) ++ [a]) in Heq.
      rewrite app_assoc in Heq.
      apply app_inj_tail in Heq as [-> ->].
      split.
      * exists before, after. split; [done|].
        intros now Hin. apply (Hno now). set_solver.
      * intros now ->. apply (Hno now). set_solver.
  - intros [-> | [(before & after & -> & Hno) Hc]].
    + exists calls, []. split; [done|]. intros now Hin. inversion Hin.
    + exists before, (after ++ [c]). split.
      * by rewrite <- app_assoc.
      * intros now [Hin | Hin%list_elem_of_singleton]%elem_of_app.
        -- by apply (Hno now).
        -- by apply (Hc now).
Qed.

(** The entry of a session is present exactly while a lock is open, and it
    is always the locked entry. *)
Lemma pending_spec (calls : list call) (s : string) :
  (open_lock s calls ∧
   pendingResponses (run calls) !! s = Some {| locked := true; queue := [] |})
  ∨ (¬ open_lock s calls ∧ pendingResponses (run calls) !! s = None).
Proof.
  induction calls as [|c calls IH] using rev_ind.
  - right. split; [|done].
    intros (before & after & Heq & _). by destruct before.
  - rewrite run_snoc, open_lock_snoc.
    destruct c as [s' | s' now]; simpl.
    + destruct (decide (s' = s)) as [-> | Hne].
      * left. split; [by left|]. by rewrite lookup_insert_eq.
      * rewrite lookup_insert_ne by done.
        destruct IH as [[Ho Hl] | [Hn Hl]]; [left | right]; split; try done.
        -- right. split; [done|]. intros; discriminate.
        -- intros [Heq | [Ho _]]; [congruence | done].
    + destruct (decide (s' = s)) as [-> | Hne].
      * right. split; [|by rewrite lookup_delete_eq].
        intros [Heq | [_ Hc]]; [discriminate | by apply (Hc now)].
      * rewrite lookup_delete_ne by done.
        destruct IH as [[Ho Hl] | [Hn Hl]]; [left | right]; split; try done.
        -- right. split; [done|]. intros ? [= ? ?]. done.
        -- intros [Heq | [Ho _]]; [discriminate | done].
Qed.

Lemma last_unlock_snoc (s : string) (calls : list call) (c : call) :
  last_unlock s (calls ++ [c]) =
  match c with
  | Unlock s' now => if decide (s' = s) then Some now else last_unlock s calls
  | Lock _ => last_unlock s calls
  end.
Proof.
  induction calls as [|c' calls IH]; simpl.
  - destruct c as [|s' now]; [done|]. by destruct (decide (s' = s)).
  - rewrite IH. destruct c as [|s' now]; [done|].
    by destruct (decide (s' = s)).
Qed.

(** The recorded time of a session is the clock value of its last unlock. *)
Lemma lastResponseTime_spec (calls : list call) (s : string) :
  lastResponseTime (run calls) !! s = last_unlock s calls.
Proof.
  induction calls as [|c calls IH] using rev_ind; [done|].
  rewrite run_snoc, last_unlock_snoc.
  destruct c as [s' | s' now]; simpl; [done|].
  destruct (decide (s' = s)) as [-> | Hne].
  - by rewrite lookup_insert_eq.
  - by rewrite lookup_insert_ne.
Qed.

Lemma last_unlock_elem (s : string) (calls : list call) (t : Z) :
  last_unlock s calls = Some t → Unlock s t ∈ calls.
Proof.
  induction calls as [|c calls IH]; simpl; [done|].
  destruct (last_unlock s calls) as [t'|].
  - intros [= ->]. right. by apply IH.
  - destruct c as [|s' now]; [done|].
    destruct (decide (s' = s)) as [-> |]; [|done].
    intros [= ->]. left.
Qed.

(** C7: after any sequence of lock and unlock calls, [canRespond(s)] is
    false exactly when some earlier [lock(s)] has no [unlock(s)] after it;
    in particular it is true for a session that has no entry. *)
Theorem canRespond_false_iff_open_lock (calls : list call) (s : string) :
  (canRespond (run calls) s = false ↔ open_lock s calls) ∧
  (pendingResponses (run calls) !! s = None → canRespond (run calls) s = true).
Proof.
  unfold canRespond.
  destruct (pending_spec calls s) as [[Ho ->] | [Hn ->]]; simpl.
  - split; [tauto | discriminate].
  - split; [|done]. split; [discriminate | tauto].
Qed.

(** C8: [shouldDebounce(s, minGapMs)] is true exactly when an [unlock(s)]
    has been recorded and less than [minGapMs] milliseconds have passed
    since the last one; it is false when no [unlock(s)] was recorded. *)
Theorem shouldDebounce_iff (calls : list call) (s : string) (now : Z)
    (minGapMs : option Z) :
  clock_nonzero calls →
  (shouldDebounce now (run calls) s minGapMs = true ↔
     ∃ t, last_unlock s calls = Some t ∧ now - t < default 2000 minGapMs) ∧
  (shouldDebounce now (run calls) s (Some 2000) = true ↔
     ∃ t, last_unlock s calls = Some t ∧ now - t < 2000) ∧
  (last_unlock s calls = None →
     shouldDebounce now (run calls) s minGapMs = false).
Proof.
  intros Hclock. unfold shouldDebounce.
  rewrite lastResponseTime_spec.
  destruct (last_unlock s calls) as [t|] eqn:Hlast.
  - assert (t ≠ 0) as Ht.
    { apply (Hclock s). by apply last_unlock_elem. }
    apply Z.eqb_neq in Ht. rewrite Ht.
    split_and!; [| |done]; (split;
      [intros H%Z.ltb_lt; eauto | intros (? & [= <-] & ?); by apply Z.ltb_lt]).
  - split_and!; [| |done]; (split; [done | by intros (? & ? & _)]).
Qed.

(** C10: [unlock(s)] needs no earlier [lock(s)]: in any state of the
    manager it removes the entry of [s], so that [canRespond(s)] is true,
    and records the clock, so that [shouldDebounce(s, g)] is true during the
    [g] milliseconds that follow. *)
Theorem unlock_unconditional (rm : t) (s : string) (now now' g : Z) :
  now ≠ 0 →
  canRespond (unlock now rm s) s = true ∧
  pendingResponses (unlock now rm s) !! s = None ∧
  lastResponseTime (unlock now rm s) !! s = Some now ∧
  (now ≤ now' < now + g → shouldDebounce now' (unlock now rm s) s (Some g) = true) ∧
  (now + g ≤ now' → shouldDebounce now' (unlock now rm s) s (Some g) = false).
Proof.
  intros Hnow. apply Z.eqb_neq in Hnow.
  unfold canRespond, shouldDebounce; simpl.
  rewrite lookup_delete_eq, lookup_insert_eq, Hnow. simpl.
  split_and!; try done.
  - intros ?. apply Z.ltb_lt. lia.
  - intros ?. apply Z.ltb_ge. lia.
Qed.

End ResponseManagerFacts.

(* ===================================================================== *)
(** * Properties of the message bus *)
(* ===================================================================== *)

Section MessageBusFacts.
Import MessageBus.
Context {Payload State Exn : Type}.
Implicit Types (handlers : list (callback Payload State Exn)).
Implicit Types (data : Payload) (st : State).

Lemma returns_at_cons handlers h data st (i : nat) :
  returns_at (h :: handlers) data st (S i) ↔
  returns_at handlers data (h data st).1 i.
Proof. done. Qed.

Lemma throws_at_cons handlers h data st (i : nat) (e : Exn) :
  throws_at (h :: handlers) data st (S i) e ↔
  throws_at handlers data (h data st).1 i e.
Proof. done. Qed.

(** When no handler throws, [forEach] calls all of them, in order. *)
Lemma forEach_all_return handlers data st :
  (∀ i, (i < length handlers)%nat → returns_at handlers data st i) →
  forEach handlers data st
  = (state_before handlers data st (length handlers), Normal, length handlers).
Proof.
  revert st. induction handlers as [|h rest IH]; intros st Hret; [done|].
  simpl. destruct (Hret 0%nat) as (h' & [= <-] & Hh); [simpl; lia|].
  simpl in Hh. destruct (h data st) as [st' c] eqn:Hcall.
  simpl in Hh. subst c. rewrite IH; [done|].
  intros i Hi. specialize (Hret (S i)).
  rewrite returns_at_cons, Hcall in Hret. apply Hret. simpl. lia.
Qed.

(** [forEach] stops at the first handler that throws. *)
Lemma forEach_first_throw handlers data st (i : nat) (e : Exn) :
  (∀ j, (j < i)%nat → returns_at handlers data st j) →
  throws_at handlers data st i e →
  ∃ h, handlers !! i = Some h ∧
       forEach handlers data st
       = ((h data (state_before handlers data st i)).1, Throw e, S i).
Proof.
  revert st i. induction handlers as [|h rest IH]; intros st i Hret Hthrow.
  { by destruct Hthrow as (? & ? & _). }
  destruct i as [|i].
  - destruct Hthrow as (h' & [= <-] & Hh). simpl in Hh.
    exists h. split; [done|]. simpl.
    destruct (h data st) as [st' c]. simpl in Hh. by subst c.
  - destruct (Hret 0%nat) as (h' & [= <-] & Hh); [lia|]. simpl in Hh.
    rewrite throws_at_cons in Hthrow.
    destruct (IH (h data st).1 i) as (hi & Hlook & Heq); [|done|].
    { intros j Hj. apply (proj1 (returns_at_cons rest h data st j)), Hret. lia. }
    exists hi. split; [done|]. simpl.
    destruct (h data st) as [st' c]. simpl in *. subst c. by rewrite Heq.
Qed.

(** C1, as the code has it: [publish] calls the handlers of the topic in
    subscription order until one throws.  If none throws, every handler is
    called and [publish] returns normally.  If the [i]-th handler is the
    first to throw, exactly the handlers up to it have been called, the
    handlers subscribed after it are not called, and the exception leaves
    [publish]. *)
Theorem publish_runs_until_first_throw
    (bus : MessageBus.t Payload State Exn) (event : string) data st :
  let handlers := default [] (subscribers bus !! event) in
  ((∀ i, (i < length handlers)%nat → returns_at handlers data st i) →
   publish event data bus st
   = (state_before handlers data st (length handlers), Normal, length handlers))
  ∧
  (∀ (i : nat) (e : Exn),
     (∀ j, (j < i)%nat → returns_at handlers data st j) →
     throws_at handlers data st i e →
     ∃ h, handlers !! i = Some h ∧
          publish event data bus st
          = ((h data (state_before handlers data st i)).1, Throw e, S i)).
Proof.
  intros handlers. split.
  - apply forEach_all_return.
  - apply forEach_first_throw.
Qed.

End MessageBusFacts.

Import Samples.

Lemma two_subscribers_handlers :
  MessageBus.subscribers two_subscribers !! "topic" = Some [thrower; logger].
Proof.
  unfold two_subscribers, MessageBus.subscribe. simpl.
  rewrite lookup_empty. simpl.
  rewrite lookup_insert_eq. simpl. rewrite lookup_insert_eq. simpl.
  by rewrite lookup_insert_eq.
Qed.

(** C1, as stated, fails: the throwing first subscriber keeps the second
    one from being called, and [publish] does not return normally. *)
Lemma publish_does_not_isolate :
  MessageBus.publish "topic" tt two_subscribers []
    = (["first"], MessageBus.Throw "boom", 1%nat)
  ∧ ¬ Stated.isolates_failures unit (list string) string.
Proof.
  assert (MessageBus.publish "topic" tt two_subscribers []
          = (["first"], MessageBus.Throw "boom", 1%nat)) as Hpub.
  { unfold MessageBus.publish. by rewrite two_subscribers_handlers. }
  split; [done|].
  intros Hiso.
  destruct (Hiso two_subscribers "topic" tt [] 0%nat "boom") as [st' Heq].
  - rewrite two_subscribers_handlers. by exists thrower.
  - rewrite Hpub in Heq. discriminate.
Qed.

(** The first subscriber of [two_subscribers] throws at once: the bus
    has called one handler out of two. *)
Lemma publish_runs_until_first_throw_witness :
  ∃ h, [thrower; logger] !! 0%nat = Some h ∧
       MessageBus.publish "topic" tt two_subscribers []
       = ((h tt []).1, MessageBus.Throw "boom", 1%nat).
Proof.
  pose proof (publish_runs_until_first_throw two_subscribers "topic" tt [])
    as [_ H].
  rewrite two_subscribers_handlers in H. simpl in H.
  apply (H 0%nat "boom").
  - intros j Hj. lia.
  - exists thrower. split; reflexivity.
Defined.

(* ===================================================================== *)
(** * Properties of the A2A protocol handler *)
(* ===================================================================== *)

Section A2AFacts.
Import A2A.

Lemma lookup_mutate (r r' : nat) (f : Z → A2ATask → A2ATask) (σ : Sys) :
  heap (mutate r f σ) !! r' =
  if decide (r = r') then f (clock (env σ) (reads (env σ))) <$> heap σ !! r
  else heap σ !! r'.
Proof. unfold mutate. simpl. apply list_lookup_alter. Qed.

Lemma length_heap_mutate (r : nat) (f : Z → A2ATask → A2ATask) (σ : Sys) :
  length (heap (mutate r f σ)) = length (heap σ).
Proof. unfold mutate. simpl. apply length_alter. Qed.

Lemma states_of_updateState (s : TaskState) (m : jsval) (now : Z) (task : A2ATask) :
  states_of (updateState s m now task) = states_of task ++ [s].
Proof. unfold states_of. simpl. by rewrite fmap_app. Qed.

Lemma states_of_complete (out : jsval) (now : Z) (task : A2ATask) :
  states_of (complete out now task) = states_of task ++ [COMPLETED].
Proof. unfold complete. by rewrite states_of_updateState. Qed.

Lemma states_of_fail (err : jsval) (now : Z) (task : A2ATask) :
  states_of (fail err now task) = states_of task ++ [FAILED].
Proof. unfold fail. by rewrite states_of_updateState. Qed.

Lemma alter_snoc {A} (f : A → A) (l : list A) (x : A) :
  alter f (length l) (l ++ [x]) = l ++ [f x].
Proof.
  rewrite <- (Nat.add_0_r (length l)) at 1. by rewrite alter_app_r.
Qed.

Lemma sendTask_start_spec (skill : jsstring) (inp : jsval)
    (session : jsstring) (σ : Sys) :
  ∃ task,
    (sendTask_start skill inp session σ).1.1 = length (heap σ) ∧
    heap (sendTask_start skill inp session σ).2 = heap σ ++ [task] ∧
    agentHandlers (a2a (sendTask_start skill inp session σ).2)
      = agentHandlers (a2a σ) ∧
    input task = inp ∧ skillId task = skill ∧ sessionId task = session ∧
    started σ skill inp session (sendTask_start skill inp session σ).2 task
      (sendTask_start skill inp session σ).1.2.
Proof.
  unfold sendTask_start. simpl.
  destruct (skill ≫= _) as [h|] eqn:Hh; simpl.
  - rewrite list_lookup_alter. destruct (decide _) as [_|]; [|done].
    rewrite lookup_app_r, Nat.sub_diag by done. simpl.
    destruct (h inp session _) as [thrown | s] eqn:Hcall; simpl.
    + unfold catch_fail.
      destruct (get_message thrown) as [m|] eqn:Hm; simpl;
        rewrite ?alter_snoc;
        (eexists; split_and!; [done | rewrite ?alter_snoc; done | done..|]).
      * by eapply started_sync_throw_caught.
      * by eapply started_sync_throw_escapes.
    + rewrite ?alter_snoc.
      eexists; split_and!; [done..|]. by eapply started_awaits.
  - rewrite ?alter_snoc.
    eexists; split_and!; [done..|]. by eapply started_no_handler.
Qed.

Lemma started_awaiting σ skill inp session σ' task reply (r : nat) :
  started σ skill inp session σ' task reply →
  r ≠ length (heap σ) → awaiting σ' !! r = awaiting σ !! r.
Proof.
  intros [] Hr; try congruence.
  match goal with H : awaiting σ' = _ |- _ => rewrite H end.
  by rewrite lookup_insert_ne.
Qed.

Lemma a2a_run_snoc (turns : list Turn) (x : Turn) (σ : Sys) :
  run (turns ++ [x]) σ = turn (run turns σ) x.
Proof. unfold run. by rewrite foldl_app. Qed.

Lemma length_heap_resume (r : nat) (σ : Sys) :
  length (heap (sendTask_resume r σ).2) = length (heap σ).
Proof.
  unfold sendTask_resume, catch_fail.
  destruct (awaiting σ !! r) as [[v | reason |]|]; simpl; try done.
  - apply length_alter.
  - destruct (get_message reason); simpl; [apply length_alter | done].
Qed.

Lemma length_heap_turn (σ : Sys) (x : Turn) :
  (length (heap σ) ≤ length (heap (turn σ x)))%nat.
Proof.
  destruct x as [agentId card handlers | skill inp session | r
                 | taskId out | taskId err]; simpl.
  - done.
  - destruct (sendTask_start_spec skill inp session σ) as (task & _ & -> & _).
    rewrite length_app. lia.
  - by rewrite length_heap_resume.
  - unfold handleTaskComplete. destruct (taskId ≫= _); [|done].
    by rewrite length_heap_mutate.
  - unfold handleTaskFail. destruct (taskId ≫= _); [|done].
    by rewrite length_heap_mutate.
Qed.

Lemma length_heap_run (turns : list Turn) (σ : Sys) :
  (length (heap σ) ≤ length (heap (run turns σ)))%nat.
Proof.
  induction turns as [|x turns IH] using rev_ind; [done|].
  rewrite a2a_run_snoc. etrans; [apply IH | apply length_heap_turn].
Qed.



(** The continuation of [sendTask] leaves its task completed or failed
    when it returns it. *)
Lemma sendTask_resume_returned (r0 r : nat) (σ : Sys) :
  (r0 < length (heap σ))%nat →
  (sendTask_resume r0 σ).1 = Some (Returned r) →
  r = r0 ∧
  ∃ task, heap (sendTask_resume r0 σ).2 !! r = Some task ∧
    (state task = COMPLETED ∨ state task = FAILED).
Proof.
  intros Hr. apply lookup_lt_is_Some in Hr as [task Htask].
  unfold sendTask_resume, catch_fail.
  destruct (awaiting σ !! r0) as [[v | reason |]|]; simpl; try done.
  - intros [= <-]. split; [done|].
    rewrite list_lookup_alter, decide_True, Htask by done.
    eexists. split; [done|]. by left.
  - destruct (get_message reason); simpl; [|done].
    intros [= <-]. split; [done|].
    rewrite list_lookup_alter, decide_True, Htask by done.
    eexists. split; [done|]. by right.
Qed.

Lemma sendTask_returned (skill : jsstring) (inp : jsval)
    (session : jsstring) (during : list Turn) (σ : Sys) (r : nat) :
  (sendTask skill inp session during σ).1 = Some (Returned r) →
  ∃ task, heap (sendTask skill inp session during σ).2 !! r = Some task ∧
    (state task = COMPLETED ∨ state task = FAILED).
Proof.
  unfold sendTask.
  destruct (sendTask_start_spec skill inp session σ)
    as (task & Hr & Hheap & _ & _ & _ & _ & Hst).
  destruct (sendTask_start skill inp session σ) as [[r0 reply] σ1].
  simpl in *. subst r0.
  destruct reply as [reply|]; simpl.
  - intros [= ->]. exists task.
    inversion Hst; subst; rewrite Hheap.
    + rewrite lookup_app_r, Nat.sub_diag by done. eauto.
    + rewrite lookup_app_r, Nat.sub_diag by done. eauto.
  - intros Hret. apply sendTask_resume_returned in Hret as [-> ?]; [done|].
    eapply Nat.lt_le_trans; [|apply length_heap_run].
    rewrite Hheap, length_app. simpl. lia.
Qed.

Lemma walk_snoc (edge : TaskState → TaskState → bool) (from s : TaskState)
    (states : list TaskState) :
  walk edge from (states ++ [s])
  = walk edge from states && edge (default from (last states)) s.
Proof.
  revert from. induction states as [|a states IH]; intros from; simpl.
  - by rewrite andb_true_r.
  - rewrite IH, andb_assoc.
    assert (default a (last states) = default from (last (a :: states)))
      as ->; [|done].
    destruct states as [|b states]; [done|].
    rewrite last_cons_cons.
    destruct (last (b :: states)) eqn:E; [done | by apply last_None in E].
Qed.

Lemma task_ok_complete (out : jsval) (now : Z) (task : A2ATask) :
  task_ok task → task_ok (complete out now task).
Proof.
  intros (Hwalk & Hlast & Hstate). unfold task_ok.
  rewrite states_of_complete, walk_snoc, Hwalk, Hlast, last_snoc. simpl.
  split_and!; [|done|tauto].
  by destruct Hstate as [-> | [-> | ->]].
Qed.

Lemma task_ok_fail (err : jsval) (now : Z) (task : A2ATask) :
  task_ok task → task_ok (fail err now task).
Proof.
  intros (Hwalk & Hlast & Hstate). unfold task_ok.
  rewrite states_of_fail, walk_snoc, Hwalk, Hlast, last_snoc. simpl.
  split_and!; [|done|tauto].
  by destruct Hstate as [-> | [-> | ->]].
Qed.

Lemma task_ok_started σ skill inp session σ' task reply :
  started σ skill inp session σ' task reply → task_ok task.
Proof.
  intros []; unfold task_ok;
    repeat match goal with H : states_of _ = _ |- _ => rewrite H end;
    repeat match goal with H : state _ = _ |- _ => rewrite H end;
    simpl; split_and!; try done; tauto.
Qed.

Lemma heap_ok_mutate (r : nat) (f : Z → A2ATask → A2ATask) (σ : Sys) :
  (∀ now task, task_ok task → task_ok (f now task)) →
  heap_ok σ → heap_ok (mutate r f σ).
Proof.
  intros Hf Hok r' task'. rewrite lookup_mutate.
  destruct (decide (r = r')) as [-> | Hne]; [|apply Hok].
  destruct (heap σ !! r') as [task|] eqn:Htask; [|done].
  intros [= <-]. eapply Hf, Hok. done.
Qed.

Lemma heap_ok_turn (σ : Sys) (x : Turn) : heap_ok σ → heap_ok (turn σ x).
Proof.
  intros Hok.
  destruct x as [agentId card handlers | skill inp session | r
                 | taskId out | taskId err]; simpl.
  - done.
  - destruct (sendTask_start_spec skill inp session σ)
      as (task & _ & Hheap & _ & _ & _ & _ & Hst).
    intros r' task'. rewrite Hheap.
    intros [Hin | [_ Hin]]%lookup_app_Some; [by eapply Hok|].
    apply list_lookup_singleton_Some in Hin as [_ <-].
    by eapply task_ok_started.
  - unfold sendTask_resume, catch_fail.
    destruct (awaiting σ !! r) as [[v | reason |]|]; simpl; try done.
    + apply (heap_ok_mutate r (complete v)); [|done].
      intros; by apply task_ok_complete.
    + destruct (get_message reason) as [m|]; simpl; [|done].
      apply (heap_ok_mutate r (fail m)); [|done].
      intros; by apply task_ok_fail.
  - unfold handleTaskComplete. destruct (taskId ≫= _) as [r|]; [|done].
    apply heap_ok_mutate; [|done]. intros; by apply task_ok_complete.
  - unfold handleTaskFail. destruct (taskId ≫= _) as [r|]; [|done].
    apply heap_ok_mutate; [|done]. intros; by apply task_ok_fail.
Qed.

Lemma heap_ok_run (turns : list Turn) (e : Env) : heap_ok (run turns (init e)).
Proof.
  induction turns as [|x turns IH] using rev_ind.
  - intros r task. done.
  - rewrite a2a_run_snoc. by apply heap_ok_turn.
Qed.

Lemma heap_own_turn (σ : Sys) (x : Turn) :
  is_event x = false → heap_own σ → heap_own (turn σ x).
Proof.
  intros Hx [Hown Hdom].
  destruct x as [agentId card handlers | skill inp session | r
                 | taskId out | taskId err]; simpl; try done.
  - destruct (sendTask_start_spec skill inp session σ)
      as (task & _ & Hheap & _ & _ & _ & _ & Hst).
    split.
    + intros r' task'. rewrite Hheap.
      intros [Hin | [Hlen Hin]]%lookup_app_Some.
      * pose proof (lookup_lt_Some _ _ _ Hin) as Hlt.
        destruct (Hown r' task' Hin) as [Hshape Haw].
        split; [done|].
        rewrite (started_awaiting _ _ _ _ _ _ _ r' Hst) by lia. done.
      * apply list_lookup_singleton_Some in Hin as [Hr <-].
        split; [inversion Hst; set_solver|].
        assert (r' = length (heap σ)) as -> by lia.
        inversion Hst as [? ? ? ? ? Haw|? ? ? ? ? ? ? ? ? ? Haw
                          |? ? ? ? ? ? ? ? ? Haw|]; subst; try done;
          rewrite Haw; intros Hsome%Hdom; lia.
    + intros r'. rewrite Hheap, length_app. simpl.
      destruct (decide (r' = length (heap σ))) as [-> | Hne]; [lia|].
      rewrite (started_awaiting _ _ _ _ _ _ _ r' Hst) by done.
      intros Hsome%Hdom. lia.
  - unfold sendTask_resume, catch_fail.
    destruct (awaiting σ !! r) as [[v | reason |]|] eqn:Haw; simpl; try done.
    + split.
      * intros r' task'. rewrite lookup_mutate. simpl.
        destruct (decide (r = r')) as [<- | Hne].
        -- destruct (heap σ !! r) as [task|] eqn:Htask; [|done].
           intros [= <-]. destruct (Hown r task Htask) as [_ Hw].
           split; [|simpl; rewrite lookup_delete_eq; by intros []].
           rewrite states_of_complete, Hw by eauto. set_solver.
        -- intros Hin. destruct (Hown r' task' Hin) as [Hshape Hw].
           split; [done|]. simpl. by rewrite lookup_delete_ne.
      * intros r' [s Hs]. rewrite length_heap_mutate. simpl. apply Hdom.
        simpl in Hs. apply lookup_delete_Some in Hs as [_ Hs]. eauto.
    + destruct (get_message reason) as [m|]; simpl.
      * split.
        -- intros r' task'. rewrite lookup_mutate. simpl.
           destruct (decide (r = r')) as [<- | Hne].
           ++ destruct (heap σ !! r) as [task|] eqn:Htask; [|done].
              intros [= <-]. destruct (Hown r task Htask) as [_ Hw].
              split; [|simpl; rewrite lookup_delete_eq; by intros []].
              rewrite states_of_fail, Hw by eauto. set_solver.
           ++ intros Hin. destruct (Hown r' task' Hin) as [Hshape Hw].
              split; [done|]. simpl. by rewrite lookup_delete_ne.
        -- intros r' [s Hs]. rewrite length_heap_mutate. simpl. apply Hdom.
           simpl in Hs. apply lookup_delete_Some in Hs as [_ Hs]. eauto.
      * split.
        -- intros r' task' Hin. destruct (Hown r' task' Hin) as [Hshape Hw].
           split; [done|]. intros [s Hs].
           simpl in Hs. apply lookup_delete_Some in Hs as [_ Hs]. eauto.
        -- intros r' [s Hs]. apply Hdom.
           simpl in Hs. apply lookup_delete_Some in Hs as [_ Hs]. eauto.
Qed.

Lemma heap_own_run (turns : list Turn) (e : Env) :
  (∀ x, x ∈ turns → is_event x = false) → heap_own (run turns (init e)).
Proof.
  induction turns as [|x turns IH] using rev_ind; intros Hev.
  - split; [done|]. intros r [s Hs]. done.
  - rewrite a2a_run_snoc. apply heap_own_turn; [|apply IH]; set_solver.
Qed.

(** C2, as the code has it.  A new task is in state [SUBMITTED] and its
    history is empty: the initial state is not recorded.  Every transition
    appends one entry, which carries the new state.  In every run of the
    protocol handler the history of every task is a walk, from
    [SUBMITTED], of the transitions the code performs, and ends in the
    current state.  In a run without ['a2a:task:complete'] and
    ['a2a:task:fail'] events it is a walk of
    [Submitted→Working→{Completed,Failed}] extended with
    [Submitted→Failed], with at most one terminal state. *)
Theorem history_is_walk_of_code_transitions :
  (∀ skill inp session e,
     state (A2ATask_new skill inp session e).1 = SUBMITTED ∧
     history (A2ATask_new skill inp session e).1 = []) ∧
  (∀ s m now task,
     state (updateState s m now task) = s ∧
     ∃ entry, h_state entry = s ∧
       history (updateState s m now task) = history task ++ [entry]) ∧
  (∀ turns e r task,
     heap (run turns (init e)) !! r = Some task →
     walk code_edge SUBMITTED (states_of task) = true ∧
     last (states_of task) = Some (state task)) ∧
  (∀ turns e r task,
     (∀ x, x ∈ turns → is_event x = false) →
     heap (run turns (init e)) !! r = Some task →
     walk send_edge SUBMITTED (states_of task) = true ∧
     (terminal_entries task ≤ 1)%nat).
Proof.
  split_and!.
  - done.
  - intros s m now task. split; [done|]. eexists. split; [|done]. done.
  - intros turns e r task Hin.
    destruct (heap_ok_run turns e r task Hin) as (? & ? & _). done.
  - intros turns e r task Hev Hin.
    destruct (heap_own_run turns e Hev) as [Hown _].
    destruct (Hown r task Hin) as [Hshape _].
    unfold terminal_entries.
    set_unfold in Hshape.
    destruct Hshape as [-> | [-> | [-> | [-> | []]]]]; split; done || (simpl; lia).
Qed.

(** C3, as the code has it: without a handler for the skill, [sendTask]
    takes the task from [SUBMITTED] to [FAILED] in one step and returns it;
    the stored error is ["No handler for skill: <id>"], with a capital N,
    and [WORKING] is not in the history. *)
Theorem no_handler_fails_directly (skill : jsstring) (inp : jsval)
    (session : jsstring) (during : list Turn) (σ : Sys) :
  (k ← skill; agentHandlers (a2a σ) !! k) = None →
  (sendTask skill inp session during σ).1 = Some (Returned (length (heap σ))) ∧
  ∃ task,
    heap (sendTask skill inp session during σ).2 !! length (heap σ) = Some task ∧
    state task = FAILED ∧
    error task = JStr ("No handler for skill: " +:+ interpolate skill) ∧
    h_message <$> history task = [error task] ∧
    states_of task = [FAILED] ∧
    WORKING ∉ states_of task.
Proof.
  intros Hnone. unfold sendTask.
  destruct (sendTask_start_spec skill inp session σ)
    as (task & Hr & Hheap & _ & _ & _ & _ & Hst).
  destruct (sendTask_start skill inp session σ) as [[r0 reply] σ1].
  simpl in *. subst r0.
  inversion Hst; subst; try (unfold Handler in *; congruence).
  simpl. split; [done|]. exists task.
  rewrite Hheap, lookup_app_r, Nat.sub_diag by done.
  split_and!; try done.
  match goal with H : states_of task = _ |- _ => rewrite H end.
  intros Hin%list_elem_of_singleton. discriminate.
Qed.







(** C4, on the code: for a task id that names no task, the REST route
    answers 404 with error code [-32001], and the RPC method [tasks/get]
    answers 500 with error code [-32603]; neither answers [-32002]. *)
Theorem task_not_found_codes (σ : Sys) (taskId : string) (req : RpcRequest)
    (p : Params) (during : list Turn) :
  getTask (Some taskId) σ = None →
  jsonrpc req = Some "2.0" → method req = Some "tasks/get" →
  params req = Some p → p_taskId p = Some taskId →
  get_task taskId σ
  = {| status := 404;
       body := createError JNull (-32001) (JStr "Task not found") JNull |} ∧
  (post_rpc req during σ).1
  = Some {| status := 500;
            body := createError (rpc_id req) (-32603) (JStr "Task not found") JNull |}.
Proof.
  intros Hnone Hver Hmethod Hparams Hid.
  unfold get_task, post_rpc. rewrite Hnone, Hver, Hmethod, Hparams, Hid, Hnone.
  done.
Qed.

End A2AFacts.

(** C2, as stated, fails twice.  The history of a new task is empty, not
    seeded with [SUBMITTED].  And an ['a2a:task:complete'] event for a task
    that [sendTask] has already completed records a second terminal
    state. *)
Lemma history_not_as_specified :
  let fresh := (A2A.A2ATask_new (Some "play_by_mood") happy (Some "s1") env0).1 in
  let σ := A2A.run [A2A.Send (Some "play_by_mood") happy (Some "s1");
                    A2A.Resume 0;
                    A2A.TaskComplete (Some "task_1700000000000_deadbeef") A2A.JNull]
                   registered in
  (A2A.history fresh = [] ∧ ¬ Stated.history_as_specified fresh) ∧
  ∃ task, A2A.heap σ !! 0%nat = Some task ∧
    A2A.states_of task = [A2A.WORKING; A2A.COMPLETED; A2A.COMPLETED] ∧
    A2A.terminal_entries task = 2%nat ∧
    ¬ Stated.history_as_specified task.
Proof.
  split.
  - split; [reflexivity|]. intros (rest & Hstates & _). discriminate.
  - eexists. split; [vm_compute; reflexivity|].
    split; [vm_compute; reflexivity|].
    split; [vm_compute; reflexivity|].
    intros (rest & Hstates & _). vm_compute in Hstates. discriminate.
Qed.

(** C3, as stated, fails on the text of the message: the stored error
    starts with a capital N. *)
Lemma no_handler_message_is_capitalised :
  let σ := (A2A.sendTask (Some "set_volume") A2A.JNull (Some "s1") [] registered).2 in
  A2A.error <$> A2A.heap σ !! 0%nat
    = Some (A2A.JStr "No handler for skill: set_volume") ∧
  A2A.error <$> A2A.heap σ !! 0%nat
    ≠ Some (A2A.JStr "no handler for skill: set_volume").
Proof.
  assert (A2A.error <$> A2A.heap
            (A2A.sendTask (Some "set_volume") A2A.JNull (Some "s1") [] registered).2
            !! 0%nat
          = Some (A2A.JStr "No handler for skill: set_volume")) as H
    by (vm_compute; reflexivity).
  simpl. rewrite H. split; [reflexivity | discriminate].
Qed.

(** No handler is registered for ["set_volume"]: the task fails at once. *)
Lemma no_handler_fails_directly_witness :
  (k ← Some "set_volume"; A2A.agentHandlers (A2A.a2a registered) !! k) = None ∧
  (A2A.sendTask (Some "set_volume") A2A.JNull (Some "s1") [] registered).1
    = Some (A2A.Returned 0).
Proof.
  assert ((k ← Some "set_volume"; A2A.agentHandlers (A2A.a2a registered) !! k)
          = None) as H by (vm_compute; reflexivity).
  split; [exact H|].
  exact (proj1 (no_handler_fails_directly (Some "set_volume") A2A.JNull
                  (Some "s1") [] registered H)).
Defined.

(** The task id asked for names no task of a process that has sent
    none. *)
Lemma task_not_found_codes_witness :
  let req := {| A2A.jsonrpc := Some "2.0"; A2A.rpc_id := A2A.JNum 7;
                A2A.method := Some "tasks/get";
                A2A.params := Some {| A2A.p_skillId := None;
                                      A2A.p_input := A2A.JUndefined;
                                      A2A.p_sessionId := None;
                                      A2A.p_taskId := Some "task_0_missing";
                                      A2A.p_agentId := None |} |} in
  A2A.status (A2A.get_task "task_0_missing" registered) = 404 ∧
  A2A.body (A2A.get_task "task_0_missing" registered)
    = A2A.createError A2A.JNull (-32001) (A2A.JStr "Task not found") A2A.JNull ∧
  (A2A.post_rpc req [] registered).1
    = Some {| A2A.status := 500;
              A2A.body := A2A.createError (A2A.JNum 7) (-32603)
                            (A2A.JStr "Task not found") A2A.JNull |}.
Proof.
  intros req.
  assert (A2A.getTask (Some "task_0_missing") registered = None) as H
    by (vm_compute; reflexivity).
  destruct (task_not_found_codes registered "task_0_missing" req
              {| A2A.p_skillId := None; A2A.p_input := A2A.JUndefined;
                 A2A.p_sessionId := None;
                 A2A.p_taskId := Some "task_0_missing";
                 A2A.p_agentId := None |} []
              H eq_refl eq_refl eq_refl eq_refl) as [Hrest Hrpc].
  rewrite Hrest. split; [reflexivity|]. split; [reflexivity|]. exact Hrpc.
Defined.



(** The scenario of the README: [play_by_mood] with [{mood: "happy"}]
    answers a completed task whose output repeats the mood. *)
Example play_by_mood_completes :
  ∃ j,
    (A2A.post_tasks_send
       {| A2A.b_id := A2A.JNum 1; A2A.b_skillId := Some "play_by_mood";
          A2A.b_input := happy; A2A.b_sessionId := Some "s1" |} [] registered).1
      = Some (A2A.json (A2A.createResponse (A2A.JNum 1) (A2A.ResultTask j))) ∧
    A2A.j_state j = A2A.COMPLETED ∧
    A2A.j_output j
      = A2A.JObj (A2A.FCons "success" (A2A.JBool true)
                 (A2A.FCons "mood" (A2A.JStr "happy") A2A.FNil)) ∧
    A2A.h_state <$> A2A.j_history j = [A2A.WORKING; A2A.COMPLETED].
Proof.
  eexists. split; [vm_compute; reflexivity|].
  repeat split; reflexivity.
Qed.

(* ===================================================================== *)
(** * Properties of the speech agent *)
(* ===================================================================== *)

Section SpeechAgentFacts.
Import SpeechAgent.

(** The data of a WAV file starts after the 44 bytes of header. *)
Lemma pcmToWav_data (pcm wav : list byte) :
  pcmToWav pcm = Some wav → drop 44 wav = pcm.
Proof.
  unfold pcmToWav. destruct (_ <? _); [done|]. by intros [= <-].
Qed.

Lemma pcmToWav_fits (pcm : list byte) :
  Z.of_nat (length pcm) ≤ 4294967259 → is_Some (pcmToWav pcm).
Proof.
  intros Hle. unfold pcmToWav.
  destruct (_ <? _) eqn:Hlt; [|eauto].
  apply Z.ltb_lt in Hlt. lia.
Qed.

Lemma processing_set (s s' : string) (b : bool) (a : t) :
  processing s (set_isProcessing s' b a)
  = if decide (s' = s) then b else processing s a.
Proof.
  unfold processing. simpl. rewrite lookup_insert.
  by destruct (decide (s' = s)).
Qed.

(** A flush that finds no flush of the session in progress and frames in
    its buffer. *)
Lemma processAudio_flush (s : string) (a : t)
    (chunks : list (list byte)) :
  processing s a = false →
  audioBuffers a !! s = Some chunks →
  chunks ≠ [] →
  Z.of_nat (length (concat chunks)) ≤ 4294967259 →
  audioBuffers (processAudio s a).1 !! s = Some [] ∧
  (MIN_AUDIO_BYTES ≤ Z.of_nat (length (concat chunks)) →
     utterances (processAudio s a).2 = [(s, concat chunks)] ∧
     processing s (processAudio s a).1 = true) ∧
  (Z.of_nat (length (concat chunks)) < MIN_AUDIO_BYTES →
     (processAudio s a).2 = [] ∧
     processing s (processAudio s a).1 = false).
Proof.
  intros Hproc Hbuf Hne Hfit. unfold processAudio.
  rewrite Hproc. simpl. rewrite Hbuf. simpl.
  rewrite bool_decide_false by (by destruct chunks).
  destruct (pcmToWav_fits _ Hfit) as [wav Hwav].
  destruct (_ <? MIN_AUDIO_BYTES) eqn:Hlen.
  - apply Z.ltb_lt in Hlen. simpl. rewrite lookup_insert_eq.
    split; [done|]. split; [lia|]. intros _. split; [done|].
    by rewrite processing_set, decide_True.
  - apply Z.ltb_ge in Hlen. rewrite Hwav. simpl. rewrite lookup_insert_eq.
    split; [done|]. split; [|lia]. intros _.
    rewrite (pcmToWav_data _ _ Hwav). split; [done|].
    unfold processing. simpl. by rewrite lookup_insert_eq.
Qed.


(** [handleAudio] puts a frame at the end of the session's buffer when it
    is speech or when the session is speaking, and nowhere otherwise; it
    leaves the frames already buffered, the buffers of other sessions and
    the [isProcessing] flags as they are. *)
Lemma handleAudio_buffers (s : string) (frame : list byte) (a : t) :
  audioBuffers (handleAudio s frame a).1 !! s
    = Some (default [] (audioBuffers a !! s) ++
            (if is_speech frame || in_speech s a then [frame] else [])) ∧
  in_speech s (handleAudio s frame a).1 = is_speech frame || in_speech s a ∧
  isProcessing (handleAudio s frame a).1 = isProcessing a ∧
  (∀ s', s' ≠ s →
     audioBuffers (handleAudio s frame a).1 !! s' = audioBuffers a !! s').
Proof.
  unfold handleAudio, is_speech, in_speech, speaking, clear_silence_timer.
  repeat case_match; simpl in *; simplify_map_eq;
    try (match goal with
         | H1 : negb ?x = _, H2 : ?x = _ |- _ => rewrite H2 in H1; discriminate
         end);
    try congruence;
    rewrite ?app_nil_r; (split_and!; [done..|]);
    intros s' Hs'; by rewrite ?lookup_insert_ne.
Qed.

(** The buffer of a session after a sequence of frames, when the first one
    is speech: all the frames, in the order of arrival. *)
Lemma frames_buffered (s : string) (frames : list (list byte)) (a : t) :
  ∀ first, is_speech first = true →
  let a' := foldl (λ a frame, (handleAudio s frame a).1) a (first :: frames) in
  audioBuffers a' !! s
    = Some (default [] (audioBuffers a !! s) ++ first :: frames) ∧
  in_speech s a' = true ∧
  isProcessing a' = isProcessing a.
Proof.
  intros first Hfirst.
  induction frames as [|frame frames IH] using rev_ind.
  - simpl. destruct (handleAudio_buffers s first a) as (-> & -> & -> & _).
    by rewrite Hfirst.
  - rewrite app_comm_cons, foldl_app. simpl in *.
    destruct IH as (IHbuf & IHsp & IHproc).
    destruct (handleAudio_buffers s frame
                (foldl (λ a frame, (handleAudio s frame a).1)
                       (handleAudio s first a).1 frames))
      as (-> & -> & -> & _).
    rewrite IHbuf, IHsp, IHproc, orb_true_r. simpl.
    by rewrite <- app_assoc.
Qed.

(** C6, as the code has it.  A flush that finds no flush of the session in
    progress and frames in its buffer swaps the buffer out and leaves an
    empty one.  If the flushed frames hold at least [MIN_AUDIO_BYTES] (3200)
    bytes, exactly one utterance is handed over for transcription: the
    frames concatenated in the order of the buffer; the call then waits
    for the transcription with [isProcessing] set.  If they hold fewer
    bytes, they are dropped and nothing is sent.  A flush that finds one in
    progress does nothing.  The buffer that the silence timer flushes after
    a first frame of speech holds that frame and all the frames that
    followed it, speech or silence, in the order of arrival. *)
Theorem flush_hands_over_buffer :
  (∀ (s : string) (a : t) (chunks : list (list byte)),
     processing s a = false →
     audioBuffers a !! s = Some chunks →
     chunks ≠ [] →
     Z.of_nat (length (concat chunks)) ≤ 4294967259 →
     audioBuffers (processAudio s a).1 !! s = Some [] ∧
     (MIN_AUDIO_BYTES ≤ Z.of_nat (length (concat chunks)) →
        utterances (processAudio s a).2 = [(s, concat chunks)] ∧
        processing s (processAudio s a).1 = true) ∧
     (Z.of_nat (length (concat chunks)) < MIN_AUDIO_BYTES →
        (processAudio s a).2 = [] ∧
        processing s (processAudio s a).1 = false)) ∧
  (∀ (s : string) (a : t),
     processing s a = true → processAudio s a = (a, [])) ∧
  (∀ (s : string) (first : list byte) (frames : list (list byte)) (a : t),
     let a' := foldl (λ a frame, (handleAudio s frame a).1) a (first :: frames) in
     is_speech first = true →
     processing s a = false →
     audioBuffers a !! s = None →
     MIN_AUDIO_BYTES ≤ Z.of_nat (length (concat (first :: frames))) ≤ 4294967259 →
     utterances (timeout SilenceTimer s a').2 = [(s, concat (first :: frames))] ∧
     audioBuffers (timeout SilenceTimer s a').1 !! s = Some []).
Proof.
  split_and!.
  - apply processAudio_flush.
  - intros s a Hproc. unfold processAudio. by rewrite Hproc.
  - intros s first frames a a' Hfirst Hproc Hnew [Hmin Hmax].
    destruct (frames_buffered s frames a first Hfirst) as (Hbuf & _ & Hflag).
    fold a' in Hbuf, Hflag. rewrite Hnew in Hbuf. simpl in Hbuf.
    unfold timeout.
    destruct (processAudio_flush s
                (set_silenceTimers (delete s) (set_isSpeaking s false a'))
                (first :: frames)) as (Hclear & Hemit & _); try done.
    + unfold processing in *. simpl. by rewrite Hflag.
    + destruct (Hemit Hmin) as [Hutter _]. done.
Qed.

End SpeechAgentFacts.

(** C6, as stated, fails at the bound: a buffer of exactly
    [MIN_AUDIO_BYTES] bytes is not discarded but handed over. *)
Lemma flush_at_floor_is_handed_over :
  let frame := repeat x00 1600 in
  let a := SpeechAgent.set_audioBuffers (insert "s1" [frame; frame])
             SpeechAgent.new in
  Z.of_nat (length (concat [frame; frame])) = SpeechAgent.MIN_AUDIO_BYTES ∧
  SpeechAgent.utterances (SpeechAgent.processAudio "s1" a).2
    = [("s1", concat [frame; frame])].
Proof. split; vm_compute; reflexivity. Qed.

(** Two frames of 1700 bytes are above the bound: they leave as one
    utterance. *)
Lemma flush_hands_over_buffer_witness :
  let frame := repeat x01 1700 in
  let a := SpeechAgent.set_audioBuffers (insert "s1" [frame; frame])
             SpeechAgent.new in
  SpeechAgent.audioBuffers (SpeechAgent.processAudio "s1" a).1 !! "s1" = Some [] ∧
  SpeechAgent.utterances (SpeechAgent.processAudio "s1" a).2
    = [("s1", concat [frame; frame])].
Proof.
  intros frame a.
  destruct flush_hands_over_buffer as (H & _ & _).
  destruct (H "s1" a [frame; frame]) as (Hclear & Hemit & _).
  - reflexivity.
  - reflexivity.
  - discriminate.
  - vm_compute. discriminate.
  - split; [exact Hclear|]. apply Hemit. vm_compute. discriminate.
Defined.

(** One utterance from end to end: a silent frame is dropped, speech starts
    the buffer, the silence that follows is kept in it, the silence timer
    hands the whole buffer over, and the transcript is published. *)
Example one_utterance :
  let '(a, out) :=
    SpeechAgent.run
      [SpeechAgent.Audio "s1" silent_frame;
       SpeechAgent.Audio "s1" loud_frame;
       SpeechAgent.Audio "s1" silent_frame;
       SpeechAgent.Fire 1;
       SpeechAgent.Transcribed "s1" (SpeechAgent.Text "play some jazz")]
      SpeechAgent.new in
  SpeechAgent.utterances out = [("s1", loud_frame ++ silent_frame)] ∧
  SpeechAgent.SpeechTranscribed "s1" "play some jazz" ∈ out ∧
  SpeechAgent.speaking "s1" a = false ∧
  SpeechAgent.processing "s1" a = false ∧
  SpeechAgent.audioBuffers a !! "s1" = Some [].
Proof.
  vm_compute. repeat split; try reflexivity.
  repeat first [ apply list_elem_of_here | apply list_elem_of_further ].
Qed.

(* ===================================================================== *)
(** * Instances of the properties of the response manager *)
(* ===================================================================== *)

(** A session unlocked at time 1000 is debounced at time 2500 with the
    default gap, and no longer at time 3000. *)
Lemma shouldDebounce_iff_witness :
  let calls := [ResponseManager.Lock "s1"; ResponseManager.Unlock "s1" 1000] in
  ResponseManager.clock_nonzero calls ∧
  ResponseManager.shouldDebounce 2500 (ResponseManager.run calls) "s1" None = true.
Proof.
  intros calls.
  assert (ResponseManager.clock_nonzero calls) as Hclock.
  { intros s now Hin. unfold calls in Hin.
    apply elem_of_cons in Hin as [Hin | Hin]; [discriminate|].
    apply list_elem_of_singleton in Hin. injection Hin as _ ->. discriminate. }
  split; [exact Hclock|].
  apply (proj1 (shouldDebounce_iff calls "s1" 2500 None Hclock)).
  exists 1000. split; [reflexivity | simpl; lia].
Defined.

(** A session that was never locked is unlocked at time 1000: it can
    respond, and it is debounced at time 2999 for a gap of 2000. *)
Lemma unlock_unconditional_witness :
  1000 ≠ 0 ∧
  ResponseManager.canRespond
    (ResponseManager.unlock 1000 ResponseManager.new "s1") "s1" = true ∧
  ResponseManager.shouldDebounce 2999
    (ResponseManager.unlock 1000 ResponseManager.new "s1") "s1" (Some 2000) = true.
Proof.
  assert (1000 ≠ 0) as H by lia.
  split; [exact H|].
  destruct (unlock_unconditional ResponseManager.new "s1" 1000 2999 2000 H)
    as (Hcan & _ & _ & Hdeb & _).
  split; [exact Hcan|]. apply Hdeb. lia.
Defined.

(* ===================================================================== *)
(** * Properties of the audio level *)
(* ===================================================================== *)

Section Binary64Facts.
Import SpeechAgent Binary64.

Lemma digits2_pos_size (p : positive) : digits2_pos p = Pos.size p.
Proof. induction p as [p IH | p IH |]; simpl; by rewrite ?IH. Qed.

Lemma Zpos_iter_xO (m k : positive) :
  Z.pos (Pos.iter xO m k) = Z.pos m * 2 ^ Z.pos k.
Proof.
  induction k as [|k IH] using Pos.peano_ind.
  - simpl. lia.
  - rewrite Pos.iter_succ, Pos2Z.inj_xO, IH, Pos2Z.inj_succ, Z.pow_succ_r by lia.
    lia.
Qed.

(** The number of bits of a positive number. *)
Lemma digits_unique (q : positive) (d : Z) :
  0 < d → 2 ^ (d - 1) ≤ Z.pos q < 2 ^ d → Z.pos (digits2_pos q) = d.
Proof.
  intros Hd [Hlo Hhi]. rewrite digits2_pos_size.
  pose proof (Pos.size_gt q) as Hgt. pose proof (Pos.size_le q) as Hle.
  apply Pos2Z.pos_lt_pos in Hgt. apply Pos2Z.pos_le_pos in Hle.
  rewrite Pos2Z.inj_pow in Hgt, Hle. rewrite Pos2Z.inj_xO in Hle.
  set (d' := Z.pos (Pos.size q)) in *.
  change ((2 * 1) ^ d') with (2 ^ d') in Hle.
  assert (0 < d') as Hd' by (unfold d'; lia).
  destruct (Z.lt_trichotomy d' d) as [Hlt | [Heq | Hgt']]; [|done|].
  - exfalso. assert (2 ^ d' ≤ 2 ^ (d - 1)) by (apply Z.pow_le_mono_r; lia). lia.
  - exfalso. assert (2 ^ (d + 1) ≤ 2 ^ d') as Hpow by (apply Z.pow_le_mono_r; lia).
    rewrite Z.pow_add_r in Hpow by lia. change (2 ^ 1) with 2 in Hpow. lia.
Qed.

(** The number of bits of [m * 2^k]. *)
Lemma digits_shifted (q m : positive) (k : Z) :
  full_mantissa m → 0 ≤ k → Z.pos q = Z.pos m * 2 ^ k →
  Z.pos (digits2_pos q) = 53 + k.
Proof.
  intros [Hlo Hhi] Hk Hq. apply digits_unique; [lia|].
  assert (0 < 2 ^ k) as Hpk by (apply Z.pow_pos_nonneg; lia).
  replace (53 + k - 1) with (52 + k) by lia.
  rewrite !Z.pow_add_r, Hq by lia. split.
  - apply Z.mul_le_mono_nonneg_r; lia.
  - apply Z.mul_lt_mono_pos_r; lia.
Qed.

(** The number of bits of [p] when [p * 2^j] has 53. *)
Lemma digits_unshifted (p m : positive) (j : Z) :
  full_mantissa m → 0 ≤ j → Z.pos m = Z.pos p * 2 ^ j →
  Z.pos (digits2_pos p) = 53 - j ∧ j ≤ 52.
Proof.
  intros [Hlo Hhi] Hj Hm.
  assert (0 < 2 ^ j) as Hpj by (apply Z.pow_pos_nonneg; lia).
  assert (j ≤ 52) as Hj52.
  { destruct (Z.le_gt_cases j 52) as [|Hgt]; [done|]. exfalso.
    assert (2 ^ 53 ≤ 2 ^ j) by (apply Z.pow_le_mono_r; lia). nia. }
  split; [|done]. apply digits_unique; [lia|].
  assert (2 ^ 52 = 2 ^ (53 - j - 1) * 2 ^ j) as H52.
  { rewrite <- Z.pow_add_r by lia. f_equal. lia. }
  assert (2 ^ 53 = 2 ^ (53 - j) * 2 ^ j) as H53.
  { rewrite <- Z.pow_add_r by lia. f_equal. lia. }
  rewrite H52, H53, Hm in *. split.
  - apply Z.mul_le_mono_pos_r with (p := 2 ^ j); lia.
  - apply Z.mul_lt_mono_pos_r with (p := 2 ^ j); lia.
Qed.

Lemma iter_pos_iter {A} (f : A → A) (p : positive) (x : A) :
  SpecFloat.iter_pos f p x = Pos.iter f x p.
Proof.
  revert x. induction p as [p IH | p IH |]; intros x; simpl.
  - by rewrite !IH, <- !Pos.iter_swap.
  - by rewrite !IH.
  - done.
Qed.

(** Shifting out zero bits loses nothing. *)
Lemma shr_zero_bits (m k : positive) :
  SpecFloat.iter_pos shr_1 k
    {| shr_m := Z.pos (Pos.iter xO m k); shr_r := false; shr_s := false |}
  = {| shr_m := Z.pos m; shr_r := false; shr_s := false |}.
Proof.
  rewrite iter_pos_iter.
  induction k as [|k IH] using Pos.peano_ind; [done|].
  rewrite Pos.iter_succ with (f := xO), Pos.iter_succ with (f := shr_1).
  rewrite <- Pos.iter_swap. simpl. exact IH.
Qed.

Lemma fexp_small (x : Z) :
  -1074 ≤ x - 53 → fexp prec emax x = x - 53.
Proof. unfold fexp, emin, prec, emax. lia. Qed.

(** Rounding a value that fits in 53 bits gives that value. *)
Lemma round_exact (sx : bool) (q m : positive) (e k : Z) :
  full_mantissa m → 0 ≤ k → Z.pos q = Z.pos m * 2 ^ k →
  -1074 ≤ e + k ≤ 971 →
  binary_round_aux prec emax sx (Z.pos q) e loc_Exact
  = S754_finite sx m (e + k).
Proof.
  intros Hm Hk Hq He.
  assert (Z.pos (digits2_pos m) = 53) as Hdm.
  { rewrite (digits_shifted m m 0); [lia | done | lia | lia]. }
  unfold binary_round_aux, shr_fexp.
  change (Zdigits2 (Z.pos q)) with (Z.pos (digits2_pos q)).
  rewrite (digits_shifted q m k), fexp_small by (done || lia).
  replace (53 + k + e - 53 - e) with k by lia.
  assert (shr (shr_record_of_loc (Z.pos q) loc_Exact) e k
          = ({| shr_m := Z.pos m; shr_r := false; shr_s := false |}, e + k))
    as ->.
  { destruct k as [|kp|kp]; [| |lia].
    - simpl. rewrite Z.add_0_r. do 2 f_equal. lia.
    - simpl shr_record_of_loc. unfold shr.
      assert (q = Pos.iter xO m kp) as ->
        by (apply Pos2Z.inj; by rewrite Zpos_iter_xO).
      by rewrite shr_zero_bits. }
  simpl loc_of_shr_record. simpl round_nearest_even. simpl shr_m at 1.
  change (Zdigits2 (Z.pos m)) with (Z.pos (digits2_pos m)).
  rewrite Hdm, fexp_small by lia.
  replace (53 + (e + k) - 53 - (e + k)) with 0 by lia.
  simpl. destruct (e + k <=? emax - prec) eqn:Hle; [done|].
  apply Z.leb_gt in Hle. unfold emax, prec in Hle. lia.
Qed.

Lemma represents_pos (z : Z) (f : spec_float) : represents z f → 0 < z < 2 ^ 53.
Proof.
  intros (m & e & _ & [Hlo Hhi] & He & Hm).
  assert (0 < 2 ^ (- e)) by (apply Z.pow_pos_nonneg; lia).
  assert (1 ≤ 2 ^ (- e)) by lia.
  split; [nia|]. nia.
Qed.

Lemma represents_unique (z : Z) (f f' : spec_float) :
  represents z f → represents z f' → f = f'.
Proof.
  intros Hf Hf'. pose proof (represents_pos z f Hf) as [Hz _].
  destruct Hf as (m & e & -> & [Hlo Hhi] & He & Hm).
  destruct Hf' as (m' & e' & -> & [Hlo' Hhi'] & He' & Hm').
  assert (∀ (m1 m2 : positive) e1 e2,
            e1 ≤ 0 → e2 ≤ 0 →
            Z.pos m1 = z * 2 ^ (- e1) → Z.pos m2 = z * 2 ^ (- e2) →
            2 ^ 52 ≤ Z.pos m2 → Z.pos m1 < 2 ^ 53 → e1 < e2 → False) as Hlt.
  { intros m1 m2 e1 e2 H1 H2 Hm1 Hm2 Hlo2 Hhi1 Hlt.
    replace (- e1) with (- e2 + (e2 - e1)) in Hm1 by lia.
    rewrite Z.pow_add_r in Hm1 by lia.
    assert (2 ^ 1 ≤ 2 ^ (e2 - e1)) by (apply Z.pow_le_mono_r; lia).
    assert (0 < 2 ^ (- e2)) by (apply Z.pow_pos_nonneg; lia).
    change (2 ^ 1) with 2 in *. nia. }
  destruct (Z.lt_trichotomy e e') as [Hc | [-> | Hc]].
  - exfalso. eapply (Hlt m m' e e'); eauto.
  - f_equal. apply Pos2Z.inj. congruence.
  - exfalso. eapply (Hlt m' m e' e); eauto.
Qed.

(** Every integer in [(0, 2^53)] has a 53-bit mantissa. *)
Lemma normalize (z : Z) :
  0 < z < 2 ^ 53 →
  ∃ (m : positive) (j : Z), 0 ≤ j ≤ 52 ∧ full_mantissa m ∧ Z.pos m = z * 2 ^ j.
Proof.
  intros [Hpos Hlt].
  pose proof (Z.log2_spec z Hpos) as [Hlo Hhi].
  pose proof (Z.log2_nonneg z) as Hnn.
  assert (Z.log2 z < 53) as Hl by (apply Z.log2_lt_pow2; lia).
  set (j := 52 - Z.log2 z).
  assert (0 < 2 ^ j) as Hpj by (apply Z.pow_pos_nonneg; lia).
  assert (2 ^ 52 = 2 ^ Z.log2 z * 2 ^ j) as H52.
  { rewrite <- Z.pow_add_r by lia. f_equal. lia. }
  assert (2 ^ 53 = 2 ^ Z.succ (Z.log2 z) * 2 ^ j) as H53.
  { rewrite <- Z.pow_add_r by lia. f_equal. lia. }
  exists (Z.to_pos (z * 2 ^ j)), j. unfold full_mantissa.
  rewrite !Z2Pos.id by nia.
  split; [lia|]. split; [|done].
  rewrite H52, H53. split.
  - apply Z.mul_le_mono_nonneg_r; lia.
  - apply Z.mul_lt_mono_pos_r; lia.
Qed.

Lemma represents_normalize (z : Z) (m : positive) (j : Z) :
  0 ≤ j → full_mantissa m → Z.pos m = z * 2 ^ j →
  represents z (S754_finite false m (- j)).
Proof.
  intros Hj Hm Hz. exists m, (- j). split_and!; [done|done|lia|].
  by rewrite Z.opp_involutive.
Qed.

(** [binary_round] on a mantissa with at least 53 bits whose low bits are
    zero. *)
Lemma binary_round_shr (sx : bool) (q m : positive) (e k : Z) :
  full_mantissa m → 0 ≤ k → Z.pos q = Z.pos m * 2 ^ k →
  -1074 ≤ e + k ≤ 971 →
  binary_round prec emax sx q e = S754_finite sx m (e + k).
Proof.
  intros Hm Hk Hq He. unfold binary_round.
  rewrite (digits_shifted q m k), fexp_small by (done || lia).
  unfold shl_align. replace (53 + k + e - 53 - e) with k by lia.
  destruct k as [|kp|kp]; [| |lia]; by apply round_exact.
Qed.

(** [binary_round] on a mantissa with at most 53 bits. *)
Lemma binary_round_shl (sx : bool) (p m : positive) (e j : Z) :
  full_mantissa m → 0 ≤ j → Z.pos m = Z.pos p * 2 ^ j →
  -1074 ≤ e - j ≤ 971 →
  binary_round prec emax sx p e = S754_finite sx m (e - j).
Proof.
  intros Hm Hj Hp He. unfold binary_round.
  destruct (digits_unshifted p m j Hm Hj Hp) as [-> Hj52].
  rewrite fexp_small by lia.
  unfold shl_align. replace (53 - j + e - 53 - e) with (- j) by lia.
  destruct j as [|jp|jp]; [| |lia].
  - change (- 0) with 0. cbv beta iota.
    assert (p = m) as -> by (apply Pos2Z.inj; lia).
    rewrite (round_exact sx m m e 0) by (done || lia). f_equal; lia.
  - change (- Z.pos jp) with (Z.neg jp). cbv beta iota.
    assert (Pos.iter xO p jp = m) as ->
      by (apply Pos2Z.inj; by rewrite Zpos_iter_xO).
    rewrite (round_exact sx m m _ 0) by (done || lia). f_equal; lia.
Qed.

(** A positive integer below [2^53] is a JS number without rounding. *)
Lemma number_represents (z : Z) :
  0 < z < 2 ^ 53 → represents z (Prim2SF (number z)).
Proof.
  intros Hz. unfold number.
  destruct (z <? 0) eqn:Hneg; [apply Z.ltb_lt in Hneg; lia|].
  rewrite of_uint63_spec, Uint63.of_Z_spec, Z.mod_small.
  2:{ split; [lia|]. eapply Z.lt_trans; [apply Hz|]. reflexivity. }
  destruct z as [|p|p]; [lia| |lia]. unfold binary_normalize.
  destruct (normalize (Z.pos p) Hz) as (m & j & Hj & Hm & Hmz).
  rewrite (binary_round_shl false p m 0 j) by (done || lia).
  apply represents_normalize; [lia | done | done].
Qed.

Lemma number_zero : Prim2SF (number 0) = S754_zero false.
Proof. reflexivity. Qed.

Lemma number_represents0 (z : Z) :
  0 ≤ z < 2 ^ 53 → represents0 z (Prim2SF (number z)).
Proof.
  intros Hz. destruct (decide (z = 0)) as [-> | Hne].
  - left. by rewrite number_zero.
  - right. split; [lia|]. apply number_represents. lia.
Qed.

Lemma shl_align_fst (m : positive) (e e' : Z) :
  e' ≤ e → Z.pos (shl_align m e e').1 = Z.pos m * 2 ^ (e - e').
Proof.
  intros Hle. unfold shl_align.
  destruct (e' - e) as [|d|d] eqn:Hd; simpl.
  - replace (e - e') with 0 by lia. lia.
  - lia.
  - rewrite Zpos_iter_xO. f_equal. f_equal. lia.
Qed.

(** Adding two positive integers whose sum is below [2^53] is exact. *)
Lemma add_represents (a b : Z) (fa fb : spec_float) :
  represents a fa → represents b fb → a + b < 2 ^ 53 →
  represents (a + b) (SF64add fa fb).
Proof.
  intros Ha Hb Hsum.
  pose proof (represents_pos a fa Ha) as [Hapos _].
  pose proof (represents_pos b fb Hb) as [Hbpos _].
  destruct Ha as (ma & ea & -> & [Halo Hahi] & Hea & Hma).
  destruct Hb as (mb & eb & -> & [Hblo Hbhi] & Heb & Hmb).
  destruct (normalize (a + b)) as (m & j & Hj & Hm & Hmz); [lia|].
  unfold SF64add, SFadd. cbv beta iota zeta. unfold cond_Zopp.
  set (ez := Z.min ea eb).
  pose proof (shl_align_fst ma ea ez ltac:(lia)) as HA.
  pose proof (shl_align_fst mb eb ez ltac:(lia)) as HB.
  change (Z.pos (shl_align ma ea ez).1 + Z.pos (shl_align mb eb ez).1)
    with (Z.pos ((shl_align ma ea ez).1 + (shl_align mb eb ez).1)).
  set (q := ((shl_align ma ea ez).1 + (shl_align mb eb ez).1)%positive).
  assert (Z.pos q = (a + b) * 2 ^ (- ez)) as Hq.
  { unfold q. rewrite Pos2Z.inj_add, HA, HB, Hma, Hmb.
    rewrite <- !Z.mul_assoc, <- !Z.pow_add_r by lia.
    replace (- ea + (ea - ez)) with (- ez) by lia.
    replace (- eb + (eb - ez)) with (- ez) by lia. lia. }
  assert (0 < 2 ^ j) as Hpj by (apply Z.pow_pos_nonneg; lia).
  assert (j ≤ - ez) as Hk.
  { destruct (Z.le_gt_cases j (- ez)) as [|Hgt]; [done|]. exfalso.
    destruct Hm as [_ Hmhi].
    assert (∀ x (mx : positive) ex, ex = ez → 0 < x → x ≤ a + b →
              2 ^ 52 ≤ Z.pos mx → Z.pos mx = x * 2 ^ (- ex) → False) as Hcontra.
    { intros x mx ex -> Hx Hxle Hlo Hmx.
      assert (2 * 2 ^ (- ez) ≤ 2 ^ j).
      { change 2 with (2 ^ 1) at 1. rewrite <- Z.pow_add_r by lia.
        apply Z.pow_le_mono_r; lia. }
      assert (0 < 2 ^ (- ez)) by (apply Z.pow_pos_nonneg; lia).
      assert (x * (2 * 2 ^ (- ez)) ≤ (a + b) * 2 ^ j).
      { etrans; [apply Z.mul_le_mono_nonneg_l; [lia | eassumption]|].
        apply Z.mul_le_mono_nonneg_r; lia. }
      lia. }
    destruct (Z.min_spec ea eb) as [[_ Hmin] | [_ Hmin]].
    - eapply (Hcontra a ma ea); eauto; lia.
    - eapply (Hcontra b mb eb); eauto; lia. }
  unfold binary_normalize.
  rewrite (binary_round_shr false q m ez (- ez - j)); [| done | lia | | lia].
  - replace (ez + (- ez - j)) with (- j) by lia.
    by apply represents_normalize; [lia | |].
  - rewrite Hq, Hmz, <- Z.mul_assoc, <- Z.pow_add_r by lia.
    f_equal. f_equal. lia.
Qed.

Lemma add_represents0 (a b : Z) (fa fb : spec_float) :
  represents0 a fa → represents0 b fb → a + b < 2 ^ 53 →
  represents0 (a + b) (SF64add fa fb).
Proof.
  intros [[-> ->] | [Hapos Ha]] [[-> ->] | [Hbpos Hb]] Hsum.
  - by left.
  - right. split; [lia|]. simpl.
    destruct Hb as (mb & eb & -> & ?). simpl. by exists mb, eb.
  - right. rewrite Z.add_0_r. split; [lia|].
    destruct Ha as (ma & ea & -> & ?). simpl. by exists ma, ea.
  - right. split; [lia|]. by apply add_represents.
Qed.

(** Multiplying two integers whose product is below [2^53] is exact. *)
Lemma mul_finite (sa sb : bool) (a b : Z) (ma mb : positive) (ea eb : Z) :
  represents a (S754_finite false ma ea) →
  represents b (S754_finite false mb eb) →
  a * b < 2 ^ 53 →
  ∃ m e, SF64mul (S754_finite sa ma ea) (S754_finite sb mb eb)
         = S754_finite (xorb sa sb) m e ∧
         represents (a * b) (S754_finite false m e).
Proof.
  intros Ha Hb Hprod.
  pose proof (represents_pos _ _ Ha) as [Hapos _].
  pose proof (represents_pos _ _ Hb) as [Hbpos _].
  destruct Ha as (ma' & ea' & [= <- <-] & [Halo Hahi] & Hea & Hma).
  destruct Hb as (mb' & eb' & [= <- <-] & [Hblo Hbhi] & Heb & Hmb).
  destruct (normalize (a * b)) as (m & j & Hj & Hm & Hmz); [nia|].
  unfold SF64mul, SFmul.
  assert (0 < 2 ^ j) as Hpj by (apply Z.pow_pos_nonneg; lia).
  assert (Z.pos (ma * mb) = a * b * 2 ^ (- ea - eb)) as Hq.
  { rewrite Pos2Z.inj_mul, Hma, Hmb.
    replace (- ea - eb) with (- ea + - eb) by lia.
    rewrite Z.pow_add_r by lia. ring. }
  assert (j ≤ - ea - eb) as Hk.
  { destruct (Z.le_gt_cases j (- ea - eb)) as [|Hgt]; [done|]. exfalso.
    destruct Hm as [_ Hmhi].
    assert (2 ^ 52 * 2 ^ 52 ≤ Z.pos (ma * mb)).
    { rewrite Pos2Z.inj_mul. apply Z.mul_le_mono_nonneg; lia. }
    assert (2 ^ (- ea - eb) ≤ 2 ^ j) by (apply Z.pow_le_mono_r; lia).
    assert (a * b * 2 ^ (- ea - eb) ≤ a * b * 2 ^ j)
      by (apply Z.mul_le_mono_nonneg_l; nia).
    change (2 ^ 52 * 2 ^ 52) with (2 ^ 51 * 2 ^ 53) in *. lia. }
  exists m, (- j). split; [|by apply represents_normalize; [lia | |]].
  rewrite (round_exact (xorb sa sb) (ma * mb) m (ea + eb) (- ea - eb - j));
    [f_equal; lia | done | lia | | lia].
  rewrite Hq, Hmz.
  replace (- ea - eb) with (j + (- ea - eb - j)) at 1 by lia.
  rewrite Z.pow_add_r by lia. ring.
Qed.

Lemma number_negative (z : Z) :
  z < 0 → Prim2SF (number z) = SFopp (Prim2SF (number (- z))).
Proof.
  intros Hz. unfold number.
  destruct (z <? 0) eqn:Hneg; [|apply Z.ltb_ge in Hneg; lia].
  destruct (- z <? 0) eqn:Hneg'; [apply Z.ltb_lt in Hneg'; lia|].
  apply opp_spec.
Qed.

(** The square of a sample is computed without rounding. *)
Lemma square_represents0 (s : Z) :
  - 2 ^ 26 ≤ s ≤ 2 ^ 26 →
  represents0 (s * s) (Prim2SF (PrimFloat.mul (number s) (number s))).
Proof.
  intros Hs. rewrite mul_spec.
  destruct (Z.lt_trichotomy s 0) as [Hneg | [-> | Hpos]].
  - right. split; [nia|]. rewrite number_negative by done.
    destruct (number_represents (- s)) as (m & e & Heq & Hrep); [lia|].
    rewrite Heq. simpl SFopp.
    destruct (mul_finite true true (- s) (- s) m m e e) as (m' & e' & -> & Hr);
      try by (exists m, e).
    { replace (- s * - s) with (s * s) by lia.
      change (2 ^ 53) with (2 ^ 26 * 2 ^ 27). nia. }
    by replace (- s * - s) with (s * s) in Hr by lia.
  - by left.
  - right. split; [nia|].
    destruct (number_represents s) as (m & e & Heq & Hrep); [lia|].
    rewrite Heq.
    destruct (mul_finite false false s s m m e e) as (m' & e' & -> & Hr);
      try by (exists m, e).
    { change (2 ^ 53) with (2 ^ 26 * 2 ^ 27). nia. }
    done.
Qed.

Lemma foldl_squares_represents0 (samples : list Z) (acc : Z) (facc : float) :
  Forall int16 samples →
  0 ≤ acc →
  acc + Z.of_nat (length samples) * 2 ^ 30 < 2 ^ 53 →
  represents0 acc (Prim2SF facc) →
  represents0 (foldl (λ sum s, sum + s * s) acc samples)
    (Prim2SF (foldl (λ sum s,
                       PrimFloat.add sum (PrimFloat.mul (number s) (number s)))
                    facc samples)).
Proof.
  revert acc facc.
  induction samples as [|s samples IH]; intros acc facc Hall Hacc Hlen Hrep.
  - done.
  - apply Forall_cons in Hall as [Hs Hall]. unfold int16 in Hs.
    rewrite length_cons, Nat2Z.inj_succ in Hlen.
    assert (s * s ≤ 2 ^ 30) by (change (2 ^ 30) with (32768 * 32768); nia).
    simpl. apply IH; [done | nia | lia |].
    rewrite add_spec. apply add_represents0; [done | | lia].
    apply square_represents0. change (2 ^ 26) with 67108864. lia.
Qed.

(** For fewer than [2^23] samples the loop of [calculateAudioLevel]
    computes the sum of the squares exactly. *)
Lemma sum_squares_exact (samples : list Z) :
  Forall int16 samples →
  Z.of_nat (length samples) < 2 ^ 23 →
  represents0 (exact_sum_squares samples) (Prim2SF (sum_squares samples)).
Proof.
  intros Hall Hlen. apply foldl_squares_represents0; [done | lia | | by left].
  change (2 ^ 53) with (2 ^ 23 * 2 ^ 30). lia.
Qed.

(** ** Rounding between two powers of two *)

Lemma digits_spec (q : positive) :
  2 ^ (Z.pos (digits2_pos q) - 1) ≤ Z.pos q < 2 ^ Z.pos (digits2_pos q).
Proof.
  rewrite digits2_pos_size.
  pose proof (Pos.size_gt q) as Hgt. pose proof (Pos.size_le q) as Hle.
  apply Pos2Z.pos_lt_pos in Hgt. apply Pos2Z.pos_le_pos in Hle.
  rewrite Pos2Z.inj_pow in Hgt, Hle. rewrite Pos2Z.inj_xO in Hle.
  set (d := Z.pos (Pos.size q)) in *.
  change ((2 * 1) ^ d) with (2 ^ d) in Hle.
  assert (0 < d) by (unfold d; lia).
  split; [|done].
  replace d with (d - 1 + 1) in Hle by lia.
  rewrite Z.pow_add_r in Hle by lia. change (2 ^ 1) with 2 in Hle. lia.
Qed.

Lemma shr_1_m (mrs : shr_record) :
  0 ≤ shr_m mrs → shr_m (shr_1 mrs) = shr_m mrs / 2.
Proof.
  destruct mrs as [m r s]. cbn [shr_m]. intros Hm.
  destruct m as [|[p|p|]|p]; cbn -[Z.div]; try lia.
  - done.
  - apply Z.div_unique with (r := 1); lia.
  - apply Z.div_unique with (r := 0); lia.
  - done.
Qed.

(** Shifting a mantissa right by [k] bits divides it by [2^k]. *)
Lemma shr_m_iter (mrs : shr_record) (k : positive) :
  0 ≤ shr_m mrs →
  shr_m (SpecFloat.iter_pos shr_1 k mrs) = shr_m mrs / 2 ^ Z.pos k.
Proof.
  intros Hm. rewrite iter_pos_iter.
  induction k as [|k IH] using Pos.peano_ind.
  - simpl Pos.iter. by rewrite shr_1_m.
  - rewrite Pos.iter_succ, shr_1_m, IH.
    + rewrite Pos2Z.inj_succ, Z.pow_succ_r, Z.div_div by lia.
      f_equal. lia.
    + rewrite IH. apply Z.div_pos; [done|]. apply Z.pow_pos_nonneg; lia.
Qed.

Lemma round_nearest_even_bounds (m : Z) (l : location) :
  m ≤ round_nearest_even m l ≤ m + 1.
Proof.
  destruct l as [|[]]; simpl; try lia. destruct (Z.even m); lia.
Qed.

Lemma shr_record_of_loc_m (m : Z) (l : location) :
  shr_m (shr_record_of_loc m l) = m.
Proof. by destruct l as [|[]]. Qed.

Lemma pow2_lt_inv (a b : Z) : 0 ≤ b → 2 ^ a < 2 ^ b → a < b.
Proof. intros Hb. apply Z.pow_lt_mono_r_iff; lia. Qed.

Lemma pow2_le_inv (a b : Z) : 0 ≤ b → 2 ^ a ≤ 2 ^ b → a ≤ b.
Proof. intros Hb. apply Z.pow_le_mono_r_iff; lia. Qed.

Lemma full_mantissa_2_52 : full_mantissa 4503599627370496.
Proof. split; [reflexivity | reflexivity]. Qed.

(** Rounding the quotient or the root [q * 2^e] (with what was lost at
    position [l]) keeps it between the powers of two that bound it. *)
Lemma round_between (q : positive) (e : Z) (l : location) (i j : Z) :
  2 ^ 52 ≤ Z.pos q →
  e ≤ i → i ≤ j → -1022 ≤ i → j ≤ 1023 →
  2 ^ (i - e) ≤ Z.pos q →
  (Z.pos q < 2 ^ (j - e) ∨ (Z.pos q = 2 ^ (j - e) ∧ l = loc_Exact)) →
  between (binary_round_aux prec emax false (Z.pos q) e l) i j.
Proof.
  intros H52 Hei Hij Hi Hj Hlo [Hhi | [Heq ->]].
  2:{ assert (52 ≤ j - e) by (apply pow2_le_inv; lia).
      rewrite (round_exact false q 4503599627370496 e (j - e - 52));
        [| apply full_mantissa_2_52 | lia | | lia].
      - exists 4503599627370496%positive, (e + (j - e - 52)).
        split_and!; [done | apply full_mantissa_2_52 | lia |].
        right. split; [lia | done].
      - rewrite Heq. change (Z.pos 4503599627370496) with (2 ^ 52).
        rewrite <- Z.pow_add_r by lia. f_equal. lia. }
  pose proof (digits_spec q) as [Hdlo Hdhi].
  set (d := Z.pos (digits2_pos q)) in *.
  assert (0 < d) as Hdpos by (unfold d; lia).
  assert (52 < d) as Hd53 by (apply pow2_lt_inv; lia).
  assert (d - 1 < j - e) as Hdj by (apply pow2_lt_inv; lia).
  assert (i - e < d) as Hdi by (apply pow2_lt_inv; lia).
  set (k := d - 53).
  assert (0 < 2 ^ k) as Hpk by (apply Z.pow_pos_nonneg; lia).
  assert (2 ^ (d - 1) = 2 ^ k * 2 ^ 52) as Hd1.
  { rewrite <- Z.pow_add_r by lia. f_equal. lia. }
  assert (2 ^ d = 2 ^ k * 2 ^ 53) as Hd0.
  { rewrite <- Z.pow_add_r by lia. f_equal. lia. }
  unfold binary_round_aux, shr_fexp.
  change (Zdigits2 (Z.pos q)) with d. rewrite fexp_small by lia.
  replace (d + e - 53 - e) with k by lia.
  destruct (shr (shr_record_of_loc (Z.pos q) l) e k) as [mrs' e1] eqn:Hshr.
  assert (e1 = e + k ∧ shr_m mrs' = Z.pos q / 2 ^ k) as [-> Hm1].
  { unfold shr in Hshr. destruct k as [|kp|kp] eqn:Hk; [| |lia].
    - injection Hshr as <- <-. rewrite shr_record_of_loc_m.
      split; [lia|]. by rewrite Z.div_1_r.
    - injection Hshr as <- <-. split; [done|].
      rewrite shr_m_iter, shr_record_of_loc_m; [done|].
      rewrite shr_record_of_loc_m. lia. }
  assert (2 ^ 52 ≤ shr_m mrs' < 2 ^ 53) as [Hm1lo Hm1hi].
  { rewrite Hm1. split.
    - apply Z.div_le_lower_bound; lia.
    - apply Z.div_lt_upper_bound; lia. }
  pose proof (round_nearest_even_bounds (shr_m mrs') (loc_of_shr_record mrs'))
    as Hround.
  destruct (round_nearest_even (shr_m mrs') (loc_of_shr_record mrs'))
    as [|p2|p2] eqn:Hm2; [lia| |lia].
  change (Zdigits2 (Z.pos p2)) with (Z.pos (digits2_pos p2)).
  destruct (Z.eq_dec (Z.pos p2) (2 ^ 53)) as [Hcarry | Hnc].
  - assert (p2 = 9007199254740992%positive) as -> by (apply Pos2Z.inj; exact Hcarry).
    change (Z.pos (digits2_pos 9007199254740992)) with 54.
    rewrite fexp_small by lia.
    replace (54 + (e + k) - 53 - (e + k)) with 1 by lia.
    cbn [shr shr_record_of_loc SpecFloat.iter_pos shr_1 shr_m].
    destruct (e + k + 1 <=? emax - prec) eqn:Hle;
      [|apply Z.leb_gt in Hle; unfold emax, prec in Hle; lia].
    exists 4503599627370496%positive, (e + k + 1).
    split_and!; [done | apply full_mantissa_2_52 | lia |].
    destruct (Z.eq_dec (e + k + 1 + 52) j); [right | left]; [|lia].
    split; [done | reflexivity].
  - rewrite (digits_unique p2 53), fexp_small by lia.
    replace (53 + (e + k) - 53 - (e + k)) with 0 by lia.
    cbn [shr shr_record_of_loc shr_m].
    destruct (e + k <=? emax - prec) eqn:Hle;
      [|apply Z.leb_gt in Hle; unfold emax, prec in Hle; lia].
    exists p2, (e + k). split_and!; [done | split; lia | lia | left; lia].
Qed.

(** ** Division *)

Lemma new_location_0 (nb : Z) : new_location nb 0 = loc_Exact.
Proof. unfold new_location. by destruct (Z.even nb). Qed.

Lemma div_eucl_div_mod (a b : Z) : Z.div_eucl a b = (a / b, a mod b).
Proof. unfold Z.div, Z.modulo. by destruct (Z.div_eucl a b). Qed.

Lemma full_mantissa_digits (m : positive) :
  full_mantissa m → Z.pos (digits2_pos m) = 53.
Proof. intros Hm. rewrite (digits_shifted m m 0); [lia | done | lia | lia]. Qed.

(** The quotient of two 53-bit mantissas as [SFdiv] computes it: 53 more
    bits of the dividend, divided, with the place of the remainder. *)
Lemma SFdiv_core_full (m1 m2 : positive) (e1 e2 : Z) :
  full_mantissa m1 → full_mantissa m2 → -1021 ≤ e1 - e2 →
  SFdiv_core_binary prec emax (Z.pos m1) e1 (Z.pos m2) e2
  = (Z.pos m1 * 2 ^ 53 / Z.pos m2, e1 - e2 - 53,
     new_location (Z.pos m2) ((Z.pos m1 * 2 ^ 53) mod Z.pos m2)).
Proof.
  intros H1 H2 He. unfold SFdiv_core_binary.
  change (Zdigits2 (Z.pos m1)) with (Z.pos (digits2_pos m1)).
  change (Zdigits2 (Z.pos m2)) with (Z.pos (digits2_pos m2)).
  rewrite !full_mantissa_digits, fexp_small by (done || lia).
  rewrite Z.min_l by lia.
  replace (e1 - e2 - (53 + e1 - (53 + e2) - 53)) with 53 by lia.
  cbv beta iota zeta.
  rewrite Z.shiftl_mul_pow2, div_eucl_div_mod by lia.
  do 2 f_equal. lia.
Qed.

(** A float between two powers of two stays between them, suitably
    scaled, when it is divided. *)
Lemma div_between (S n : Z) (fS fn : spec_float) (i j : Z) :
  represents S fS → represents n fn →
  0 ≤ i → 0 ≤ j → i + j ≤ 53 →
  n ≤ S * 2 ^ i → S ≤ n * 2 ^ j →
  between (SF64div fS fn) (- i) j.
Proof.
  intros HS Hn Hi Hj Hij Hlow Hupp.
  pose proof (represents_pos _ _ HS) as [HSpos _].
  pose proof (represents_pos _ _ Hn) as [Hnpos _].
  destruct HS as (mS & eS & -> & HmS & HeS & HS).
  destruct Hn as (mn & en & -> & Hmn & Hen & Hn).
  pose proof HmS as [HSlo HShi]. pose proof Hmn as [Hnlo Hnhi].
  assert (0 < 2 ^ i ∧ 0 < 2 ^ j ∧ 0 < 2 ^ (- eS) ∧ 0 < 2 ^ (- en))
    as (Hpi & Hpj & HpS & Hpn) by (split_and!; apply Z.pow_pos_nonneg; lia).
  (* the exponents differ by what the bounds allow *)
  assert (en - eS ≤ i) as Hd1.
  { destruct (Z.le_gt_cases (en - eS) i) as [|Hgt]; [done|]. exfalso.
    assert (2 ^ (- eS) = 2 ^ (- en) * 2 ^ (en - eS)) as Hsplit.
    { rewrite <- Z.pow_add_r by lia. f_equal. lia. }
    assert (2 * 2 ^ i ≤ 2 ^ (en - eS)).
    { change 2 with (2 ^ 1) at 1. rewrite <- Z.pow_add_r by lia.
      apply Z.pow_le_mono_r; lia. }
    assert (n * 2 ^ (- en) * 2 ^ (en - eS) ≤ S * 2 ^ i * 2 ^ (- en) * 2 ^ (en - eS)).
    { apply Z.mul_le_mono_nonneg_r; [lia|].
      apply Z.mul_le_mono_nonneg_r; lia. }
    nia. }
  assert (eS - en ≤ j) as Hd2.
  { destruct (Z.le_gt_cases (eS - en) j) as [|Hgt]; [done|]. exfalso.
    assert (2 ^ (- en) = 2 ^ (- eS) * 2 ^ (eS - en)) as Hsplit.
    { rewrite <- Z.pow_add_r by lia. f_equal. lia. }
    assert (2 * 2 ^ j ≤ 2 ^ (eS - en)).
    { change 2 with (2 ^ 1) at 1. rewrite <- Z.pow_add_r by lia.
      apply Z.pow_le_mono_r; lia. }
    assert (S * 2 ^ (- eS) * 2 ^ (eS - en) ≤ n * 2 ^ j * 2 ^ (- eS) * 2 ^ (eS - en)).
    { apply Z.mul_le_mono_nonneg_r; [lia|].
      apply Z.mul_le_mono_nonneg_r; lia. }
    nia. }
  unfold SF64div, SFdiv. rewrite SFdiv_core_full by (done || lia).
  set (D := Z.pos mS * 2 ^ 53).
  pose proof (Z.div_mod D (Z.pos mn) ltac:(lia)) as Hdm.
  pose proof (Z.mod_pos_bound D (Z.pos mn) ltac:(lia)) as Hr.
  set (t := 53 - i - eS + en). set (u := j - eS + en + 53).
  assert (0 ≤ t ∧ 0 ≤ u) as [Ht Hu] by (unfold t, u; lia).
  assert (0 < 2 ^ t ∧ 0 < 2 ^ u) as [Hpt Hpu]
    by (split; apply Z.pow_pos_nonneg; lia).
  (* the dividend between the divisor scaled by the two bounds *)
  assert (Z.pos mn * 2 ^ t ≤ D) as HDlo.
  { assert (Z.pos mn * 2 ^ t = n * 2 ^ (53 - i - eS)) as ->.
    { rewrite Hn, <- Z.mul_assoc, <- Z.pow_add_r by lia.
      f_equal. f_equal. unfold t. lia. }
    assert (D = S * 2 ^ i * 2 ^ (53 - i - eS)) as ->.
    { unfold D. rewrite HS, <- !Z.mul_assoc, <- !Z.pow_add_r by lia.
      f_equal. f_equal. lia. }
    apply Z.mul_le_mono_nonneg_r; [|done]. apply Z.pow_nonneg. lia. }
  assert (D ≤ Z.pos mn * 2 ^ u) as HDhi.
  { assert (Z.pos mn * 2 ^ u = n * 2 ^ j * 2 ^ (53 - eS)) as ->.
    { rewrite Hn, <- !Z.mul_assoc, <- !Z.pow_add_r by lia.
      f_equal. f_equal. unfold u. lia. }
    assert (D = S * 2 ^ (53 - eS)) as ->.
    { unfold D. rewrite HS, <- !Z.mul_assoc, <- !Z.pow_add_r by lia.
      f_equal. f_equal. lia. }
    apply Z.mul_le_mono_nonneg_r; [|done]. apply Z.pow_nonneg. lia. }
  assert (2 ^ t ≤ D / Z.pos mn) as Hqt by (apply Z.div_le_lower_bound; lia).
  assert (2 ^ 52 ≤ D / Z.pos mn) as Hq52.
  { apply Z.div_le_lower_bound; [lia|]. unfold D.
    change (2 ^ 53) with 9007199254740992 in *.
    change (2 ^ 52) with 4503599627370496 in *. nia. }
  assert (D / Z.pos mn ≤ 2 ^ u) as Hqu by (apply Z.div_le_upper_bound; lia).
  destruct (D / Z.pos mn) as [|q|q] eqn:Hq; [lia| |lia].
  apply round_between; try lia.
  - by replace (- i - (eS - en - 53)) with t by (unfold t; lia).
  - replace (j - (eS - en - 53)) with u by (unfold u; lia).
    destruct (Z.eq_dec (Z.pos q) (2 ^ u)) as [Heq | Hne]; [right | left; lia].
    split; [done|].
    assert (D mod Z.pos mn = 0) as -> by nia.
    apply new_location_0.
Qed.

(** Dividing a multiple of [n] by [n] is exact. *)
Lemma div_exact (n c : Z) (fS fn : spec_float) :
  represents (n * c) fS → represents n fn → 0 < c →
  represents c (SF64div fS fn).
Proof.
  intros HS Hn Hc.
  pose proof (represents_pos _ _ HS) as [HSpos HSlt].
  pose proof (represents_pos _ _ Hn) as [Hnpos _].
  destruct (normalize c) as (m & j & Hj & Hm & Hmc); [nia|].
  destruct HS as (mS & eS & -> & HmS & HeS & HS).
  destruct Hn as (mn & en & -> & Hmn & Hen & Hn).
  pose proof HmS as [HSlo HShi]. pose proof Hmn as [Hnlo Hnhi].
  pose proof Hm as [Hmlo Hmhi].
  assert (0 < 2 ^ j ∧ 0 < 2 ^ (- eS) ∧ 0 < 2 ^ (- en))
    as (Hpj & HpS & Hpn) by (split_and!; apply Z.pow_pos_nonneg; lia).
  assert (eS - en ≤ 52 ∧ -52 ≤ eS - en) as [Hd1 Hd2].
  { assert (- eS ≤ 52 ∧ - en ≤ 52) as [? ?]; [|lia].
    split; apply Z.lt_succ_r, pow2_lt_inv; try lia;
      change (Z.succ 52) with 53; nia. }
  unfold SF64div, SFdiv. rewrite SFdiv_core_full by (done || lia).
  set (t := 53 - eS + en).
  assert (0 ≤ t) as Ht by (unfold t; lia).
  assert (0 < 2 ^ t) as Hpt by (apply Z.pow_pos_nonneg; lia).
  assert (Z.pos mS * 2 ^ 53 = c * 2 ^ t * Z.pos mn) as HD.
  { rewrite HS, Hn.
    assert (2 ^ (- eS) * 2 ^ 53 = 2 ^ t * 2 ^ (- en)) as Hpow.
    { rewrite <- !Z.pow_add_r by lia. f_equal. unfold t. lia. }
    transitivity (n * c * (2 ^ (- eS) * 2 ^ 53)); [ring|].
    rewrite Hpow. ring. }
  rewrite HD, Z.div_mul, Z.mod_mul, new_location_0 by lia.
  assert (j ≤ t) as Hjt.
  { destruct (Z.le_gt_cases j t) as [|Hgt]; [done|]. exfalso.
    assert (2 * 2 ^ t ≤ 2 ^ j).
    { change 2 with (2 ^ 1) at 1. rewrite <- Z.pow_add_r by lia.
      apply Z.pow_le_mono_r; lia. }
    assert (2 ^ 52 * Z.pos mn ≤ c * 2 ^ t * Z.pos mn).
    { rewrite <- HD. change (2 ^ 53) with (2 * 2 ^ 52).
      change (2 ^ 52) with 4503599627370496 in *. nia. }
    assert (2 ^ 52 ≤ c * 2 ^ t) by nia.
    assert (c * (2 * 2 ^ t) ≤ c * 2 ^ j) by (apply Z.mul_le_mono_nonneg_l; lia).
    lia. }
  destruct (c * 2 ^ t) as [|q|q] eqn:Hq; [lia| |lia].
  cbv beta iota zeta. change (xorb false false) with false.
  rewrite (round_exact false q m (eS - en - 53) (t - j)); [| done | lia | | unfold t; lia].
  - replace (eS - en - 53 + (t - j)) with (- j) by (unfold t; lia).
    apply represents_normalize; [lia | done | done].
  - rewrite Hmc, <- Z.mul_assoc, <- Z.pow_add_r by lia.
    rewrite <- Hq. f_equal. f_equal. lia.
Qed.

(** ** Square root *)

(** The integer square root is at least [2^t] when the radicand is at
    least [2^(2t)], and below [2^u] when the radicand is below [2^(2u)]. *)
Lemma sqrt_lower (x q r t : Z) :
  0 ≤ t → 0 ≤ q → x = q * q + r → r ≤ 2 * q → 2 ^ t * 2 ^ t ≤ x → 2 ^ t ≤ q.
Proof.
  intros Ht Hq Hx Hr Hlo.
  assert (0 < 2 ^ t) by (apply Z.pow_pos_nonneg; lia).
  destruct (Z.le_gt_cases (2 ^ t) q) as [|Hgt]; [done|]. exfalso.
  assert ((q + 1) * (q + 1) ≤ 2 ^ t * 2 ^ t)
    by (apply Z.mul_le_mono_nonneg; lia).
  lia.
Qed.

Lemma sqrt_upper (x q r u : Z) :
  0 ≤ u → 0 ≤ q → x = q * q + r → 0 ≤ r → x < 2 ^ u * 2 ^ u → q < 2 ^ u.
Proof.
  intros Hu Hq Hx Hr Hhi.
  assert (0 < 2 ^ u) by (apply Z.pow_pos_nonneg; lia).
  destruct (Z.lt_ge_cases q (2 ^ u)) as [|Hge]; [done|]. exfalso.
  assert (2 ^ u * 2 ^ u ≤ q * q) by (apply Z.mul_le_mono_nonneg; lia).
  lia.
Qed.

(** The square root of a float between [2^(-2i)] and [2^(2j)] is between
    [2^(-i)] and [2^j]. *)
Lemma sqrt_between (f : spec_float) (i j : Z) :
  between f (- (2 * i)) (2 * j) → 0 ≤ i → 0 ≤ j → i + j ≤ 52 →
  between (SF64sqrt f) (- i) j.
Proof.
  intros (m & e & -> & Hm & Hlo & Hup) Hi Hj Hij.
  pose proof Hm as [Hmlo Hmhi].
  unfold SF64sqrt, SFsqrt, SFsqrt_core_binary.
  change (Zdigits2 (Z.pos m)) with (Z.pos (digits2_pos m)).
  rewrite full_mantissa_digits by done.
  set (h := Z.div2 e).
  pose proof (Z.div2_odd e) as Heo. fold h in Heo.
  set (b := Z.b2z (Z.odd e)) in *.
  assert (b = 0 ∨ b = 1) as Hb by (unfold b; destruct (Z.odd e); simpl; lia).
  assert (Z.div2 (53 + e + 1) = h + 27) as ->.
  { rewrite Z.div2_div. replace (53 + e + 1) with (e + 27 * 2) by lia.
    rewrite Z.div_add by lia. unfold h. by rewrite Z.div2_div. }
  rewrite fexp_small, Z.min_l by lia.
  set (e' := h + 27 - 53).
  assert (∃ s, e - 2 * e' = Z.pos s ∧ Z.pos s = 52 + b) as (s & Hs & Hsb).
  { exists (Z.to_pos (52 + b)). rewrite Z2Pos.id by lia. unfold e'. lia. }
  rewrite Hs. cbv beta iota zeta.
  rewrite Z.shiftl_mul_pow2 by lia.
  set (x := Z.pos m * 2 ^ Z.pos s).
  assert (0 < 2 ^ Z.pos s) as Hps by (apply Z.pow_pos_nonneg; lia).
  assert (2 ^ Z.pos s = 2 ^ 52 * 2 ^ b) as Hsplit.
  { rewrite <- Z.pow_add_r by lia. f_equal. lia. }
  assert (0 < 2 ^ b) as Hpb by (apply Z.pow_pos_nonneg; lia).
  pose proof (Z.sqrtrem_spec x ltac:(unfold x; lia)) as Hspec.
  destruct (Z.sqrtrem x) as [q r]. destruct Hspec as [Hx [Hr0 Hr2]].
  assert (0 ≤ q) as Hq0 by lia.
  set (t := - i - e'). set (u := j - e').
  assert (0 ≤ t ∧ 0 ≤ u ∧ t ≤ u) as (Ht & Hu & Htu) by (unfold t, u, e'; lia).
  assert (2 ^ 52 * 2 ^ 52 ≤ x) as Hx104.
  { unfold x. rewrite Hsplit.
    assert (2 ^ 52 * 2 ^ 52 ≤ Z.pos m * 2 ^ 52)
      by (apply Z.mul_le_mono_nonneg_r; lia).
    assert (Z.pos m * 2 ^ 52 * 1 ≤ Z.pos m * 2 ^ 52 * 2 ^ b)
      by (apply Z.mul_le_mono_nonneg_l; lia).
    lia. }
  assert (2 ^ 52 ≤ q) as Hq52 by (by apply (sqrt_lower x q r 52)).
  assert (2 ^ t ≤ q) as Hqt.
  { apply (sqrt_lower x q r t); try done.
    rewrite <- Z.pow_add_r by lia.
    etrans; [|exact Hx104]. rewrite <- Z.pow_add_r by lia.
    apply Z.pow_le_mono_r; unfold t, e'; lia. }
  destruct q as [|qp|qp]; [lia| |lia].
  apply round_between; try lia.
  - by fold t.
  - fold u. destruct Hup as [Hlt | [Heq Hm52]].
    + left. apply (sqrt_upper x (Z.pos qp) r u); try done.
      unfold x. rewrite Hsplit.
      assert (Z.pos m * (2 ^ 52 * 2 ^ b) < 2 ^ 53 * (2 ^ 52 * 2 ^ b))
        by (apply Z.mul_lt_mono_pos_r; lia).
      assert (2 ^ 53 * (2 ^ 52 * 2 ^ b) ≤ 2 ^ u * 2 ^ u); [|lia].
      rewrite <- !Z.pow_add_r by lia.
      apply Z.pow_le_mono_r; unfold u, e'; lia.
    + assert (b = 0) as Hb0 by lia.
      assert (u = 52) as Hu52 by (unfold u, e'; lia).
      assert (x = 2 ^ 52 * 2 ^ 52) as Hx'.
      { unfold x. rewrite Hsplit, Hm52, Hb0. change (2 ^ 0) with 1. lia. }
      assert (Z.pos qp < 2 ^ 52 + 1) as Hqlt.
      { destruct (Z.lt_ge_cases (Z.pos qp) (2 ^ 52 + 1)) as [|Hge]; [done|].
        exfalso.
        assert ((2 ^ 52 + 1) * (2 ^ 52 + 1) ≤ Z.pos qp * Z.pos qp)
          by (apply Z.mul_le_mono_nonneg; lia).
        lia. }
      right. rewrite Hu52. split; [lia|].
      assert (r = 0) as -> by nia. done.
Qed.

(** ** Division by [32768] *)

Lemma div_32768_between (f : spec_float) (i j : Z) :
  between f i j → -1000 ≤ i → j ≤ 1000 →
  between (SF64div f (Prim2SF 32768%float)) (i - 15) (j - 15).
Proof.
  intros (m & e & -> & Hm & Hlo & Hup) Hi Hj.
  pose proof Hm as [Hmlo Hmhi].
  change (Prim2SF 32768%float) with (S754_finite false 4503599627370496 (-37)).
  unfold SF64div, SFdiv.
  rewrite SFdiv_core_full; [| done | apply full_mantissa_2_52 | lia].
  change (Z.pos 4503599627370496) with (2 ^ 52).
  assert (Z.pos m * 2 ^ 53 = Z.pos m~0 * 2 ^ 52) as ->.
  { rewrite Pos2Z.inj_xO. change (2 ^ 53) with (2 * 2 ^ 52). lia. }
  rewrite Z.div_mul, Z.mod_mul, new_location_0 by lia.
  cbv beta iota zeta. change (xorb false false) with false.
  rewrite (round_exact false m~0 m (e - -37 - 53) 1); [| done | lia | lia | lia].
  exists m, (e - -37 - 53 + 1). split_and!; [done | done | lia | lia].
Qed.

(** ** The level of a frame *)

Lemma between_weaken (f : spec_float) (i i' j : Z) :
  between f i j → i' ≤ i → between f i' j.
Proof.
  intros (m & e & -> & Hm & Hlo & Hup) Hi.
  exists m, e. split_and!; [done | done | lia | done].
Qed.

Lemma int16_le_int16 (lo hi : byte) : int16 (int16_le lo hi).
Proof.
  unfold int16, int16_le, byte_to_Z.
  pose proof (Byte.to_N_bounded lo). pose proof (Byte.to_N_bounded hi).
  destruct (_ <? 32768) eqn:Hlt; [apply Z.ltb_lt in Hlt | apply Z.ltb_ge in Hlt];
    lia.
Qed.

Lemma Int16Array_int16 (buffer : list byte) : Forall int16 (Int16Array buffer).
Proof.
  assert (∀ n (buffer : list byte),
            (length buffer ≤ n)%nat → Forall int16 (Int16Array buffer)) as H.
  { intros n. induction n as [|n IH]; intros [|lo [|hi rest]] Hlen;
      simpl in *; try done; try lia.
    constructor; [apply int16_le_int16|]. apply IH. lia. }
  by apply (H (length buffer)).
Qed.

Lemma foldl_squares_bounds (samples : list Z) (acc : Z) :
  Forall int16 samples →
  acc ≤ foldl (λ sum s, sum + s * s) acc samples
      ≤ acc + Z.of_nat (length samples) * 2 ^ 30.
Proof.
  revert acc. induction samples as [|s samples IH]; intros acc Hall.
  - simpl. lia.
  - apply Forall_cons in Hall as [Hs Hall]. unfold int16 in Hs.
    assert (0 ≤ s * s ≤ 2 ^ 30) by (change (2 ^ 30) with (32768 * 32768); nia).
    specialize (IH (acc + s * s) Hall).
    rewrite length_cons, Nat2Z.inj_succ. simpl foldl. lia.
Qed.

Lemma foldl_squares_constant (c : Z) (n : nat) (acc : Z) :
  foldl (λ sum s, sum + s * s) acc (replicate n c) = acc + Z.of_nat n * (c * c).
Proof.
  revert acc. induction n as [|n IH]; intros acc.
  - simpl. lia.
  - rewrite Nat2Z.inj_succ. simpl. rewrite IH. lia.
Qed.

(** A frame without a sample has no level: the mean is [0/0]. *)
Lemma level_no_sample (buffer : list byte) :
  Int16Array buffer = [] → calculateAudioLevel buffer = nan.
Proof. intros H. unfold calculateAudioLevel. by rewrite H. Qed.

(** The level of a frame with fewer than [2^23] samples whose squares sum
    to zero. *)
Lemma level_silent (buffer : list byte) :
  Int16Array buffer ≠ [] →
  Z.of_nat (length (Int16Array buffer)) < 2 ^ 23 →
  exact_sum_squares (Int16Array buffer) = 0 →
  calculateAudioLevel buffer = 0%float.
Proof.
  intros Hne Hlen Hzero. unfold calculateAudioLevel.
  set (samples := Int16Array buffer) in *.
  assert (PrimFloat.div (sum_squares samples)
            (number (Z.of_nat (length samples))) = 0%float) as ->; [|done].
  apply Prim2SF_inj. rewrite div_spec.
  destruct (sum_squares_exact samples) as [[_ ->] | [Hpos _]];
    [apply Int16Array_int16 | done | | lia].
  destruct (number_represents (Z.of_nat (length samples)))
    as (m & e & -> & _).
  - split; [destruct samples; simpl; [done | lia]|].
    eapply Z.lt_trans; [exact Hlen | reflexivity].
  - reflexivity.
Qed.

(** The level of a frame with between one and [2^23] samples is a number
    between [0] and [1]. *)
Lemma level_in_range (buffer : list byte) :
  Int16Array buffer ≠ [] →
  Z.of_nat (length (Int16Array buffer)) < 2 ^ 23 →
  PrimFloat.leb 0 (calculateAudioLevel buffer) = true ∧
  PrimFloat.leb (calculateAudioLevel buffer) 1 = true.
Proof.
  intros Hne Hlen.
  pose proof (Int16Array_int16 buffer) as Hall.
  pose proof (foldl_squares_bounds (Int16Array buffer) 0 Hall) as [Hlo Hhi].
  fold (exact_sum_squares (Int16Array buffer)) in Hlo, Hhi.
  destruct (Z.eq_dec (exact_sum_squares (Int16Array buffer)) 0) as [Hzero | Hnz].
  { rewrite level_silent by done. split; reflexivity. }
  unfold calculateAudioLevel.
  set (samples := Int16Array buffer) in *.
  set (n := Z.of_nat (length samples)) in *.
  assert (0 < n) as Hn by (unfold n; destruct samples; simpl; [done | lia]).
  destruct (sum_squares_exact samples Hall Hlen) as [[? _] | [Hpos HS]]; [lia|].
  assert (represents n (Prim2SF (number n))) as Hrn.
  { apply number_represents. split; [done|].
    eapply Z.lt_trans; [exact Hlen | reflexivity]. }
  assert (between (Prim2SF (PrimFloat.div
            (PrimFloat.sqrt (PrimFloat.div (sum_squares samples) (number n)))
            32768)) (-27) 0) as (m & e & Heq & Hm & Helo & Heup).
  { rewrite div_spec, sqrt_spec, div_spec.
    apply (div_32768_between _ (-12) 15); [|lia|lia].
    apply (sqrt_between _ 12 15); [|lia|lia|lia].
    apply (between_weaken _ (-23)); [|lia].
    apply (div_between _ n _ _ 23 30 HS Hrn); lia. }
  rewrite !leb_spec, Heq.
  change (Prim2SF 0) with (S754_zero false).
  change (Prim2SF 1) with (S754_finite false 4503599627370496 (-52)).
  split; [reflexivity|].
  unfold SFleb, SFcompare.
  destruct Heup as [Hlt | [Heq' Hm52]].
  - destruct (Z.compare_spec e (-52)); [lia | done | lia].
  - assert (e = -52) as -> by lia.
    assert (m = 4503599627370496%positive) as -> by (apply Pos2Z.inj; exact Hm52).
    reflexivity.
Qed.

(** The level of a frame whose samples all have the greatest amplitude. *)
Lemma level_loudest (buffer : list byte) :
  Int16Array buffer ≠ [] →
  Z.of_nat (length (Int16Array buffer)) < 2 ^ 23 →
  Forall (λ s, s = 32767) (Int16Array buffer) →
  calculateAudioLevel buffer = 0.999969482421875%float.
Proof.
  intros Hne Hlen Hmax. unfold calculateAudioLevel.
  pose proof (Int16Array_int16 buffer) as Hall.
  set (samples := Int16Array buffer) in *.
  set (n := Z.of_nat (length samples)) in *.
  assert (0 < n) as Hn by (unfold n; destruct samples; simpl; [done | lia]).
  assert (samples = replicate (length samples) 32767) as Hrep.
  { clear -Hmax. induction Hmax as [|s l -> _ IH]; simpl; [done | by f_equal]. }
  assert (exact_sum_squares samples = n * 1073676289) as Hsum.
  { unfold exact_sum_squares. rewrite Hrep, foldl_squares_constant.
    fold n. lia. }
  assert (PrimFloat.div (sum_squares samples) (number n) = number 1073676289)
    as ->; [|reflexivity].
  apply Prim2SF_inj. rewrite div_spec.
  apply (represents_unique 1073676289).
  - destruct (sum_squares_exact samples Hall Hlen) as [[? _] | [_ HS]]; [lia|].
    rewrite Hsum in HS. apply (div_exact n); [done | | lia].
    apply number_represents. split; [done|].
    eapply Z.lt_trans; [exact Hlen | reflexivity].
  - apply number_represents. split; reflexivity.
Qed.

(** C9, on the code.  A frame without a complete sample (fewer than two
    bytes) has the level NaN, which is neither at least 0 nor at most 1.
    A frame with at least one sample, and fewer than [2^23] of them, has a
    level between 0 and 1; it is exactly 0 when all the samples are zero
    and exactly [32767/32768 = 0.999969482421875] when they all are
    32767. *)
Theorem audio_level_of_frame (buffer : list byte) :
  let samples := Int16Array buffer in
  let level := calculateAudioLevel buffer in
  (samples = [] →
     level = nan ∧
     PrimFloat.leb 0 level = false ∧ PrimFloat.leb level 1 = false) ∧
  (samples ≠ [] → Z.of_nat (length samples) < 2 ^ 23 →
     PrimFloat.leb 0 level = true ∧ PrimFloat.leb level 1 = true ∧
     (Forall (λ s, s = 0) samples → level = 0%float) ∧
     (Forall (λ s, s = 32767) samples → level = 0.999969482421875%float)).
Proof.
  intros samples level. split.
  - intros Hnone. unfold level. rewrite level_no_sample by done.
    split_and!; reflexivity.
  - intros Hsome Hlen.
    destruct (level_in_range buffer Hsome Hlen) as [Hlo Hhi].
    split_and!; [done | done | |].
    + intros Hzero. apply level_silent; [done | done |].
      fold samples. clear -Hzero. unfold exact_sum_squares.
      assert (samples = replicate (length samples) 0) as ->.
      { induction Hzero as [|s l -> _ IH]; simpl; [done | by f_equal]. }
      rewrite foldl_squares_constant. lia.
    + by apply level_loudest.
Qed.

End Binary64Facts.

(** The empty frame has no level; 160 samples of silence have level 0 and
    160 samples of amplitude 32767 have level 0.999969482421875. *)
Lemma audio_level_of_frame_witness :
  SpeechAgent.calculateAudioLevel [] = nan ∧
  SpeechAgent.calculateAudioLevel (repeat x00 320) = 0%float ∧
  SpeechAgent.calculateAudioLevel (concat (repeat [xff; x7f] 160))
    = 0.999969482421875%float.
Proof.
  split; [apply (audio_level_of_frame []); reflexivity|].
  split.
  - apply (audio_level_of_frame (repeat x00 320)).
    + discriminate.
    + reflexivity.
    + vm_compute. repeat constructor.
  - apply (audio_level_of_frame (concat (repeat [xff; x7f] 160))).
    + discriminate.
    + reflexivity.
    + vm_compute. repeat constructor.
Defined.

(* ===================================================================== *)
(** * More properties of the A2A protocol handler: the registry of agents
      and skills *)
(* ===================================================================== *)


Section A2ARegistryFacts.
Import A2A A2ARuns.

Lemma map_get_set {V} (k k' : string) (v : V) (m : list (string * V)) :
  map_get k' (map_set k v m) = if decide (k = k') then Some v else map_get k' m.
Proof.
  induction m as [|[k0 v0] m IH]; simpl.
  - repeat case_decide; congruence.
  - destruct (decide (k0 = k)) as [->|Hne]; simpl.
    + repeat case_decide; congruence.
    + rewrite IH. repeat case_decide; congruence.
Qed.

Lemma map_set_keys {V} (k : string) (v : V) (m : list (string * V)) :
  (map_set k v m).*1 = if decide (k ∈ m.*1) then m.*1 else m.*1 ++ [k].
Proof.
  induction m as [|[k0 v0] m IH].
  - rewrite decide_False; [done | apply not_elem_of_nil].
  - cbn [map_set]. rewrite !fmap_cons. cbn [fst].
    destruct (decide (k0 = k)) as [->|Hne].
    + rewrite decide_True; [done | left].
    + rewrite fmap_cons, IH. cbn [fst].
      destruct (decide (k ∈ m.*1)) as [Hin|Hin].
      * rewrite decide_True; [done | by right].
      * rewrite decide_False; [done|].
        intros [?|?]%elem_of_cons; congruence.
Qed.

Lemma map_get_elem {V} (k : string) (v : V) (m : list (string * V)) :
  NoDup m.*1 → (k, v) ∈ m ↔ map_get k m = Some v.
Proof.
  induction m as [|[k0 v0] m IH]; simpl; intros Hnd.
  - split; [by intros ?%elem_of_nil | done].
  - apply NoDup_cons in Hnd as [Hk0 Hnd].
    destruct (decide (k0 = k)) as [->|Hne].
    + split.
      * intros [Heq|Hin]%elem_of_cons; [congruence|].
        exfalso. apply Hk0. apply list_elem_of_fmap. by exists (k, v).
      * intros [= ->]. left.
    + rewrite <- (IH Hnd). split.
      * intros [Heq|Hin]%elem_of_cons; [congruence | done].
      * intros. by right.
Qed.

Lemma last_registered_snoc (agentId : string) (turns : list Turn) (x : Turn) :
  last_registered agentId (turns ++ [x]) =
  match x with
  | Register a card _ =>
      if decide (a = agentId) then Some card else last_registered agentId turns
  | _ => last_registered agentId turns
  end.
Proof.
  induction turns as [|y l IH]; simpl.
  - destruct x; try done; by case_decide.
  - rewrite IH. destruct x; try done; by case_decide.
Qed.

Lemma agents_turn (σ : Sys) (x : Turn) :
  agents (a2a (turn σ x)) =
  match x with
  | Register agentId card _ => map_set agentId card (agents (a2a σ))
  | _ => agents (a2a σ)
  end.
Proof.
  destruct x as [a c hs | skill inp session | r | k out | k err]; simpl; try done.
  - unfold sendTask_start. simpl. repeat (case_match; simpl; try done).
    all: unfold catch_fail in *; repeat (case_match; simplify_eq; simpl; try done).
  - unfold sendTask_resume. repeat (case_match; simpl; try done).
    all: unfold catch_fail in *; repeat (case_match; simplify_eq; simpl; try done).
  - unfold handleTaskComplete. by case_match.
  - unfold handleTaskFail. by case_match.
Qed.

(** X1: the registry of agents.  In every run, [listAgents()] holds each
    agent id once, [getAgentCard(id)] is the card of the last
    [registerAgent(id, ...)] (nothing for an id never registered), and the
    list and the lookup agree. *)
Theorem agents_registry (turns : list Turn) (e : Env) :
  let p := a2a (run turns (init e)) in
  NoDup (listAgents p).*1 ∧
  (∀ agentId, getAgentCard (Some agentId) p = last_registered agentId turns) ∧
  getAgentCard None p = None ∧
  (∀ agentId card,
     (agentId, card) ∈ listAgents p ↔ getAgentCard (Some agentId) p = Some card).
Proof.
  simpl. unfold listAgents, getAgentCard. simpl.
  assert (NoDup (agents (a2a (run turns (init e)))).*1 ∧
          ∀ agentId, map_get agentId (agents (a2a (run turns (init e))))
                     = last_registered agentId turns) as [Hnd Hget].
  { induction turns as [|x turns IH] using rev_ind.
    - split; [constructor | done].
    - destruct IH as [Hnd Hget]. rewrite a2a_run_snoc, agents_turn. split.
      + destruct x; try done. rewrite map_set_keys. case_decide; [done|].
        apply NoDup_app. split_and!; [done | | apply NoDup_singleton].
        intros k Hk ->%list_elem_of_singleton. done.
      + intros agentId.
        rewrite last_registered_snoc. destruct x; try apply Hget.
        rewrite map_get_set. case_decide; [done | apply Hget]. }
  split_and!; [done | done | done |].
  intros agentId card. by apply map_get_elem.
Qed.

End A2ARegistryFacts.

Section A2AMoreFacts.
Import A2A A2ARuns.

Lemma register_handlers_lookup (hs : Handlers) (acc : gmap string Handler)
    (skills : list Skill) (k : string) :
  foldl (λ hs' skill,
           match hs (skill_id skill) with
           | Some h => <[skill_id skill := h]> hs'
           | None => hs'
           end) acc skills !! k
  = if decide (k ∈ skill_id <$> skills)
    then match hs k with Some h => Some h | None => acc !! k end
    else acc !! k.
Proof.
  revert acc. induction skills as [|skill skills IH]; intros acc.
  - rewrite decide_False; [done | apply not_elem_of_nil].
  - cbn [foldl]. rewrite IH, fmap_cons.
    destruct (decide (k ∈ skill_id <$> skills)) as [Hin|Hin].
    + rewrite decide_True by (by right).
      destruct (hs k) as [h|] eqn:Hk; [done|].
      destruct (hs (skill_id skill)) as [h'|] eqn:Hs; [|done].
      rewrite lookup_insert_ne; [done | congruence].
    + destruct (decide (skill_id skill = k)) as [Heq|Hne].
      * rewrite decide_True by (rewrite Heq; left).
        rewrite Heq. destruct (hs k) as [h|]; [|done].
        by rewrite lookup_insert_eq.
      * rewrite decide_False by (intros [?|?]%elem_of_cons; congruence).
        destruct (hs (skill_id skill)); [|done].
        by rewrite lookup_insert_ne.
Qed.

Lemma agentHandlers_turn (σ : Sys) (x : Turn) :
  agentHandlers (a2a (turn σ x)) =
  match x with
  | Register agentId card hs =>
      agentHandlers (registerAgent agentId card hs (a2a σ))
  | _ => agentHandlers (a2a σ)
  end.
Proof.
  destruct x as [a c hs | skill inp session | r | k out | k err]; simpl; try done.
  - by destruct (sendTask_start_spec skill inp session σ) as (? & _ & _ & -> & _).
  - unfold sendTask_resume. repeat (case_match; simpl; try done).
    all: unfold catch_fail in *; repeat (case_match; simplify_eq; simpl; try done).
  - unfold handleTaskComplete. by case_match.
  - unfold handleTaskFail. by case_match.
Qed.

(** X2: skill handlers.  For each skill listed in the card,
    [registerAgent] installs what [handlers[skill.id]] gives when that is
    truthy, replacing an earlier handler of the skill; it leaves alone the
    skills the card does not list and those for which the lookup is falsy.
    The lookup also finds what the object inherits: for a skill whose id
    names a member of the prototype and not of the object itself (such as
    [toString] for an object literal), the inherited member is installed
    as the handler, though none was given.  No turn of the protocol
    handler ever removes a handler. *)
Theorem skill_handlers_registered :
  (∀ agentId card hs p k h,
     k ∈ skill_id <$> skills card → hs k = Some h →
     agentHandlers (registerAgent agentId card hs p) !! k = Some h) ∧
  (∀ agentId card hs p k,
     k ∉ skill_id <$> skills card ∨ hs k = None →
     agentHandlers (registerAgent agentId card hs p) !! k = agentHandlers p !! k) ∧
  (∀ agentId card proto own p k,
     k ∈ skill_id <$> skills card →
     agentHandlers (registerAgent agentId card (member_of proto own) p) !! k
     = match own !! k with
       | Some h => Some h
       | None => match proto k with
                 | Some inherited => Some inherited
                 | None => agentHandlers p !! k
                 end
       end) ∧
  (∀ σ turns k,
     is_Some (agentHandlers (a2a σ) !! k) →
     is_Some (agentHandlers (a2a (run turns σ)) !! k)).
Proof.
  split_and!.
  - intros agentId card hs p k h Hin Hk. simpl.
    rewrite register_handlers_lookup, decide_True by done. by rewrite Hk.
  - intros agentId card hs p k H. simpl. rewrite register_handlers_lookup.
    destruct H as [H|H]; [by rewrite decide_False|].
    rewrite H. by case_decide.
  - intros agentId card proto own p k Hin. simpl.
    rewrite register_handlers_lookup, decide_True by done.
    unfold member_of. by destruct (own !! k), (proto k).
  - intros σ turns k. induction turns as [|x turns IH] using rev_ind; [done|].
    intros H. specialize (IH H). rewrite a2a_run_snoc, agentHandlers_turn.
    destruct x; try done. simpl. rewrite register_handlers_lookup.
    case_decide; [|done]. by destruct (handlers k).
Qed.

Lemma same_identity_refl (task : A2ATask) : same_identity task task.
Proof. by repeat split. Qed.

Lemma same_identity_trans (t1 t2 t3 : A2ATask) :
  same_identity t1 t2 → same_identity t2 t3 → same_identity t1 t3.
Proof. unfold same_identity. intros (?&?&?&?&?) (?&?&?&?&?). split_and!; congruence. Qed.

Lemma updateState_appends (s : TaskState) (m : jsval) : appends (updateState s m).
Proof. intros now task. split; [by repeat split | by eexists]. Qed.

Lemma complete_appends (out : jsval) : appends (complete out).
Proof. intros now task. split; [by repeat split | by eexists]. Qed.

Lemma fail_appends (err : jsval) : appends (fail err).
Proof. intros now task. split; [by repeat split | by eexists]. Qed.

Lemma mutate_appends (r0 : nat) (f : Z → A2ATask → A2ATask) (σ : Sys)
    (r : nat) (task : A2ATask) :
  appends f → heap σ !! r = Some task →
  ∃ task', heap (mutate r0 f σ) !! r = Some task' ∧
    same_identity task task' ∧ history task `prefix_of` history task'.
Proof.
  intros Hf Hr. rewrite lookup_mutate. case_decide as Heq.
  - subst r0. rewrite Hr. simpl. eexists. split; [done|]. apply Hf.
  - exists task. split_and!; [done | apply same_identity_refl | done].
Qed.

Lemma turn_appends (σ : Sys) (x : Turn) (r : nat) (task : A2ATask) :
  heap σ !! r = Some task →
  ∃ task', heap (turn σ x) !! r = Some task' ∧
    same_identity task task' ∧ history task `prefix_of` history task'.
Proof.
  intros Hr.
  assert (∃ task', heap σ !! r = Some task' ∧
    same_identity task task' ∧ history task `prefix_of` history task') as Hsame
    by (exists task; split_and!; [done | apply same_identity_refl | done]).
  destruct x as [a c hs | skill inp session | r0 | k out | k err]; simpl.
  - done.
  - destruct (sendTask_start_spec skill inp session σ) as (new & _ & -> & _).
    exists task. split_and!; [| apply same_identity_refl | done].
    apply lookup_app_l_Some. done.
  - unfold sendTask_resume.
    destruct (awaiting σ !! r0) as [[result | reason |]|]; simpl; try done.
    + apply mutate_appends; [apply complete_appends | done].
    + unfold catch_fail. destruct (get_message reason); simpl; [|done].
      apply mutate_appends; [apply fail_appends | done].
  - unfold handleTaskComplete. case_match; [|done].
    apply mutate_appends; [apply complete_appends | done].
  - unfold handleTaskFail. case_match; [|done].
    apply mutate_appends; [apply fail_appends | done].
Qed.

Lemma run_appends (σ : Sys) (turns : list Turn) (r : nat) (task : A2ATask) :
  heap σ !! r = Some task →
  ∃ task', heap (run turns σ) !! r = Some task' ∧
    same_identity task task' ∧
    history task `prefix_of` history task'.
Proof.
  intros Hr. induction turns as [|x turns IH] using rev_ind.
  - exists task. split_and!; [done | apply same_identity_refl | done].
  - destruct IH as (t1 & H1 & Hid1 & Hpre1). rewrite a2a_run_snoc.
    destruct (turn_appends (run turns σ) x r t1 H1) as (t2 & H2 & Hid2 & Hpre2).
    exists t2. split_and!; [done | by eapply same_identity_trans |].
    by etrans.
Qed.

(** X3: task objects are append-only.  Whatever runs afterwards, a task
    object stays where it is, keeps its id, session, skill, input and
    creation time, and its history only grows at the end. *)
Theorem task_objects_append_only (σ : Sys) (turns : list Turn) (r : nat)
    (task : A2ATask) :
  heap σ !! r = Some task →
  ∃ task', heap (run turns σ) !! r = Some task' ∧
    id task' = id task ∧ sessionId task' = sessionId task ∧
    skillId task' = skillId task ∧ input task' = input task ∧
    createdAt task' = createdAt task ∧
    history task `prefix_of` history task'.
Proof.
  intros Hr.
  destruct (run_appends σ turns r task Hr) as (task' & H' & (?&?&?&?&?) & Hpre).
  exists task'. by split_and!.
Qed.

End A2AMoreFacts.

(** A task sent to [play_by_mood] is working while its handler runs.  The
    handler's result then completes it and an ['a2a:task:fail'] event
    fails it: the two entries are added after the first, and the id, the
    session, the skill, the input and the creation time are those of the
    task as it was sent. *)
Lemma task_objects_append_only_witness :
  let σ := A2A.run [A2A.Send (Some "play_by_mood") happy (Some "s1")] registered in
  let later := [A2A.Resume 0;
                A2A.TaskFail (Some "task_1700000000000_deadbeef")
                             (A2A.JStr "stopped")] in
  ∃ task task',
    A2A.heap σ !! 0%nat = Some task ∧
    A2A.heap (A2A.run later σ) !! 0%nat = Some task' ∧
    A2A.states_of task = [A2A.WORKING] ∧
    A2A.states_of task' = [A2A.WORKING; A2A.COMPLETED; A2A.FAILED] ∧
    A2A.id task' = "task_1700000000000_deadbeef" ∧
    A2A.id task' = A2A.id task ∧ A2A.sessionId task' = A2A.sessionId task ∧
    A2A.skillId task' = A2A.skillId task ∧ A2A.input task' = A2A.input task ∧
    A2A.createdAt task' = A2A.createdAt task ∧
    A2A.history task `prefix_of` A2A.history task'.
Proof.
  intros σ later.
  destruct (A2A.heap σ !! 0%nat) as [task|] eqn:E;
    [|vm_compute in E; discriminate].
  destruct (task_objects_append_only σ later 0 task E)
    as (task' & E' & Hid & Hsession & Hskill & Hinput & Hcreated & Hprefix).
  exists task, task'.
  assert (A2A.states_of task = [A2A.WORKING]) as Hstates
    by (vm_compute in E; injection E as <-; reflexivity).
  assert (A2A.states_of task' = [A2A.WORKING; A2A.COMPLETED; A2A.FAILED]
          ∧ A2A.id task' = "task_1700000000000_deadbeef") as [Hstates' Hid']
    by (vm_compute in E'; injection E' as <-; split; reflexivity).
  by split_and!.
Defined.


(* ===================================================================== *)
(** * Task ids, fetching a task, timestamps *)
(* ===================================================================== *)


Section A2ATaskFacts.
Import A2A A2ARuns.

Lemma tasks_mutate (r : nat) (f : Z → A2ATask → A2ATask) (σ : Sys) :
  a2a (mutate r f σ) = a2a σ.
Proof. done. Qed.

Lemma tasks_turn (σ : Sys) (x : Turn) :
  is_send x = false → tasks (a2a (turn σ x)) = tasks (a2a σ).
Proof.
  destruct x as [a c hs | skill inp session | r | k out | k err]; simpl; try done.
  - intros _. unfold sendTask_resume. repeat (case_match; simpl; try done).
    all: unfold catch_fail in *; repeat (case_match; simplify_eq; simpl; try done).
  - intros _. unfold handleTaskComplete. by case_match.
  - intros _. unfold handleTaskFail. by case_match.
Qed.

Lemma tasks_run (σ : Sys) (turns : list Turn) :
  (∀ x, x ∈ turns → is_send x = false) →
  tasks (a2a (run turns σ)) = tasks (a2a σ).
Proof.
  induction turns as [|x turns IH] using rev_ind; intros H; [done|].
  rewrite a2a_run_snoc, tasks_turn, IH; [done | |].
  - intros y Hy. apply H. apply elem_of_app. by left.
  - apply H. apply elem_of_app. right. left.
Qed.

(** What [sendTask] leaves in the [tasks] map when it reaches its [await]
    or returns. *)
Lemma sendTask_start_tasks (skill : jsstring) (inp : jsval)
    (session : jsstring) (σ : Sys) :
  ∃ task,
    heap (sendTask_start skill inp session σ).2 !! length (heap σ) = Some task ∧
    tasks (a2a (sendTask_start skill inp session σ).2)
      = <[id task := length (heap σ)]> (tasks (a2a σ)) ∧
    agents (a2a (sendTask_start skill inp session σ).2) = agents (a2a σ).
Proof.
  unfold sendTask_start. simpl.
  destruct (skill ≫= _) as [h|] eqn:Hh; simpl.
  - rewrite list_lookup_alter. destruct (decide _) as [_|]; [|done].
    rewrite lookup_app_r, Nat.sub_diag by done. simpl.
    destruct (h inp session _) as [thrown | s] eqn:Hcall; simpl.
    + unfold catch_fail.
      destruct (get_message thrown) as [m|] eqn:Hm; simpl;
        rewrite ?alter_snoc, ?lookup_app_r, ?Nat.sub_diag by done; simpl;
        by eexists.
    + rewrite ?alter_snoc, ?lookup_app_r, ?Nat.sub_diag by done; simpl.
      by eexists.
  - rewrite ?alter_snoc, ?lookup_app_r, ?Nat.sub_diag by done; simpl.
    by eexists.
Qed.

Lemma tasks_wf_turn (σ : Sys) (x : Turn) : tasks_wf σ → tasks_wf (turn σ x).
Proof.
  intros Hwf k r Hk.
  destruct (decide (is_send x = true)) as [Hs|Hs].
  - destruct x as [| skill inp session | | |]; try done. simpl in *.
    destruct (sendTask_start_tasks skill inp session σ) as (new & Hnew & Htasks & _).
    rewrite Htasks in Hk.
    destruct (decide (id new = k)) as [<-|Hne].
    + rewrite lookup_insert_eq in Hk. injection Hk as <-. by exists new.
    + rewrite lookup_insert_ne in Hk by done.
      destruct (Hwf k r Hk) as (task & Hr & Hid).
      destruct (turn_appends σ (Send skill inp session) r task Hr)
        as (task' & Hr' & (Hid' & _) & _).
      exists task'. split; [done | congruence].
  - apply not_true_is_false in Hs. rewrite tasks_turn in Hk by done.
    destruct (Hwf k r Hk) as (task & Hr & Hid).
    destruct (turn_appends σ x r task Hr) as (task' & Hr' & (Hid' & _) & _).
    exists task'. split; [done | congruence].
Qed.

Lemma tasks_wf_run (σ : Sys) (turns : list Turn) :
  tasks_wf σ → tasks_wf (run turns σ).
Proof.
  intros H. induction turns as [|x turns IH] using rev_ind; [done|].
  rewrite a2a_run_snoc. by apply tasks_wf_turn.
Qed.

Lemma tasks_wf_init (e : Env) : tasks_wf (init e).
Proof. intros k r Hk. simpl in Hk. by rewrite lookup_empty in Hk. Qed.

Lemma tasks_kept_turn (σ : Sys) (x : Turn) (k : string) :
  is_Some (tasks (a2a σ) !! k) → is_Some (tasks (a2a (turn σ x)) !! k).
Proof.
  intros H. destruct (decide (is_send x = true)) as [Hs|Hs].
  - destruct x as [| skill inp session | | |]; try done. simpl.
    destruct (sendTask_start_tasks skill inp session σ) as (new & _ & -> & _).
    destruct (decide (id new = k)) as [<-|Hne].
    + rewrite lookup_insert_eq. by eexists.
    + by rewrite lookup_insert_ne.
  - apply not_true_is_false in Hs. by rewrite tasks_turn.
Qed.

(** X4: task ids.  In every run of the server, a task id found in the
    [tasks] map answers a task that carries this id, and an id that has
    been answered once is answered in every later state: no task is ever
    removed. *)
Theorem task_ids_resolve (turns later : list Turn) (e : Env) (k : string) :
  (∀ j, getTask (Some k) (run turns (init e)) = Some j → j_id j = k) ∧
  (is_Some (getTask (Some k) (run turns (init e))) →
   is_Some (getTask (Some k) (run (turns ++ later) (init e)))) ∧
  getTask None (run turns (init e)) = None.
Proof.
  assert (∀ σ, tasks_wf σ →
            (∀ j, getTask (Some k) σ = Some j → j_id j = k) ∧
            (is_Some (getTask (Some k) σ) ↔ is_Some (tasks (a2a σ) !! k))) as Hget.
  { intros σ Hwf. unfold getTask. simpl.
    destruct (tasks (a2a σ) !! k) as [r|] eqn:Hk; simpl.
    - destruct (Hwf k r Hk) as (task & -> & Hid). simpl. split.
      + by intros j [= <-].
      + split; by eexists.
    - split; [done|]. split; by intros [? ?]. }
  split_and!.
  - apply Hget, tasks_wf_run, tasks_wf_init.
  - rewrite !(λ σ H, proj2 (Hget σ H)) by apply tasks_wf_run, tasks_wf_init.
    unfold run. rewrite foldl_app. fold (run turns (init e)).
    generalize (run turns (init e)). intros σ.
    induction later as [|x later IH] using rev_ind; [done|].
    intros H. rewrite foldl_app. simpl. apply tasks_kept_turn. by apply IH.
  - done.
Qed.

End A2ATaskFacts.

Section A2ARoundTrip.
Import A2A A2ARuns.

Lemma sendTask_returns_new (skill : jsstring) (inp : jsval)
    (session : jsstring) (during : list Turn) (σ : Sys) (r : nat) :
  (sendTask skill inp session during σ).1 = Some (Returned r) →
  r = length (heap σ).
Proof.
  unfold sendTask.
  pose proof (sendTask_start_spec skill inp session σ) as (new & Hr & Hheap & _ & _ & _ & _ & Hst).
  destruct (sendTask_start skill inp session σ) as [[r0 [reply|]] σ1]; simpl in *.
  - inversion Hst; subst; intros [= <-]; done.
  - intros H. apply sendTask_resume_returned in H as [-> _]; [done|].
    eapply Nat.lt_le_trans; [|apply length_heap_run].
    rewrite Hheap, length_app. simpl. lia.
Qed.

Lemma sendTask_tasks (skill : jsstring) (inp : jsval)
    (session : jsstring) (during : list Turn) (σ : Sys) :
  (∀ x, x ∈ during → is_send x = false) →
  ∃ k, tasks (a2a (sendTask skill inp session during σ).2)
       = <[k := length (heap σ)]> (tasks (a2a σ)) ∧
       ∀ task, heap (sendTask skill inp session during σ).2 !! length (heap σ)
               = Some task → id task = k.
Proof.
  intros Hduring. unfold sendTask.
  destruct (sendTask_start_tasks skill inp session σ) as (new & Hnew & Htasks & _).
  destruct (sendTask_start skill inp session σ) as [[r0 [reply|]] σ1] eqn:Hst;
    simpl in *.
  - exists (id new). split; [done|]. intros task. rewrite Hnew. by intros [= <-].
  - exists (id new). split.
    + transitivity (tasks (a2a (run during σ1))); [|by rewrite tasks_run].
      change (sendTask_resume r0 (run during σ1)).2
        with (turn (run during σ1) (Resume r0)).
      by rewrite tasks_turn.
    + intros task Htask.
      destruct (run_appends σ1 (during ++ [Resume r0])
                  (length (heap σ)) new Hnew) as (task' & H' & (Hid & _) & _).
      rewrite a2a_run_snoc in H'. simpl in H'. congruence.
Qed.

Lemma sendTask_then_getTask (skill : jsstring) (inp : jsval)
    (session : jsstring) (during : list Turn) (σ : Sys) (r : nat) (task : A2ATask) :
  (∀ x, x ∈ during → is_send x = false) →
  (sendTask skill inp session during σ).1 = Some (Returned r) →
  heap (sendTask skill inp session during σ).2 !! r = Some task →
  getTask (Some (id task)) (sendTask skill inp session during σ).2
  = Some (toJSON task).
Proof.
  intros Hduring Hret Htask.
  pose proof (sendTask_returns_new _ _ _ _ _ _ Hret) as ->.
  destruct (sendTask_tasks skill inp session during σ Hduring) as (k & Htasks & Hid).
  rewrite <- (Hid task Htask) in Htasks.
  unfold getTask. simpl. rewrite Htasks, lookup_insert_eq. simpl.
  by rewrite Htask.
Qed.

(** X5: a task that was sent can be fetched.  When no other task is
    created while the handler runs, the task that [POST /api/a2a/tasks/send]
    (or the [tasks/send] method of the RPC route) answers is the one that
    [GET /api/a2a/tasks/:taskId] and the [tasks/get] method answer for its
    id afterwards, member by member. *)
Theorem sent_task_can_be_fetched (during : list Turn) (σ : Sys) :
  (∀ x, x ∈ during → is_send x = false) →
  (∀ req resp rid j,
     (post_tasks_send req during σ).1 = Some resp →
     body resp = createResponse rid (ResultTask j) →
     get_task (j_id j) (post_tasks_send req during σ).2
     = json (createResponse JNull (ResultTask j))) ∧
  (∀ req resp rid j,
     method req = Some "tasks/send" →
     (post_rpc req during σ).1 = Some resp →
     body resp = createResponse rid (ResultTask j) →
     getTask (Some (j_id j)) (post_rpc req during σ).2 = Some j).
Proof.
  intros Hduring. split.
  - intros req resp rid j. unfold post_tasks_send, get_task.
    destruct (b_skillId req) as [[|c k]|]; simpl;
      try (intros [= <-]; simpl; discriminate).
    destruct (sendTask _ _ _ during σ) as [[[r|e]|] σ'] eqn:Hsend; simpl;
      [| intros [= <-]; simpl; discriminate | discriminate].
    destruct (heap σ' !! r) as [task|] eqn:Htask; simpl; [|discriminate].
    intros [= <-]. simpl. intros [= _ <-].
    eassert (H := sendTask_then_getTask _ _ _ during σ r task Hduring).
    rewrite Hsend in H. cbn [fst snd] in H. specialize (H eq_refl Htask).
    unfold getTask in H. simpl in H. simpl. by rewrite H.
  - intros req resp rid j Hm. unfold post_rpc. rewrite Hm.
    destruct (negb _); simpl; [intros [= <-]; simpl; discriminate|].
    destruct (params req) as [p|]; simpl; [|intros [= <-]; simpl; discriminate].
    destruct (sendTask _ _ _ during σ) as [[[r|e]|] σ'] eqn:Hsend; simpl;
      [| intros [= <-]; simpl; discriminate | discriminate].
    destruct (heap σ' !! r) as [task|] eqn:Htask; simpl; [|discriminate].
    intros [= <-]. simpl. intros [= _ <-].
    eassert (H := sendTask_then_getTask _ _ _ during σ r task Hduring).
    rewrite Hsend in H. cbn [fst snd] in H. specialize (H eq_refl Htask).
    unfold getTask in H. simpl in H. simpl. by rewrite H.
Qed.

End A2ARoundTrip.

(** The task answered for [play_by_mood] is the one fetched afterwards. *)
Lemma sent_task_can_be_fetched_witness :
  let req := {| A2A.b_id := A2A.JNum 1; A2A.b_skillId := Some "play_by_mood";
                A2A.b_input := happy; A2A.b_sessionId := Some "s1" |} in
  ∃ j,
    (A2A.post_tasks_send req [] registered).1
      = Some (A2A.json (A2A.createResponse (A2A.JNum 1) (A2A.ResultTask j))) ∧
    A2A.get_task (A2A.j_id j) (A2A.post_tasks_send req [] registered).2
      = A2A.json (A2A.createResponse A2A.JNull (A2A.ResultTask j)).
Proof.
  intros req.
  assert (∀ x : A2A.Turn, x ∈ [] → A2ARuns.is_send x = false) as Hduring
    by (intros x Hx; by apply elem_of_nil in Hx).
  destruct (sent_task_can_be_fetched [] registered Hduring) as [H _].
  eexists. split; [vm_compute; reflexivity|].
  eapply H; [vm_compute; reflexivity | reflexivity].
Defined.


Section A2AClockFacts.
Import A2A A2ARuns.

Lemma ascending_snoc (l : list Z) (now : Z) :
  ascending l = true → Forall (λ t, t ≤ now) l → ascending (l ++ [now]) = true.
Proof.
  induction l as [|a [|b l] IH]; intros Hasc Hall; [done | |].
  - simpl. apply Forall_cons in Hall as [Ha _]. rewrite andb_true_r. lia.
  - change (ascending ((a :: b :: l) ++ [now]))
      with ((a <=? b) && ascending ((b :: l) ++ [now])).
    change (ascending (a :: b :: l)) with ((a <=? b) && ascending (b :: l)) in Hasc.
    apply andb_true_iff in Hasc as [Hab Hasc]. rewrite Hab. simpl.
    apply IH; [done|]. by apply Forall_cons in Hall as [_ ?].
Qed.

Lemma Forall_le_weaken (l : list Z) (a b : Z) :
  a ≤ b → Forall (λ t, t ≤ a) l → Forall (λ t, t ≤ b) l.
Proof. intros Hab H. eapply Forall_impl; [exact H|]. intros t. simpl. lia. Qed.

Lemma updateState_stamps (s : TaskState) (m : jsval) : stamps (updateState s m).
Proof. intros now task. simpl. by rewrite fmap_app. Qed.

Lemma complete_stamps (out : jsval) : stamps (complete out).
Proof. intros now task. simpl. by rewrite fmap_app. Qed.

Lemma fail_stamps (err : jsval) : stamps (fail err).
Proof. intros now task. simpl. by rewrite fmap_app. Qed.

Lemma times_ok_weaken (r : nat) (e : Env) (σ : Sys) :
  times_ok e σ → times_ok_but r e σ.
Proof.
  intros [Hclock H]. split; [done|]. intros r' task Hr'.
  destruct (H r' task Hr') as (? & ? & ?). done.
Qed.

Lemma times_ok_mutate (r : nat) (f : Z → A2ATask → A2ATask) (e : Env) (σ : Sys) :
  monotone e → stamps f → times_ok_but r e σ → times_ok e (mutate r f σ).
Proof.
  intros Hmono Hf [Hclock H]. split; [simpl; done|].
  intros r' task'. rewrite lookup_mutate. simpl. rewrite Hclock.
  assert (clock e (reads (env σ)) ≤ clock e (S (reads (env σ)))) as Hstep
    by (apply Hmono; lia).
  case_decide as Heq.
  - subst r'. destruct (heap σ !! r) as [task|] eqn:Hr; simpl; [|done].
    intros [= <-]. destruct (H r task Hr) as (Hasc & Hall & _).
    destruct (Hf (clock e (reads (env σ))) task) as (Hc & Hu & Hh).
    unfold task_times_ok, timestamps in *. rewrite Hc, Hh, Hu.
    split_and!.
    + rewrite app_comm_cons. by apply ascending_snoc.
    + by rewrite last_snoc.
    + rewrite app_comm_cons. apply Forall_app. split.
      * by eapply Forall_le_weaken.
      * by apply Forall_singleton.
  - intros Hr'. destruct (H r' task' Hr') as (Hasc & Hall & Hlast).
    split_and!; [done | by apply Hlast | by eapply Forall_le_weaken].
Qed.

Lemma times_ok_with_awaiting (f : gmap nat Settlement → gmap nat Settlement)
    (e : Env) (σ : Sys) :
  times_ok e σ → times_ok e (with_awaiting f σ).
Proof. done. Qed.

Lemma times_ok_turn (e : Env) (σ : Sys) (x : Turn) :
  monotone e → times_ok e σ → times_ok e (turn σ x).
Proof.
  intros Hmono Hok.
  destruct x as [a c hs | skill inp session | r | k out | k err]; cbn [turn].
  - done.
  - unfold sendTask_start.
    destruct (A2ATask_new skill inp session (env σ)) as [new e1] eqn:Hnew.
    cbn -[mutate].
    set (σ1 := with_a2a _ _).
    assert (times_ok_but (length (heap σ)) e σ1) as Hbut.
    { unfold A2ATask_new, generateTaskId, Date_now, randomHex in Hnew.
      simpl in Hnew. injection Hnew as <- <-.
      destruct Hok as [Hclock H]. split; [done|]. simpl.
      intros r' task'. rewrite Hclock.
      assert (∀ n m, (n ≤ m)%nat → clock e n ≤ clock e m) as Hm by apply Hmono.
      destruct (decide (r' < length (heap σ))%nat) as [Hlt|Hge].
      - rewrite lookup_app_l by done. intros Hr'.
        destruct (H r' task' Hr') as (Hasc & Hlast & Hall).
        split_and!; [done | | intros _; done].
        eapply Forall_le_weaken; [|done]. apply Hm. lia.
      - rewrite lookup_app_r by lia.
        destruct (r' - length (heap σ))%nat as [|n] eqn:Hn; simpl; [|done].
        intros [= <-]. simpl. split_and!; [done | | intros; lia].
        unfold timestamps. simpl. apply Forall_singleton. apply Hm. lia. }
    destruct (skill ≫= _) as [h|] eqn:Hh.
    + assert (times_ok e (mutate (length (heap σ)) (updateState WORKING JUndefined) σ1)) as Hw
        by (apply times_ok_mutate; [done | apply updateState_stamps | done]).
      destruct (heap _ !! length (heap σ)) as [working|]; [|done].
      destruct (h inp session working) as [thrown|s]; cbn -[mutate].
      * unfold catch_fail. destruct (get_message thrown); cbn -[mutate]; [|done].
        apply times_ok_mutate; [done | apply fail_stamps |].
        by apply times_ok_weaken.
      * done.
    + cbn -[mutate]. apply times_ok_mutate; [done | apply fail_stamps | done].
  - unfold sendTask_resume.
    destruct (awaiting σ !! r) as [[result | reason |]|]; cbn -[mutate]; try done.
    + apply times_ok_mutate; [done | apply complete_stamps |].
      by apply times_ok_weaken.
    + unfold catch_fail. destruct (get_message reason); cbn -[mutate]; [|done].
      apply times_ok_mutate; [done | apply fail_stamps |].
      by apply times_ok_weaken.
  - unfold handleTaskComplete. case_match; [|done].
    apply times_ok_mutate; [done | apply complete_stamps |].
    by apply times_ok_weaken.
  - unfold handleTaskFail. case_match; [|done].
    apply times_ok_mutate; [done | apply fail_stamps |].
    by apply times_ok_weaken.
Qed.

(** X6: timestamps.  On a server whose clock never runs backwards, every
    task carries its timestamps in chronological order: [createdAt] is not
    later than the first entry of the history, each entry is not later than
    the next, and [updatedAt] is the timestamp of the last entry. *)
Theorem history_is_chronological (turns : list Turn) (e : Env) (r : nat)
    (task : A2ATask) :
  monotone e →
  heap (run turns (init e)) !! r = Some task →
  ascending (createdAt task :: (h_timestamp <$> history task)) = true ∧
  last (h_timestamp <$> history task) = Some (updatedAt task) ∧
  createdAt task ≤ updatedAt task.
Proof.
  intros Hmono.
  assert (times_ok e (run turns (init e))) as [_ Hok].
  { induction turns as [|x turns IH] using rev_ind.
    - split; [done|]. intros r' task'. simpl. by rewrite lookup_nil.
    - rewrite a2a_run_snoc. by apply times_ok_turn. }
  intros Hr. destruct (Hok r task Hr) as (Hasc & Hlast & _).
  split_and!; [done | done |].
  unfold timestamps in Hasc. revert Hasc Hlast.
  generalize (h_timestamp <$> history task) (createdAt task) (updatedAt task).
  intros l. induction l as [|b l IH]; intros a u; [done|].
  change (ascending (a :: b :: l)) with ((a <=? b) && ascending (b :: l)).
  intros [Hab Hasc]%andb_true_iff Hlast.
  destruct l as [|c l].
  - simpl in Hlast. injection Hlast as <-. lia.
  - assert (b ≤ u); [|lia]. apply IH; [done|]. by rewrite last_cons_cons in Hlast.
Qed.

End A2AClockFacts.

(** The clock of the samples advances by one millisecond at each reading:
    the task sent to [play_by_mood] carries its timestamps in order. *)
Lemma history_is_chronological_witness :
  let turns := [A2A.Register "spotify" spotify_card spotify_handlers;
                A2A.Send (Some "play_by_mood") happy (Some "s1");
                A2A.Resume 0] in
  A2ARuns.monotone env0 ∧
  ∃ task, A2A.heap (A2A.run turns (A2A.init env0)) !! 0%nat = Some task ∧
    A2A.createdAt task ≤ A2A.updatedAt task.
Proof.
  intros turns.
  assert (A2ARuns.monotone env0) as Hmono by (intros n m H; simpl; lia).
  split; [exact Hmono|].
  destruct (A2A.heap (A2A.run turns (A2A.init env0)) !! 0%nat) as [task|] eqn:E.
  - exists task. split; [reflexivity|].
    by destruct (history_is_chronological turns env0 0 task Hmono E) as (_ & _ & ?).
  - vm_compute in E. discriminate.
Defined.


(* ===================================================================== *)
(** * The ['a2a:task:send'] event and the routes *)
(* ===================================================================== *)


Section A2ABusFacts.
Import A2A A2ARuns A2ABus.

Lemma sendTask_identity (skill : jsstring) (inp : jsval)
    (session : jsstring) (during : list Turn) (σ : Sys) (r : nat) :
  (sendTask skill inp session during σ).1 = Some (Returned r) →
  ∃ task, heap (sendTask skill inp session during σ).2 !! r = Some task ∧
    input task = inp ∧ skillId task = skill ∧ sessionId task = session ∧
    (state task = COMPLETED ∨ state task = FAILED).
Proof.
  intros Hret.
  destruct (sendTask_returned _ _ _ _ _ _ Hret) as (task & Htask & Hstate).
  exists task. split; [done|].
  pose proof (sendTask_returns_new _ _ _ _ _ _ Hret) as ->.
  revert Htask. unfold sendTask.
  destruct (sendTask_start_spec skill inp session σ)
    as (new & _ & Hheap & _ & Hi & Hk & Hs & _).
  assert (heap (sendTask_start skill inp session σ).2 !! length (heap σ) = Some new)
    as Hnew by (rewrite Hheap, lookup_app_r, Nat.sub_diag; done).
  destruct (sendTask_start skill inp session σ) as [[r0 [reply|]] σ1]; simpl in *.
  - rewrite Hnew. intros [= <-]. done.
  - intros Htask.
    destruct (run_appends σ1 (during ++ [Resume r0]) (length (heap σ)) new Hnew)
      as (task' & H' & (_ & Hs' & Hk' & Hi' & _) & _).
    rewrite a2a_run_snoc in H'. simpl in H'.
    assert (task' = task) as -> by congruence.
    split_and!; [congruence.. | done].
Qed.

(** X7: the answer to an ['a2a:task:send'] event.  [handleTaskSend]
    publishes at most one event, on the topic named by [responseEvent], and
    only once the task is resolved: the data published carries the session
    of the request, a task in state [COMPLETED] or [FAILED] with the skill
    and the input of the request, and the output and the error of that
    task.  Without a [responseEvent] it publishes nothing. *)
Theorem handleTaskSend_publishes_outcome (data : TaskSendData)
    (during : list Turn) (σ : Sys) :
  (∀ ev out,
     (handleTaskSend data during σ).1.1 = Some (ev, out) →
     d_responseEvent data = Some ev ∧ ev ≠ "" ∧
     o_sessionId out = d_sessionId data ∧
     j_sessionId (o_task out) = d_sessionId data ∧
     j_skillId (o_task out) = d_skillId data ∧
     j_input (o_task out) = d_input data ∧
     (j_state (o_task out) = COMPLETED ∨ j_state (o_task out) = FAILED) ∧
     o_result out = j_output (o_task out) ∧
     o_error out = j_error (o_task out)) ∧
  (d_responseEvent data = None ∨ d_responseEvent data = Some "" →
     (handleTaskSend data during σ).1.1 = None) ∧
  (∀ ev r, d_responseEvent data = Some ev → ev ≠ "" →
     (sendTask (d_skillId data) (d_input data) (d_sessionId data) during σ).1
       = Some (Returned r) →
     ∃ out, (handleTaskSend data during σ).1.1 = Some (ev, out)).
Proof.
  unfold handleTaskSend.
  pose proof (sendTask_identity (d_skillId data) (d_input data)
                (d_sessionId data) during σ) as Hid.
  destruct (sendTask _ _ _ during σ) as [[[r|e]|] σ'] eqn:Hsend; simpl in *.
  - destruct (Hid r eq_refl) as (task & -> & Hi & Hk & Hs & Hstate). simpl.
    split_and!.
    + intros ev out.
      destruct (d_responseEvent data) as [[|c k]|]; simpl; try done.
      intros [= <- <-]. simpl. by split_and!.
    + by intros [->| ->].
    + intros ev r' -> Hne _. destruct ev as [|c ev]; [done|]. by eexists.
  - split_and!; [done | done | ]. by intros ev r _ _ [=].
  - split_and!; [done | done | ]. by intros ev r _ _ [=].
Qed.

End A2ABusFacts.

Section A2ARouteFacts.
Import A2A A2ARuns.

(** The answer of the RPC route to a method it does not know. *)
Lemma post_rpc_unknown_method (req : RpcRequest) (during : list Turn) (σ : Sys) :
  jsonrpc req = Some "2.0" →
  method req ≠ Some "tasks/send" → method req ≠ Some "tasks/get" →
  method req ≠ Some "agents/list" → method req ≠ Some "agents/get" →
  post_rpc req during σ
  = (Some {| status := 400;
             body := createError (rpc_id req) (-32601)
                       (JStr ("Method not found: " +:+ interpolate (method req)))
                       JNull |}, σ).
Proof.
  intros Hv H1 H2 H3 H4. unfold post_rpc. rewrite Hv. simpl.
  destruct (method req) as [m|]; [|done].
  repeat (case_match; try done); subst; done.
Qed.

Lemma post_rpc_bad_version (req : RpcRequest) (during : list Turn) (σ : Sys) :
  jsonrpc req ≠ Some "2.0" →
  post_rpc req during σ
  = (Some {| status := 400;
             body := createError (rpc_id req) (-32600)
                       (JStr "Invalid JSON-RPC version") JNull |}, σ).
Proof.
  intros Hv. unfold post_rpc. by rewrite bool_decide_eq_false_2.
Qed.

Lemma post_rpc_known_method (req : RpcRequest) (during : list Turn) (σ : Sys)
    (resp : HttpResponse) :
  jsonrpc req = Some "2.0" → known_method (method req) →
  (post_rpc req during σ).1 = Some resp →
  (∃ result, resp = {| status := 200; body := createResponse (rpc_id req) result |}) ∨
  (∃ message,
     resp = {| status := 500; body := createError (rpc_id req) (-32603) message JNull |}).
Proof.
  intros Hv [Hm|[Hm|[Hm|Hm]]]; unfold post_rpc; rewrite Hv, Hm; simpl.
  - destruct (params req) as [p|]; simpl;
      [|intros [= <-]; right; by eexists].
    destruct (sendTask _ _ _ during σ) as [[[r|e]|] σ']; simpl;
      [| intros [= <-]; right; by eexists | done].
    destruct (heap σ' !! r); simpl; [|done].
    intros [= <-]. left. by eexists.
  - destruct (params req) as [p|]; simpl;
      [|intros [= <-]; right; by eexists].
    destruct (getTask _ _); simpl; intros [= <-]; [left | right]; by eexists.
  - intros [= <-]. left. by eexists.
  - destruct (params req) as [p|]; simpl;
      [|intros [= <-]; right; by eexists].
    destruct (getAgentCard _ _); simpl; intros [= <-]; [left | right]; by eexists.
Qed.

Lemma known_method_dec (m : jsstring) :
  known_method m ∨
  (m ≠ Some "tasks/send" ∧ m ≠ Some "tasks/get" ∧
   m ≠ Some "agents/list" ∧ m ≠ Some "agents/get").
Proof.
  unfold known_method.
  destruct (decide (m = Some "tasks/send")); [by left; left|].
  destruct (decide (m = Some "tasks/get")); [by left; right; left|].
  destruct (decide (m = Some "agents/list")); [by left; right; right; left|].
  destruct (decide (m = Some "agents/get")); [by left; right; right; right|].
  by right.
Qed.

(** X8: answers of the RPC route.  Every answer carries the id of its
    request.  Its HTTP status is 200 for a result, 400 for the error codes
    -32600 (version) and -32601 (method), 500 for -32603; no other code
    occurs. *)
Theorem rpc_answers_carry_request_id (req : RpcRequest) (during : list Turn)
    (σ : Sys) (resp : HttpResponse) :
  (post_rpc req during σ).1 = Some resp →
  (∃ result,
     resp = {| status := 200; body := createResponse (rpc_id req) result |}) ∨
  (∃ code message,
     resp = {| status := 400;
               body := createError (rpc_id req) code message JNull |} ∧
     (code = -32600 ∨ code = -32601)) ∨
  (∃ message,
     resp = {| status := 500;
               body := createError (rpc_id req) (-32603) message JNull |}).
Proof.
  destruct (decide (jsonrpc req = Some "2.0")) as [Hv|Hv];
    [|rewrite post_rpc_bad_version by done; intros [= <-];
      right; left; eexists _, _; split; [done | by left]].
  destruct (known_method_dec (method req)) as [Hm|(H1 & H2 & H3 & H4)].
  - intros H. destruct (post_rpc_known_method req during σ resp Hv Hm H) as [?|?].
    + by left.
    + by right; right.
  - rewrite post_rpc_unknown_method by done. intros [= <-].
    right; left; eexists _, _; split; [done | by right].
Qed.


Lemma sendTask_without_skill (inp : jsval) (session : jsstring)
    (during : list Turn) (σ : Sys) :
  ∃ new,
    (sendTask None inp session during σ).1 = Some (Returned (length (heap σ))) ∧
    heap (sendTask None inp session during σ).2 = heap σ ++ [new] ∧
    skillId new = None ∧ state new = FAILED ∧
    error new = JStr "No handler for skill: undefined" ∧
    h_state <$> history new = [FAILED].
Proof.
  unfold sendTask.
  destruct (sendTask_start_spec None inp session σ)
    as (new & _ & Hheap & _ & _ & Hk & _ & Hst).
  destruct (sendTask_start None inp session σ) as [[r0 reply] σ1]; simpl in *.
  exists new.
  inversion Hst as [Hnone Hstates Hstate Herr Hmsg Haw Heq | | |];
    subst; simpl in *; try discriminate.
  by split_and!.
Qed.

(** X10: the RPC route does not check [skillId].  A [tasks/send] request
    whose params hold no [skillId] is not rejected as on the REST route
    (status 400, code -32602): a task is created, fails at once for want of
    a handler, and is answered with status 200. *)
Theorem rpc_send_accepts_missing_skill (req : RpcRequest) (p : Params)
    (during : list Turn) (σ : Sys) :
  jsonrpc req = Some "2.0" → method req = Some "tasks/send" →
  params req = Some p → p_skillId p = None →
  ∃ j,
    (post_rpc req during σ).1
      = Some {| status := 200;
                body := createResponse (rpc_id req) (ResultTask j) |} ∧
    length (heap (post_rpc req during σ).2) = S (length (heap σ)) ∧
    j_skillId j = None ∧
    j_state j = FAILED ∧
    j_error j = JStr "No handler for skill: undefined" ∧
    h_state <$> j_history j = [FAILED].
Proof.
  intros Hv Hm Hp Hs.
  destruct (sendTask_without_skill (p_input p) (p_sessionId p) during σ)
    as (new & Hsend & Hheap & Hk & Hstate & Herr & Hh).
  unfold post_rpc. rewrite Hv, Hm, Hp, Hs. cbn [negb bool_decide decide_rel].
  rewrite bool_decide_eq_true_2 by done. cbn [negb].
  destruct (sendTask None (p_input p) (p_sessionId p) during σ) as [reply σ'].
  simpl in Hsend, Hheap. subst reply.
  rewrite Hheap, lookup_app_r, Nat.sub_diag by done. simpl.
  exists (toJSON new). split_and!; try done.
  rewrite Hheap, length_app. simpl. lia.
Qed.

End A2ARouteFacts.

(** A request for a task that does not exist: status 500 with the id of
    the request. *)
Lemma rpc_answers_carry_request_id_witness :
  let req := {| A2A.jsonrpc := Some "2.0"; A2A.rpc_id := A2A.JNum 7;
                A2A.method := Some "tasks/get";
                A2A.params := Some {| A2A.p_skillId := None;
                                      A2A.p_input := A2A.JUndefined;
                                      A2A.p_sessionId := None;
                                      A2A.p_taskId := Some "task_0_missing";
                                      A2A.p_agentId := None |} |} in
  let resp := {| A2A.status := 500;
                 A2A.body := A2A.createError (A2A.JNum 7) (-32603)
                               (A2A.JStr "Task not found") A2A.JNull |} in
  (∃ result,
     resp = {| A2A.status := 200;
               A2A.body := A2A.createResponse (A2A.rpc_id req) result |}) ∨
  (∃ code message,
     resp = {| A2A.status := 400;
               A2A.body := A2A.createError (A2A.rpc_id req) code message A2A.JNull |} ∧
     (code = -32600 ∨ code = -32601)) ∨
  (∃ message,
     resp = {| A2A.status := 500;
               A2A.body := A2A.createError (A2A.rpc_id req) (-32603) message A2A.JNull |}).
Proof.
  intros req resp.
  apply (rpc_answers_carry_request_id req [] registered resp).
  vm_compute. reflexivity.
Defined.


(** A [tasks/send] request without [skillId]: a failed task, status 200. *)
Lemma rpc_send_accepts_missing_skill_witness :
  let p := {| A2A.p_skillId := None; A2A.p_input := happy;
              A2A.p_sessionId := Some "s1"; A2A.p_taskId := None;
              A2A.p_agentId := None |} in
  let req := {| A2A.jsonrpc := Some "2.0"; A2A.rpc_id := A2A.JNum 8;
                A2A.method := Some "tasks/send"; A2A.params := Some p |} in
  ∃ j,
    (A2A.post_rpc req [] registered).1
      = Some {| A2A.status := 200;
                A2A.body := A2A.createResponse (A2A.JNum 8) (A2A.ResultTask j) |} ∧
    A2A.j_state j = A2A.FAILED ∧
    A2A.j_error j = A2A.JStr "No handler for skill: undefined".
Proof.
  intros p req.
  destruct (rpc_send_accepts_missing_skill req p [] registered)
    as (j & H & _ & _ & Hstate & Herr & _); try reflexivity.
  exists j. by split_and!.
Defined.


(* ===================================================================== *)
(** * More properties of the speech agent: the WAV file, timers, voice
      activity *)
(* ===================================================================== *)


Section WavFacts.
Import SpeechAgent SpeechRuns.

Lemma byte_to_of_Z (z : Z) : byte_to_Z (byte_of_Z z) = z mod 256.
Proof.
  unfold byte_to_Z, byte_of_Z.
  assert (0 ≤ z mod 256 < 256) as Hz by (apply Z.mod_pos_bound; lia).
  destruct (Byte.of_N (Z.to_N (z mod 256))) as [b|] eqn:Hb; simpl.
  - apply Byte.to_of_N in Hb. rewrite Hb. lia.
  - apply Byte.of_N_None_iff in Hb. lia.
Qed.

Lemma readUIntLE_u16le (z : Z) : 0 ≤ z < 65536 → readUIntLE (u16le z) = z.
Proof.
  intros Hz.
  unfold u16le. cbn [readUIntLE]. rewrite !byte_to_of_Z.
  assert (0 ≤ z / 256 < 256) as H1.
  { split; [apply Z.div_pos; lia | apply Z.div_lt_upper_bound; lia]. }
  rewrite (Z.mod_small (z / 256)) by done.
  pose proof (Z.div_mod z 256 ltac:(done)) as H.
  revert H. generalize (z / 256) (z mod 256). intros q r H. lia.
Qed.

Lemma readUIntLE_u32le (z : Z) : 0 ≤ z < 4294967296 → readUIntLE (u32le z) = z.
Proof.
  intros Hz.
  unfold u32le. cbn [readUIntLE]. rewrite !byte_to_of_Z.
  replace (z / 65536) with (z / 256 / 256)
    by (rewrite Z.div_div by done; reflexivity).
  replace (z / 16777216) with (z / 256 / 256 / 256)
    by (rewrite !Z.div_div by done; reflexivity).
  assert (0 ≤ z / 256 / 256 / 256 < 256) as H3.
  { split; [repeat apply Z.div_pos; lia|].
    repeat (apply Z.div_lt_upper_bound; [done|]). lia. }
  rewrite (Z.mod_small (z / 256 / 256 / 256)) by done.
  pose proof (Z.div_mod z 256 ltac:(done)) as H0.
  pose proof (Z.div_mod (z / 256) 256 ltac:(done)) as H1.
  pose proof (Z.div_mod (z / 256 / 256) 256 ltac:(done)) as H2.
  revert H0 H1 H2.
  generalize (z / 256 / 256 / 256) ((z / 256 / 256) mod 256)
             ((z / 256) mod 256) (z mod 256).
  intros q3 r2 r1 r0.
  generalize (z / 256 / 256) (z / 256). intros q2 q1. lia.
Qed.

(** X11: the WAV file.  For PCM data of at most 4294967259 bytes,
    [pcmToWav] returns a file of 44 more bytes whose fields, read back in
    little-endian order, are consistent: a RIFF chunk whose size is the
    length of the file less 8, a 16-byte PCM format chunk for one channel
    of 16-bit samples at 16000 Hz (32000 bytes per second, frames of 2
    bytes), and a data chunk whose size is the length of the PCM data,
    followed by the PCM data unchanged.  For longer data the 32-bit size
    field cannot be written and the call throws. *)
Theorem pcmToWav_header (pcm : list byte) :
  (Z.of_nat (length pcm) ≤ 4294967259 →
   ∃ wav, pcmToWav pcm = Some wav ∧
     length wav = (44 + length pcm)%nat ∧
     field 0 4 wav = String.list_byte_of_string "RIFF" ∧
     readUIntLE (field 4 4 wav) = Z.of_nat (length wav) - 8 ∧
     field 8 8 wav = String.list_byte_of_string "WAVEfmt " ∧
     readUIntLE (field 16 4 wav) = 16 ∧
     readUIntLE (field 20 2 wav) = 1 ∧
     readUIntLE (field 22 2 wav) = 1 ∧
     readUIntLE (field 24 4 wav) = 16000 ∧
     readUIntLE (field 28 4 wav) = 32000 ∧
     readUIntLE (field 32 2 wav) = 2 ∧
     readUIntLE (field 34 2 wav) = 16 ∧
     field 36 4 wav = String.list_byte_of_string "data" ∧
     readUIntLE (field 40 4 wav) = Z.of_nat (length pcm) ∧
     drop 44 wav = pcm) ∧
  (4294967259 < Z.of_nat (length pcm) → pcmToWav pcm = None).
Proof.
  unfold pcmToWav. split; intros Hn.
  - destruct (4294967295 <? 36 + Z.of_nat (length pcm)) eqn:Hlt; [lia|].
    eexists. split; [done|].
    change (String.list_byte_of_string "RIFF") with [x52; x49; x46; x46].
    change (String.list_byte_of_string "WAVE") with [x57; x41; x56; x45].
    change (String.list_byte_of_string "fmt ") with [x66; x6d; x74; x20].
    change (String.list_byte_of_string "data") with [x64; x61; x74; x61].
    change (String.list_byte_of_string "WAVEfmt ")
      with [x57; x41; x56; x45; x66; x6d; x74; x20].
    change (16000 * 1 * 16 / 8) with 32000. change (1 * 16 / 8) with 2.
    unfold field. cbn [app take drop u16le u32le].
    rewrite take_0.
    split_and!; try reflexivity.
    + change [byte_of_Z (36 + Z.of_nat (length pcm));
              byte_of_Z ((36 + Z.of_nat (length pcm)) / 256);
              byte_of_Z ((36 + Z.of_nat (length pcm)) / 65536);
              byte_of_Z ((36 + Z.of_nat (length pcm)) / 16777216)]
        with (u32le (36 + Z.of_nat (length pcm))).
      rewrite readUIntLE_u32le by lia. cbn [length]. lia.
    + change [byte_of_Z (Z.of_nat (length pcm));
              byte_of_Z (Z.of_nat (length pcm) / 256);
              byte_of_Z (Z.of_nat (length pcm) / 65536);
              byte_of_Z (Z.of_nat (length pcm) / 16777216)]
        with (u32le (Z.of_nat (length pcm))).
      rewrite readUIntLE_u32le by lia. done.
  - destruct (4294967295 <? 36 + Z.of_nat (length pcm)) eqn:Hlt; [done|lia].
Qed.

End WavFacts.

Section TimerFacts.
Import SpeechAgent SpeechRuns.

Lemma handles_clear_noaudio sil m next arm (s : string) (timer : nat) :
  handles_ok sil (Some m) next arm → m !! s = Some timer →
  handles_ok sil (Some (delete s m)) next (delete timer arm).
Proof.
  intros (H1 & H2 & H3 & H4) Hs. split_and!.
  - intros s' t. rewrite H1. destruct (decide (t = timer)) as [->|Hne].
    + rewrite lookup_delete_eq. split; [|done].
      intros Harm. by destruct (proj2 (H4 m s timer eq_refl Hs) s').
    + by rewrite lookup_delete_ne.
  - intros t s'. destruct (decide (t = timer)) as [->|Hne].
    + by rewrite lookup_delete_eq.
    + rewrite lookup_delete_ne by done. intros Harm.
      destruct (H2 t s' Harm) as (m' & [= <-] & Hm').
      exists (delete s m). split; [done|].
      rewrite lookup_delete_ne; [done|]. intros ->. congruence.
  - intros t. destruct (decide (t = timer)) as [->|Hne].
    + rewrite lookup_delete_eq. by intros [? ?].
    + rewrite lookup_delete_ne by done. apply H3.
  - intros m' s' t [= <-] Hm'.
    assert (m !! s' = Some t) as Hm.
    { destruct (decide (s = s')) as [->|Hne];
        [by rewrite lookup_delete_eq in Hm' | by rewrite lookup_delete_ne in Hm']. }
    destruct (H4 m s' t eq_refl Hm) as [Hlt Hns]. split; [done|].
    intros s''. destruct (decide (t = timer)) as [->|Hne].
    + by rewrite lookup_delete_eq.
    + rewrite lookup_delete_ne by done. apply Hns.
Qed.

Lemma handles_set_noaudio sil noa next arm (s : string) :
  handles_ok sil noa next arm → default ∅ noa !! s = None →
  handles_ok sil (Some (<[s := next]> (default ∅ noa))) (S next)
             (<[next := (NoAudioTimer, s)]> arm).
Proof.
  intros (H1 & H2 & H3 & H4) Hs.
  assert (arm !! next = None) as Hfresh.
  { destruct (arm !! next) eqn:E; [|done].
    assert (next < next)%nat by (apply H3; by eexists). lia. }
  split_and!.
  - intros s' t. rewrite H1. destruct (decide (t = next)) as [->|Hne].
    + rewrite lookup_insert_eq, Hfresh. split; [done | by intros [=]].
    + by rewrite lookup_insert_ne.
  - intros t s'. destruct (decide (t = next)) as [->|Hne].
    + rewrite lookup_insert_eq. intros [= <-]. eexists. split; [done|].
      by rewrite lookup_insert_eq.
    + rewrite lookup_insert_ne by done. intros Harm.
      destruct (H2 t s' Harm) as (m' & -> & Hm'). simpl in *.
      eexists. split; [done|]. rewrite lookup_insert_ne; [done|].
      intros ->. congruence.
  - intros t. destruct (decide (t = next)) as [->|Hne]; [lia|].
    rewrite lookup_insert_ne by done. intros Ht. apply H3 in Ht. lia.
  - intros m' s' t [= <-].
    destruct (decide (s = s')) as [->|Hne].
    + rewrite lookup_insert_eq. intros [= <-]. split; [lia|].
      intros s''. by rewrite lookup_insert_eq.
    + rewrite lookup_insert_ne by done. intros Hm'.
      destruct noa as [m|]; simpl in *; [|by rewrite lookup_empty in Hm'].
      destruct (H4 m s' t eq_refl Hm') as [Hlt Hns]. split; [lia|].
      intros s''. rewrite lookup_insert_ne by lia. apply Hns.
Qed.

Lemma handles_clear_silence sil noa next arm (s : string) (timer : nat) :
  handles_ok sil noa next arm → sil !! s = Some timer →
  handles_ok (delete s sil) noa next (delete timer arm).
Proof.
  intros (H1 & H2 & H3 & H4) Hs.
  assert (arm !! timer = Some (SilenceTimer, s)) as Harm by by apply H1.
  split_and!.
  - intros s' t. destruct (decide (t = timer)) as [->|Hne].
    + rewrite lookup_delete_eq. split; [|done].
      destruct (decide (s = s')) as [->|Hne'].
      * by rewrite lookup_delete_eq.
      * rewrite lookup_delete_ne by done. rewrite H1. congruence.
    + rewrite (lookup_delete_ne arm) by done. rewrite <- H1.
      destruct (decide (s = s')) as [->|Hne'].
      * rewrite lookup_delete_eq. split; [done | congruence].
      * by rewrite lookup_delete_ne.
  - intros t s'. destruct (decide (t = timer)) as [->|Hne].
    + by rewrite lookup_delete_eq.
    + rewrite lookup_delete_ne by done. apply H2.
  - intros t. destruct (decide (t = timer)) as [->|Hne].
    + rewrite lookup_delete_eq. by intros [? ?].
    + rewrite lookup_delete_ne by done. apply H3.
  - intros m s' t Hm Hm'. destruct (H4 m s' t Hm Hm') as [Hlt Hns].
    split; [done|]. intros s''. destruct (decide (t = timer)) as [->|Hne].
    + by rewrite lookup_delete_eq.
    + rewrite lookup_delete_ne by done. apply Hns.
Qed.

Lemma handles_set_silence sil noa next arm (s : string) :
  handles_ok sil noa next arm → sil !! s = None →
  handles_ok (<[s := next]> sil) noa (S next)
             (<[next := (SilenceTimer, s)]> arm).
Proof.
  intros (H1 & H2 & H3 & H4) Hs.
  assert (arm !! next = None) as Hfresh.
  { destruct (arm !! next) eqn:E; [|done].
    assert (next < next)%nat by (apply H3; by eexists). lia. }
  split_and!.
  - intros s' t. destruct (decide (t = next)) as [->|Hne].
    + rewrite lookup_insert_eq. destruct (decide (s = s')) as [->|Hne'].
      * by rewrite lookup_insert_eq.
      * rewrite lookup_insert_ne by done. rewrite H1, Hfresh.
        split; [done | congruence].
    + rewrite (lookup_insert_ne arm) by done. rewrite <- H1.
      destruct (decide (s = s')) as [->|Hne'].
      * rewrite lookup_insert_eq, Hs. split; [congruence | done].
      * by rewrite lookup_insert_ne.
  - intros t s'. destruct (decide (t = next)) as [->|Hne].
    + by rewrite lookup_insert_eq.
    + rewrite lookup_insert_ne by done. apply H2.
  - intros t. destruct (decide (t = next)) as [->|Hne]; [lia|].
    rewrite lookup_insert_ne by done. intros Ht. apply H3 in Ht. lia.
  - intros m s' t Hm Hm'. destruct (H4 m s' t Hm Hm') as [Hlt Hns].
    split; [lia|]. intros s''. rewrite lookup_insert_ne by lia. apply Hns.
Qed.

Lemma handles_fire_noaudio sil noa next arm (s : string) (timer : nat) :
  handles_ok sil noa next arm → arm !! timer = Some (NoAudioTimer, s) →
  handles_ok sil noa next (delete timer arm).
Proof.
  intros (H1 & H2 & H3 & H4) Harm. split_and!.
  - intros s' t. rewrite H1. destruct (decide (t = timer)) as [->|Hne].
    + rewrite lookup_delete_eq, Harm. split; [congruence | done].
    + by rewrite lookup_delete_ne.
  - intros t s'. destruct (decide (t = timer)) as [->|Hne].
    + by rewrite lookup_delete_eq.
    + rewrite lookup_delete_ne by done. apply H2.
  - intros t. destruct (decide (t = timer)) as [->|Hne].
    + rewrite lookup_delete_eq. by intros [? ?].
    + rewrite lookup_delete_ne by done. apply H3.
  - intros m s' t Hm Hm'. destruct (H4 m s' t Hm Hm') as [Hlt Hns].
    split; [done|]. intros s''. destruct (decide (t = timer)) as [->|Hne].
    + by rewrite lookup_delete_eq.
    + rewrite lookup_delete_ne by done. apply Hns.
Qed.

Lemma timers_ok_clear_silence (s : string) (a : t) :
  timers_ok a → timers_ok (clear_silence_timer s a).
Proof.
  intros H. unfold clear_silence_timer.
  destruct (silenceTimers a !! s) as [timer|] eqn:Hs; [|done].
  by apply handles_clear_silence.
Qed.

Lemma processAudio_timers (s : string) (a : t) :
  silenceTimers (processAudio s a).1 = silenceTimers a ∧
  noAudioTimers (processAudio s a).1 = noAudioTimers a ∧
  timers (processAudio s a).1 = timers a.
Proof. unfold processAudio. by repeat case_match. Qed.

Lemma timers_ok_processAudio (s : string) (a : t) :
  timers_ok a → timers_ok (processAudio s a).1.
Proof.
  unfold timers_ok.
  by destruct (processAudio_timers s a) as (-> & -> & ->).
Qed.

Lemma timers_ok_handleAudio (s : string) (frame : list byte) (a : t) :
  timers_ok a → timers_ok (handleAudio s frame a).1.
Proof.
  intros H0. unfold handleAudio.
  set (a1 := match audioBuffers a !! s with
             | Some _ => a
             | None => set_isSpeaking s false (set_audioBuffers (insert s []) a)
             end).
  assert (timers_ok a1) as H1 by (subst a1; by destruct (audioBuffers a !! s)).
  clearbody a1. clear H0 a.
  set (a2 := match noAudioTimers a1 with
             | Some m => match m !! s with Some _ => _ | None => a1 end
             | None => a1
             end).
  assert (timers_ok a2 ∧ default ∅ (noAudioTimers a2) !! s = None ∧
          speaking s a2 = speaking s a1) as (H2 & Hnone & Hsp).
  { subst a2. destruct (noAudioTimers a1) as [m|] eqn:Hm;
      [|split_and!; [done | by rewrite Hm | done]].
    destruct (m !! s) as [timer|] eqn:Hs.
    - split_and!; [|simpl; by rewrite lookup_delete_eq | done].
      unfold timers_ok in *. simpl. rewrite Hm in H1.
      by apply handles_clear_noaudio.
    - split_and!; [done | by rewrite Hm | done]. }
  clearbody a2. clear H1 Hsp a1.
  set (a3 := if speaking s a2 then _ else a2).
  assert (timers_ok a3 ∧ speaking s a3 = speaking s a2 ∧
          silenceTimers a3 = silenceTimers a2) as (H3 & Hsp & Hsil).
  { subst a3. destruct (speaking s a2) eqn:E; [|by split_and!].
    split_and!; [|done..]. unfold timers_ok in *. simpl.
    by apply handles_set_noaudio. }
  clearbody a3. clear H2 Hnone Hsp Hsil a2.
  destruct (PrimFloat.ltb _ _).
  - destruct (negb (speaking s a3)); simpl;
      apply timers_ok_clear_silence; exact H3.
  - destruct (speaking s a3); [|done]. simpl.
    destruct (silenceTimers a3 !! s) eqn:Hs; [done|]. simpl.
    unfold timers_ok in *. simpl. by apply handles_set_silence.
Qed.

Lemma timers_ok_turn (a : t) (x : Turn) : timers_ok a → timers_ok (turn a x).1.
Proof.
  intros H. destruct x as [s frame | s | timer | s r]; cbn [turn].
  - by apply timers_ok_handleAudio.
  - unfold processAudioNow. by apply timers_ok_processAudio, timers_ok_clear_silence.
  - destruct (armed (timers a) !! timer) as [[kind s]|] eqn:Harm; [|done].
    destruct kind; cbn [timeout].
    + apply timers_ok_processAudio. unfold timers_ok in *. simpl.
      apply handles_clear_silence; [done|]. by apply H.
    + set (a' := set_timers _ a).
      assert (timers_ok a') as H'
        by (unfold timers_ok in *; simpl; by eapply handles_fire_noaudio).
      destruct (_ && _); [|done].
      by apply timers_ok_processAudio, timers_ok_clear_silence.
  - unfold processAudio_resume. by repeat case_match.
Qed.

Lemma speech_run_snoc (turns : list Turn) (x : Turn) (a : t) :
  run (turns ++ [x]) a
  = ((turn (run turns a).1 x).1, (run turns a).2 ++ (turn (run turns a).1 x).2).
Proof.
  unfold run. rewrite foldl_app. simpl.
  destruct (foldl _ _ turns) as [a' out]. simpl. by destruct (turn a' x).
Qed.

Lemma timers_ok_run (turns : list Turn) : timers_ok (run turns new).1.
Proof.
  induction turns as [|x turns IH] using rev_ind.
  - unfold timers_ok, handles_ok. simpl. split_and!.
    + intros s t. split; intros H; by apply lookup_empty_Some in H.
    + intros t s H. by apply lookup_empty_Some in H.
    + intros t [? H]. by apply lookup_empty_Some in H.
    + done.
  - rewrite speech_run_snoc. simpl. by apply timers_ok_turn.
Qed.

(** X12: timers do not pile up.  In every run of the agent, the silence
    timer recorded for a session is pending and no other silence timer of
    the session is; every pending no-audio timer is the one recorded for
    its session.  So a session has at most one pending timer of each
    kind. *)
Theorem one_timer_of_each_kind (turns : list Turn) :
  let a := (run turns new).1 in
  (∀ s timer,
     silenceTimers a !! s = Some timer ↔
     armed (timers a) !! timer = Some (SilenceTimer, s)) ∧
  (∀ timer s,
     armed (timers a) !! timer = Some (NoAudioTimer, s) →
     ∃ m, noAudioTimers a = Some m ∧ m !! s = Some timer) ∧
  (∀ kind s timer timer',
     armed (timers a) !! timer = Some (kind, s) →
     armed (timers a) !! timer' = Some (kind, s) →
     timer = timer').
Proof.
  simpl. destruct (timers_ok_run turns) as (H1 & H2 & H3 & H4).
  split_and!; [done | done |].
  intros [] s t t' Ht Ht'.
  - apply H1 in Ht, Ht'. congruence.
  - destruct (H2 t s Ht) as (m & Hm & Hs).
    destruct (H2 t' s Ht') as (m' & Hm' & Hs'). congruence.
Qed.

End TimerFacts.

Section VadFacts.
Import SpeechAgent SpeechRuns.

Lemma handleAudio_effects (s : string) (frame : list byte) (a : t) :
  (handleAudio s frame a).2
  = if is_speech frame && negb (in_speech s a)
    then [ListeningState s "listening"] else [].
Proof.
  unfold handleAudio, is_speech, in_speech, speaking, clear_silence_timer.
  repeat case_match; simpl in *; simplify_map_eq; try done;
    try (match goal with
         | H1 : negb ?x = _, H2 : ?x = _ |- _ => rewrite H2 in H1; discriminate
         end);
    try congruence.
Qed.

Lemma handleAudio_silenceTimers (s : string) (frame : list byte) (a : t) :
  (is_speech frame = true → silenceTimers (handleAudio s frame a).1 !! s = None) ∧
  (is_speech frame = false → in_speech s a = true →
     is_Some (silenceTimers (handleAudio s frame a).1 !! s) ∧
     (is_Some (silenceTimers a !! s) →
        silenceTimers (handleAudio s frame a).1 = silenceTimers a)) ∧
  (is_speech frame = false → in_speech s a = false →
     silenceTimers (handleAudio s frame a).1 = silenceTimers a) ∧
  (∀ s', s' ≠ s →
     silenceTimers (handleAudio s frame a).1 !! s' = silenceTimers a !! s' ∧
     in_speech s' (handleAudio s frame a).1 = in_speech s' a).
Proof.
  unfold handleAudio, is_speech, in_speech, speaking, clear_silence_timer.
  repeat case_match; simpl in *; simplify_map_eq;
    try (match goal with
         | H1 : negb ?x = _, H2 : ?x = _ |- _ => rewrite H2 in H1; discriminate
         end);
    try congruence;
    (split_and!; try done; try (intros; discriminate);
     try (intros; split; [by eexists | by intros [? ?]]);
     try (intros s' Hs'; by rewrite ?lookup_insert_ne, ?lookup_delete_ne by done)).
  all: intros; try congruence.
  all: split; [eauto | intros [? ?]; congruence || done].
Qed.

(** X13: voice activity detection.  A frame is announced to the client as
    the start of listening exactly when it is speech and the session was
    not speaking; from then on the session is speaking.  A frame of speech
    cancels the silence countdown of the session.  A silent frame while the
    session is speaking starts the countdown, and does not restart one that
    is running.  A silent frame while the session is not speaking is
    ambient noise: it is not buffered and starts nothing.  Other sessions
    are not touched. *)
Theorem voice_activity_detection (s : string) (frame : list byte) (a : t) :
  let a' := (handleAudio s frame a).1 in
  (handleAudio s frame a).2
    = (if is_speech frame && negb (in_speech s a)
       then [ListeningState s "listening"] else []) ∧
  in_speech s a' = is_speech frame || in_speech s a ∧
  (is_speech frame = true → silenceTimers a' !! s = None) ∧
  (is_speech frame = false → in_speech s a = true →
     is_Some (silenceTimers a' !! s) ∧
     (is_Some (silenceTimers a !! s) → silenceTimers a' = silenceTimers a)) ∧
  (is_speech frame = false → in_speech s a = false →
     silenceTimers a' = silenceTimers a ∧
     audioBuffers a' !! s = Some (default [] (audioBuffers a !! s))) ∧
  (∀ s', s' ≠ s →
     in_speech s' a' = in_speech s' a ∧
     audioBuffers a' !! s' = audioBuffers a !! s' ∧
     silenceTimers a' !! s' = silenceTimers a !! s').
Proof.
  simpl.
  destruct (handleAudio_buffers s frame a) as (Hbuf & Hsp & _ & Hother).
  destruct (handleAudio_silenceTimers s frame a) as (H1 & H2 & H3 & H4).
  split_and!; [apply handleAudio_effects | done | done | done | |].
  - intros Hf Hs. split; [by apply H3|].
    by rewrite Hbuf, Hf, Hs, app_nil_r.
  - intros s' Hs'. destruct (H4 s' Hs') as [? ?]. split_and!; [done | | done].
    by apply Hother.
Qed.

Lemma processAudio_other (s s' : string) (a : t) :
  s' ≠ s →
  processing s (processAudio s' a).1 = processing s a ∧
  audioBuffers (processAudio s' a).1 !! s = audioBuffers a !! s ∧
  ∀ wav, Transcribe s wav ∉ (processAudio s' a).2.
Proof.
  intros Hne. unfold processAudio, processing.
  repeat case_match; simpl; simplify_map_eq;
    (split_and!; [done..|]); intros wav Hin;
    repeat (apply elem_of_cons in Hin as [Hin|Hin]; [congruence|]);
    by apply elem_of_nil in Hin.
Qed.

Lemma processAudio_busy (s : string) (a : t) :
  processing s a = true → processAudio s a = (a, []).
Proof. intros H. unfold processAudio. by rewrite H. Qed.

Lemma flush_while_busy (s s' : string) (a : t) :
  processing s a = true →
  processing s (processAudio s' a).1 = true ∧
  audioBuffers (processAudio s' a).1 !! s = audioBuffers a !! s ∧
  ∀ wav, Transcribe s wav ∉ (processAudio s' a).2.
Proof.
  intros H. destruct (decide (s' = s)) as [->|Hne].
  - rewrite processAudio_busy by done. split_and!; [done..|].
    intros wav. apply not_elem_of_nil.
  - destruct (processAudio_other s s' a Hne) as (-> & -> & ?). done.
Qed.

(** X14: one transcription at a time.  While the transcription of a session
    is awaited, nothing that happens (audio of any session, a request to
    stop listening, a timer that fires, the transcription of another
    session) starts a second transcription for this session or ends the
    wait, and the frames buffered for the session stay in the buffer. *)
Theorem one_transcription_at_a_time (a : t) (s : string) (x : Turn) :
  processing s a = true →
  (∀ r, x ≠ Transcribed s r) →
  processing s (turn a x).1 = true ∧
  (∀ wav, Transcribe s wav ∉ (turn a x).2) ∧
  default [] (audioBuffers a !! s)
    `prefix_of` default [] (audioBuffers (turn a x).1 !! s).
Proof.
  intros Hbusy Hx. destruct x as [s' frame | s' | timer | s' r]; cbn [turn].
  - destruct (handleAudio_buffers s' frame a) as (Hbuf & _ & Hproc & Hother).
    split_and!.
    + unfold processing in *. by rewrite Hproc.
    + intros wav. rewrite handleAudio_effects.
      destruct (_ && _); [|apply not_elem_of_nil].
      intros [=]%list_elem_of_singleton.
    + destruct (decide (s' = s)) as [->|Hne].
      * rewrite Hbuf. simpl. by eexists.
      * by rewrite Hother.
  - unfold processAudioNow.
    assert (processing s (clear_silence_timer s' a) = true ∧
            audioBuffers (clear_silence_timer s' a) = audioBuffers a) as [Hb Hbuf]
      by (unfold clear_silence_timer; by destruct (silenceTimers a !! s')).
    destruct (flush_while_busy s s' _ Hb) as (-> & -> & ?).
    by rewrite Hbuf.
  - destruct (armed (timers a) !! timer) as [[kind s']|];
      [|split_and!; [done | intros wav; apply not_elem_of_nil | done]].
    destruct kind; cbn [timeout].
    + set (a' := set_silenceTimers _ _).
      assert (processing s a' = true) as Hb by done.
      destruct (flush_while_busy s s' _ Hb) as (-> & -> & ?). done.
    + destruct (_ && _);
        [|split_and!; [done | intros wav; apply not_elem_of_nil | done]].
      set (a' := clear_silence_timer _ _).
      assert (processing s a' = true ∧ audioBuffers a' = audioBuffers a) as [Hb Hbuf]
        by (subst a'; unfold clear_silence_timer; simpl;
            by destruct (silenceTimers a !! s')).
      destruct (flush_while_busy s s' _ Hb) as (-> & -> & ?).
      by rewrite Hbuf.
  - assert (s' ≠ s) as Hne by (intros ->; by apply (Hx r)).
    unfold processAudio_resume.
    destruct (negb (processing s' a));
      [split_and!; [done | intros wav; apply not_elem_of_nil | done]|].
    simpl. split_and!.
    + rewrite processing_set. by rewrite decide_False.
    + intros wav Hin. repeat case_match;
        repeat (apply elem_of_cons in Hin as [Hin|Hin]; [congruence|]);
        by apply elem_of_nil in Hin.
    + done.
Qed.

End VadFacts.

(** While the transcription of ["s1"] is awaited, a request to stop
    listening starts nothing for it. *)
Lemma one_transcription_at_a_time_witness :
  let a := SpeechAgent.set_audioBuffers (insert "s1" [loud_frame])
             (SpeechAgent.set_isProcessing "s1" true SpeechAgent.new) in
  SpeechAgent.processing "s1" a = true ∧
  SpeechAgent.processing "s1"
    (SpeechAgent.turn a (SpeechAgent.ProcessNow "s1")).1 = true ∧
  ∀ wav,
    SpeechAgent.Transcribe "s1" wav
      ∉ (SpeechAgent.turn a (SpeechAgent.ProcessNow "s1")).2.
Proof.
  intros a.
  assert (SpeechAgent.processing "s1" a = true) as Hbusy by reflexivity.
  split; [exact Hbusy|].
  destruct (one_transcription_at_a_time a "s1" (SpeechAgent.ProcessNow "s1") Hbusy)
    as (H1 & H2 & _); [intros r; discriminate|].
  by split.
Defined.


Section ThresholdFacts.
Import SpeechAgent Binary64 SpeechRuns.

Lemma holds_from_spec (p : Z → bool) (n : nat) (c : Z) :
  holds_from n c p = true → ∀ x, c ≤ x < c + Z.of_nat n → p x = true.
Proof.
  revert c. induction n as [|n IH]; intros c H x Hx; [lia|].
  simpl in H. apply andb_prop in H as [Hc H].
  destruct (decide (x = c)) as [-> | Hne]; [done|].
  apply (IH (c + 1)); [done | lia].
Qed.

(** The amplitudes from 0 to 32768, one by one: the root of the square is
    the amplitude, and the level is above the threshold from 656 on. *)
Lemma amplitudes_checked :
  holds_from (Z.to_nat 32769) 0
    (λ c, PrimFloat.Leibniz.eqb (PrimFloat.sqrt (number (c * c))) (number c) &&
          Bool.eqb (PrimFloat.ltb SPEECH_THRESHOLD
                      (PrimFloat.div (number c) 32768))
                   (656 <=? c)) = true.
Proof. vm_compute. reflexivity. Qed.

Lemma amplitude_checked (c : Z) :
  0 ≤ c ≤ 32768 →
  PrimFloat.sqrt (number (c * c)) = number c ∧
  PrimFloat.ltb SPEECH_THRESHOLD (PrimFloat.div (number c) 32768) = (656 <=? c).
Proof.
  intros Hc.
  pose proof (holds_from_spec _ _ _ amplitudes_checked c ltac:(lia)) as H.
  apply andb_prop in H as [H1 H2].
  split; [by apply Leibniz.eqb_spec | by apply Bool.eqb_prop].
Qed.

Lemma foldl_squares_amplitude (c : Z) (samples : list Z) (acc : Z) :
  Forall (λ s, Z.abs s = c) samples →
  foldl (λ sum s, sum + s * s) acc samples
  = acc + Z.of_nat (length samples) * (c * c).
Proof.
  revert acc. induction samples as [|s samples IH]; intros acc Hall.
  - simpl. lia.
  - apply Forall_cons in Hall as [Hs Hall].
    rewrite length_cons, Nat2Z.inj_succ. simpl foldl. rewrite IH by done.
    assert (s * s = c * c) by nia. lia.
Qed.

(** X15: the amplitude that counts as speech.  For a frame of between one
    and [2^23] samples that all have the same amplitude [c] (each sample is
    [c] or [-c]), the level is exactly [c / 32768], and the frame is speech
    exactly when [c] is at least 656: 2 % of the full scale is 655.36. *)
Theorem speech_from_amplitude_656 (buffer : list byte) (c : Z) :
  Int16Array buffer ≠ [] →
  Z.of_nat (length (Int16Array buffer)) < 2 ^ 23 →
  Forall (λ s, Z.abs s = c) (Int16Array buffer) →
  calculateAudioLevel buffer = PrimFloat.div (number c) 32768 ∧
  is_speech buffer = (656 <=? c).
Proof.
  intros Hne Hlen Hamp.
  pose proof (Int16Array_int16 buffer) as Hall.
  assert (0 ≤ c ≤ 32768) as Hc.
  { destruct (Int16Array buffer) as [|s rest]; [done|].
    apply Forall_cons in Hamp as [Hs _]. apply Forall_cons in Hall as [Hi _].
    unfold int16 in Hi. lia. }
  assert (exact_sum_squares (Int16Array buffer)
          = Z.of_nat (length (Int16Array buffer)) * (c * c)) as Hsum.
  { unfold exact_sum_squares. rewrite (foldl_squares_amplitude c) by done. lia. }
  destruct (amplitude_checked c Hc) as [Hsqrt Hcmp].
  assert (calculateAudioLevel buffer = PrimFloat.div (number c) 32768) as Hlevel.
  { destruct (decide (c = 0)) as [-> | Hnz].
    - rewrite level_silent; [reflexivity | done | done | lia].
    - unfold calculateAudioLevel.
      set (samples := Int16Array buffer) in *.
      set (n := Z.of_nat (length samples)) in *.
      assert (0 < n) as Hn by (unfold n; destruct samples; simpl; [done | lia]).
      assert (PrimFloat.div (sum_squares samples) (number n) = number (c * c))
        as ->; [|by rewrite Hsqrt].
      apply Prim2SF_inj. rewrite div_spec.
      apply (represents_unique (c * c)).
      + destruct (sum_squares_exact samples Hall Hlen) as [[? _] | [_ HS]]; [nia|].
        rewrite Hsum in HS. apply (div_exact n); [done | | nia].
        apply number_represents. split; [done|].
        eapply Z.lt_trans; [exact Hlen | reflexivity].
      + apply number_represents. split; [nia|].
        assert (c * c ≤ 32768 * 32768) by nia. 
        eapply Z.le_lt_trans; [eassumption | reflexivity]. }
  split; [done|]. unfold is_speech. by rewrite Hlevel.
Qed.

End ThresholdFacts.

(** 160 samples that alternate between 656 and -656 are speech; 160
    samples of amplitude 655 are not. *)
Lemma speech_from_amplitude_656_witness :
  SpeechAgent.is_speech (concat (repeat [x90; x02; x70; xfd] 80)) = true ∧
  SpeechAgent.is_speech (concat (repeat [x8f; x02] 160)) = false.
Proof.
  split.
  - apply (speech_from_amplitude_656 (concat (repeat [x90; x02; x70; xfd] 80)) 656).
    + discriminate.
    + reflexivity.
    + vm_compute. repeat constructor.
  - apply (speech_from_amplitude_656 (concat (repeat [x8f; x02] 160)) 655).
    + discriminate.
    + reflexivity.
    + vm_compute. repeat constructor.
Defined.


(* ===================================================================== *)
(** * The bus and the gateway *)
(* ===================================================================== *)


Section BusFacts.
Context {Payload State Exn : Type}.
Import MessageBus.

Lemma subscribers_subscribe (event event' : string)
    (cb : callback Payload State Exn) (bus : t Payload State Exn) :
  default [] (subscribers (subscribe event cb bus) !! event')
  = default [] (subscribers bus !! event') ++
    (if decide (event = event') then [cb] else []).
Proof.
  unfold subscribe. simpl.
  destruct (decide (event = event')) as [<-|Hne].
  - rewrite lookup_insert_eq. simpl.
    destruct (subscribers bus !! event) as [l|] eqn:E; simpl.
    + by rewrite E.
    + by rewrite lookup_insert_eq.
  - rewrite lookup_insert_ne by done.
    destruct (subscribers bus !! event) as [l|] eqn:E; simpl.
    + by rewrite app_nil_r.
    + rewrite lookup_insert_ne by done. by rewrite app_nil_r.
Qed.

(** X16: order of subscription.  After any sequence of [subscribe] calls,
    the handlers that [publish] runs for a topic are the callbacks
    subscribed to this topic, each as many times as it was subscribed, in
    the order of the calls; callbacks of other topics are not among them,
    and a topic that was never subscribed to has no handler: publishing on
    it calls nothing and returns. *)
Theorem handlers_in_subscription_order
    (subs : list (string * callback Payload State Exn)) (event : string) :
  let bus := foldl (λ bus '(ev, cb), subscribe ev cb bus) new subs in
  default [] (subscribers bus !! event)
    = (filter (λ sub, sub.1 = event) subs).*2 ∧
  (event ∉ subs.*1 →
   ∀ data st, publish event data bus st = (st, Normal, 0%nat)).
Proof.
  simpl.
  assert (∀ bus0,
    default [] (subscribers (foldl (λ bus '(ev, cb), subscribe ev cb bus) bus0 subs) !! event)
    = default [] (subscribers bus0 !! event) ++ (filter (λ sub, sub.1 = event) subs).*2) as H.
  { induction subs as [|[ev cb] subs IH]; intros bus0; simpl.
    - by rewrite app_nil_r.
    - rewrite IH, subscribers_subscribe, <- app_assoc. f_equal.
      rewrite filter_cons. simpl.
      by destruct (decide (ev = event)). }
  split.
  - rewrite H. simpl. by rewrite lookup_empty.
  - intros Hnot data st. unfold publish. rewrite H. simpl. rewrite lookup_empty. simpl.
    clear H.
    replace (filter (λ sub, sub.1 = event) subs)
      with (@nil (string * callback Payload State Exn)); [done|].
    symmetry. induction subs as [|[ev cb] subs IH]; [done|].
    rewrite fmap_cons in Hnot. apply not_elem_of_cons in Hnot as [Hne Hnot].
    rewrite filter_cons. simpl. rewrite decide_False by done. by apply IH.
Qed.

End BusFacts.

Section GatewayFacts.
Import A2A JS Gateway.

Lemma connection_handlers (sessionId : string) (ws : nat)
    (bus : MessageBus.t jsval World jsval) (event : string)
    (handler : jsfields → jsval) :
  (event, handler) ∈ client_events →
  default [] (MessageBus.subscribers (connection sessionId ws bus) !! event)
  = default [] (MessageBus.subscribers bus !! event)
    ++ [sendToClient sessionId ws handler].
Proof.
  intros Hin. unfold connection, client_events in *. cbn [foldl].
  rewrite !subscribers_subscribe.
  repeat (apply elem_of_cons in Hin as [[= -> ->]|Hin];
          [repeat (case_decide; [try congruence|try discriminate]);
           by rewrite ?app_nil_r|]).
  by apply elem_of_nil in Hin.
Qed.

Lemma connections_handlers (conns : list (string * nat))
    (bus : MessageBus.t jsval World jsval) (event : string)
    (handler : jsfields → jsval) :
  (event, handler) ∈ client_events →
  default [] (MessageBus.subscribers (connections conns bus) !! event)
  = default [] (MessageBus.subscribers bus !! event)
    ++ ((λ '(sessionId, ws), sendToClient sessionId ws handler) <$> conns).
Proof.
  intros Hin. revert bus.
  induction conns as [|[sessionId ws] conns IH]; intros bus.
  - by rewrite app_nil_r.
  - unfold connections in *. cbn [foldl]. rewrite IH.
    rewrite (connection_handlers _ _ _ _ _ Hin), <- app_assoc. done.
Qed.

Lemma forEach_sendToClient (conns : list (string * nat))
    (handler : jsfields → jsval) (fields : jsfields) (w : World) :
  MessageBus.forEach
    ((λ '(sessionId, ws), sendToClient sessionId ws handler) <$> conns)
    (JObj fields) w
  = ({| readyState := readyState w;
        sent := sent w ++
                ((λ ws, (ws, handler fields))
                   <$> recipients w (assoc "sessionId" fields) conns) |},
     MessageBus.Normal, length conns).
Proof.
  revert w. induction conns as [|[sessionId ws] conns IH]; intros w.
  - simpl. rewrite app_nil_r. by destruct w.
  - cbn [fmap list_fmap MessageBus.forEach sendToClient].
    unfold recipients. cbn [omap list_omap]. fold (recipients w (assoc "sessionId" fields) conns).
    destruct (is_string sessionId (assoc "sessionId" fields) &&
              bool_decide (readyState w ws = OPEN)) eqn:E.
    + change (list_fmap _ _ ?f conns) with (f <$> conns). rewrite IH.
      simpl. unfold recipients. simpl. by rewrite <- app_assoc.
    + change (list_fmap _ _ ?f conns) with (f <$> conns). by rewrite IH.
Qed.

(** X17: events reach the sockets of their session only.  On a bus where
    only connections have subscribed to the client topics, publishing a
    client event returns normally after calling the callback of every
    connection, oldest first; the object built from the event is sent, once,
    on each open socket whose connection has the session id of the event.
    Nothing is sent on a socket of another session or on a socket that is
    not open, and no socket changes state. *)
Theorem client_events_reach_their_session (conns : list (string * nat))
    (bus : MessageBus.t jsval World jsval) (event : string)
    (handler : jsfields → jsval) (fields : jsfields) (w : World) :
  (event, handler) ∈ client_events →
  MessageBus.subscribers bus !! event = None →
  let w' := (MessageBus.publish event (JObj fields) (connections conns bus) w).1.1 in
  MessageBus.publish event (JObj fields) (connections conns bus) w
    = (w', MessageBus.Normal, length conns) ∧
  readyState w' = readyState w ∧
  sent w' = sent w ++
            ((λ ws, (ws, handler fields))
               <$> recipients w (assoc "sessionId" fields) conns) ∧
  (∀ ws, ws ∈ recipients w (assoc "sessionId" fields) conns ↔
     ∃ sessionId, (sessionId, ws) ∈ conns ∧
       assoc "sessionId" fields = JStr sessionId ∧
       readyState w ws = OPEN).
Proof.
  intros Hin Hbus. unfold MessageBus.publish.
  rewrite (connections_handlers _ _ _ _ Hin), Hbus. cbn [default app].
  rewrite forEach_sendToClient. cbn [fst snd readyState sent].
  split_and!; [done..|].
  intros ws. unfold recipients. rewrite list_elem_of_omap. split.
  - intros ([sessionId ws'] & Hconn & Hsome).
    destruct (is_string sessionId _) eqn:Hs; [|done].
    destruct (bool_decide (readyState w ws' = OPEN)) eqn:Hr; [|done].
    injection Hsome as <-. exists sessionId.
    apply bool_decide_eq_true in Hr. split_and!; [done | | done].
    unfold is_string in Hs. destruct (assoc "sessionId" fields); try done.
    apply bool_decide_eq_true in Hs. by subst.
  - intros (sessionId & Hconn & Hs & Hr). exists (sessionId, ws).
    split; [done|]. rewrite Hs. simpl.
    by rewrite !bool_decide_eq_true_2.
Qed.

End GatewayFacts.

(** Two connections, a transcript for the first: one object is sent, on
    the socket of the first. *)
Lemma client_events_reach_their_session_witness :
  let conns := [("s1", 0%nat); ("s2", 1%nat)] in
  let w := {| Gateway.readyState := λ _, Gateway.OPEN; Gateway.sent := [] |} in
  let fields := A2A.FCons "sessionId" (A2A.JStr "s1")
                  (A2A.FCons "text" (A2A.JStr "play some jazz")
                  (A2A.FCons "role" (A2A.JStr "user") A2A.FNil)) in
  let w' := (MessageBus.publish "client:transcript" (A2A.JObj fields)
               (Gateway.connections conns MessageBus.new) w).1.1 in
  Gateway.sent w' = [(0%nat, Gateway.transcript fields)].
Proof.
  intros conns w fields w'.
  destruct (client_events_reach_their_session conns MessageBus.new
              "client:transcript" Gateway.transcript fields w)
    as (_ & _ & Hsent & _).
  - left.
  - reflexivity.
  - exact Hsent.
Defined.


(* ===================================================================== *)
(** * Properties of the conversation agent *)
(* ===================================================================== *)


Section RoutingFacts.
Import A2A JS ConversationAgent Spotify.

Lemma routeIntent_known (sessionId : string) (i : Intent) (text : string) :
  match routeIntent sessionId i text with
  | SpotifyCommand s command _ => s = sessionId ∧ command_of command ≠ CmdUnknown
  | Chat s t => s = sessionId ∧ t = text
  end.
Proof.
  unfold routeIntent. cbv zeta.
  repeat (destruct (is_string _ (intent i)); [by split|]). done.
Qed.

(** X18: no unknown command.  Whatever the intent, [routeIntent] either
    answers by chat with the text of the transcript or publishes, for the
    session of the transcript, a command that [handleCommand] knows: its
    [default] case is never reached from a transcript.  A tool call whose
    name is not one of the eight music tools is answered by chat, as is an
    answer without tool call; arguments that parse to [null] make the
    mapping throw, whatever the tool. *)
Theorem no_unknown_command (sessionId text funcName : string) (args : jsval) :
  (∀ i,
     match routeIntent sessionId i text with
     | SpotifyCommand s command _ => s = sessionId ∧ command_of command ≠ CmdUnknown
     | Chat s t => s = sessionId ∧ t = text
     end) ∧
  (∀ i, funcToIntent funcName args = Some i →
     funcName ∉ ["play_specific_music"; "play_by_mood"; "skip_to_next";
                 "go_to_previous"; "pause_music"; "resume_music";
                 "adjust_volume"; "get_current_track"] →
     routeIntent sessionId i text = Chat sessionId text) ∧
  (funcToIntent funcName args = None ↔ args = JUndefined ∨ args = JNull) ∧
  routeIntent sessionId no_tool_call text = Chat sessionId text.
Proof.
  split_and!.
  - intros i. apply routeIntent_known.
  - intros i Hi Hnot. unfold funcToIntent in Hi.
    destruct args; simpl in Hi; try done;
      repeat (case_bool_decide;
              [exfalso; apply Hnot; subst funcName;
               by repeat first [apply list_elem_of_here
                               | apply list_elem_of_further]|]);
      try case_bool_decide; by injection Hi as <-.
  - unfold funcToIntent. destruct args; simpl; split; try done;
      try (by intros [|]); by (left + right).
  - done.
Qed.

(** X19: the volume that is asked for.  For the tool call [adjust_volume],
    the level of the command is 80 for the direction ["up"] and 30 for
    ["down"], whatever level the arguments give; without such a direction
    it is the level of the arguments, except that a missing level and the
    level 0 are replaced by 50.  The level of the command is never 0. *)
Theorem volume_level_of_command (sessionId text : string) (fields : jsfields) :
  let level := assoc "level" fields in
  let direction := assoc "direction" fields in
  ∃ i v,
    funcToIntent "adjust_volume" (JObj fields) = Some i ∧
    routeIntent sessionId i text
      = SpotifyCommand sessionId "volume" (FCons "level" v FNil) ∧
    truthy v = true ∧ v ≠ JNum 0 ∧
    (direction = JStr "down" → v = JNum 30) ∧
    (direction = JStr "up" → v = JNum 80) ∧
    (direction ≠ JStr "down" → direction ≠ JStr "up" →
       v = if truthy level then level else JNum 50).
Proof.
  simpl.
  set (level := assoc "level" fields). set (direction := assoc "direction" fields).
  exists {| intent := JStr "volume"; query := JUndefined; mood := JUndefined;
            volume_level := level; volume_direction := direction |}.
  set (l1 := if is_string "up" direction then JNum 80 else level).
  set (l2 := if is_string "down" direction then JNum 30 else l1).
  exists (if truthy l2 then l2 else JNum 50).
  split; [reflexivity|]. split; [reflexivity|].
  assert (∀ d s, is_string s d = true ↔ d = JStr s) as His.
  { intros d s. destruct d; simpl; try (split; [done | by intros [=]]).
    rewrite bool_decide_eq_true. split; [by intros -> | by intros [= ->]]. }
  subst l1 l2.
  destruct (is_string "down" direction) eqn:Hdown.
  { apply His in Hdown. rewrite Hdown. simpl. by split_and!. }
  destruct (is_string "up" direction) eqn:Hup.
  { apply His in Hup. rewrite Hup. simpl. by split_and!. }
  assert (direction ≠ JStr "down") as Hnd
    by (intros H; apply His in H; congruence).
  assert (direction ≠ JStr "up") as Hnu
    by (intros H; apply His in H; congruence).
  destruct (truthy level) eqn:Ht.
  - split_and!; try done. intros H0. by rewrite H0 in Ht.
  - by split_and!.
Qed.

End RoutingFacts.

Section TranscriptSamples.
Import Regex ConversationAgent.
Example noise_samples :
  noise "um" = true ∧ noise " Uh. " = true ∧ noise "..." = true ∧
  noise "12 3!" = true ∧ noise "Bye-bye." = true ∧ noise "a" = true ∧
  noise "uhm" = false ∧ noise "bye bye" = false ∧ noise "play jazz" = false ∧
  noise "ok" = false ∧ noise "hmmhmm" = true ∧ noise "um.." = false.
Proof. vm_compute. repeat split. Qed.
End TranscriptSamples.

Section TranscriptFacts.
Import Regex ConversationAgent.

Lemma test_Never (s : string) : test Never s = false.
Proof. induction s; [done|]. simpl. done. Qed.

Lemma test_Alt (r1 r2 : re) (s : string) :
  test (Alt r1 r2) s = test r1 s || test r2 s.
Proof. revert r1 r2. induction s as [|c s IH]; intros r1 r2; [done|]. simpl. apply IH. Qed.

Lemma test_Seq_Never (r : re) (s : string) : test (Seq Never r) s = false.
Proof. induction s as [|c s IH]; [done|]. simpl. done. Qed.

Lemma test_Seq_Eps (r : re) (s : string) : test (Seq Eps r) s = test r s.
Proof.
  destruct s as [|c s]; [done|]. simpl. by rewrite test_Alt, test_Seq_Never.
Qed.

Lemma test_Star_Class (f : ascii → bool) (s : string) :
  test (Star (Class f)) s = forallb f (String.list_ascii_of_string s).
Proof.
  induction s as [|c s IH]; [done|]. simpl. destruct (f c); simpl.
  - by rewrite test_Seq_Eps.
  - by rewrite test_Seq_Never.
Qed.

Lemma not_noise_has_letter (text : string) :
  noise text = false →
  let cleanText := toLowerCase (trim text) in
  (2 ≤ String.length cleanText)%nat ∧
  ∃ c, c ∈ String.list_ascii_of_string cleanText ∧ letter c = true.
Proof.
  unfold noise. cbv zeta. intros H.
  apply orb_false_iff in H as [Hlen Hpat].
  split; [apply Nat.ltb_ge in Hlen; lia|].
  unfold noisePatterns in Hpat. cbn [existsb] in Hpat.
  apply orb_false_iff in Hpat as [_ Hpat].
  apply orb_false_iff in Hpat as [_ Hpat].
  apply orb_false_iff in Hpat as [Hnl _].
  unfold no_letter in Hnl. rewrite test_Star_Class in Hnl.
  generalize dependent (String.list_ascii_of_string (toLowerCase (trim text))).
  intros l Hl. induction l as [|c l IH]; [done|].
  simpl in Hl. apply andb_false_iff in Hl as [Hc|Hl].
  - exists c. split; [left|]. by destruct (letter c).
  - destruct (IH Hl) as (c' & Hin & Hc'). exists c'. split; [by right | done].
Qed.

Lemma last_n_suffix {A} (n : nat) (l : list A) : last_n n l `suffix_of` l.
Proof. unfold last_n. apply suffix_drop. Qed.

Lemma last_n_length {A} (n : nat) (l : list A) :
  length (last_n n l) = (n `min` length l)%nat.
Proof. unfold last_n. rewrite length_drop. lia. Qed.

Lemma last_drop_snoc {A} (k : nat) (l : list A) (x : A) :
  (k ≤ length l)%nat → last (drop k (l ++ [x])) = Some x.
Proof.
  intros Hk. rewrite drop_app_le by done. by rewrite last_snoc.
Qed.

(** X20: what becomes of a transcript of ASCII text.  A transcript whose
    characters are all below 128 is ignored, and changes nothing, when it
    is noise (fewer than two characters once trimmed, or matched by one of
    the four patterns) or when it arrives less than 1500 ms after the last
    response for its session.  Otherwise the session is locked, the
    transcript is put at the end of the history of its session, the
    history is cut down to its last ten messages, and the last three of
    them (the transcript last) go to the model; the histories of other
    sessions are not touched.  A transcript that is not ignored holds a
    letter, and whether the session is locked plays no part. *)
Theorem transcript_is_filtered_then_recorded (now : Z) (sessionId text : string)
    (c : t) (rm : ResponseManager.t) :
  is_ascii text = true →
  let user := {| role := "user"; content := text |} in
  let before := default [] (conversationHistory c !! sessionId) in
  match handleTranscript now sessionId text c rm with
  | (Some messages, c', rm') =>
      noise text = false ∧
      ResponseManager.shouldDebounce now rm sessionId (Some 1500) = false ∧
      rm' = ResponseManager.lock rm sessionId ∧
      ResponseManager.canRespond rm' sessionId = false ∧
      (∃ c, c ∈ String.list_ascii_of_string (toLowerCase (trim text)) ∧
            letter c = true) ∧
      ∃ history,
        conversationHistory c' !! sessionId = Some history ∧
        history = last_n 10 (before ++ [user]) ∧
        messages = last_n 3 history ∧
        last messages = Some user ∧
        (length history ≤ 10)%nat ∧ (length messages ≤ 3)%nat ∧
        ∀ other, other ≠ sessionId →
          conversationHistory c' !! other = conversationHistory c !! other
  | (None, c', rm') =>
      c' = c ∧ rm' = rm ∧
      (noise text = true ∨
       ResponseManager.shouldDebounce now rm sessionId (Some 1500) = true)
  end ∧
  (∀ locked,
     (handleTranscript now sessionId text c (ResponseManager.lock rm locked)).1.1
     = (handleTranscript now sessionId text c rm).1.1).
Proof.
  intros _. cbv zeta. split.
  - unfold handleTranscript.
    destruct (noise text) eqn:Hnoise; [by split_and!; [..|left]|].
    destruct (ResponseManager.shouldDebounce _ _ _ _) eqn:Hdeb;
      [by split_and!; [..|right]|].
    set (user := {| role := "user"; content := text |}).
    set (before := default [] (conversationHistory c !! sessionId)).
    assert (∃ c1, getHistory sessionId c = (before, c1) ∧
              ∀ other, other ≠ sessionId →
                conversationHistory c1 !! other = conversationHistory c !! other)
      as (c1 & -> & Hc1).
    { unfold getHistory, before.
      destruct (conversationHistory c !! sessionId) eqn:E; simpl.
      - by eexists.
      - eexists. split; [done|]. intros other Hne. simpl.
        by rewrite lookup_insert_ne. }
    set (full := before ++ [user]).
    assert ((if (10 <? length full)%nat then drop (length full - 10) full else full)
            = last_n 10 full) as ->.
    { unfold last_n. destruct (10 <? length full)%nat eqn:E; [done|].
      apply Nat.ltb_ge in E. replace (length full - 10)%nat with 0%nat by lia.
      done. }
    split_and!; try done.
    + unfold ResponseManager.canRespond, ResponseManager.lock. simpl.
      by rewrite lookup_insert_eq.
    + by destruct (not_noise_has_letter text Hnoise) as [_ ?].
    + exists (last_n 10 full). simpl. rewrite lookup_insert_eq.
      assert (length full = S (length before)) as Hlen
        by (unfold full; rewrite length_app; simpl; lia).
      assert (last (last_n 10 full) = Some user) as Hlast.
      { unfold last_n. rewrite Hlen. unfold full. apply last_drop_snoc. lia. }
      split_and!; try done.
      * unfold last_n at 1.
        assert (last_n 10 full ≠ []) as Hne by (intros E; by rewrite E in Hlast).
        destruct (last_n 10 full) as [|m l] eqn:E using rev_ind; [done|].
        clear IHl. rewrite last_snoc in Hlast. injection Hlast as ->.
        rewrite drop_app_le by (rewrite length_app; simpl; lia).
        by rewrite last_snoc.
      * rewrite last_n_length. lia.
      * rewrite last_n_length. lia.
      * intros other Hne. rewrite lookup_insert_ne by done. by apply Hc1.
  - intros locked. unfold handleTranscript.
    destruct (noise text); [done|].
    assert (ResponseManager.shouldDebounce now (ResponseManager.lock rm locked)
              sessionId (Some 1500)
            = ResponseManager.shouldDebounce now rm sessionId (Some 1500)) as ->
      by done.
    destruct (ResponseManager.shouldDebounce _ _ _ _); [done|].
    by destruct (getHistory sessionId c).
Qed.

End TranscriptFacts.

(** Two transcripts in a new session: ["Play some jazz"] goes to the model
    and is the history of the session, which is locked; [" Uh. "] is
    noise and changes nothing. *)
Lemma transcript_is_filtered_then_recorded_witness :
  let user := {| ConversationAgent.role := "user";
                 ConversationAgent.content := "Play some jazz" |} in
  ConversationAgent.is_ascii "Play some jazz" = true ∧
  ConversationAgent.is_ascii " Uh. " = true ∧
  (∃ c' rm',
     ConversationAgent.handleTranscript 1700000000000 "s1" "Play some jazz"
       ConversationAgent.new ResponseManager.new = (Some [user], c', rm') ∧
     ConversationAgent.conversationHistory c' !! "s1" = Some [user] ∧
     ResponseManager.canRespond rm' "s1" = false) ∧
  ConversationAgent.handleTranscript 1700000000000 "s1" " Uh. "
    ConversationAgent.new ResponseManager.new
  = (None, ConversationAgent.new, ResponseManager.new).
Proof.
  intros user.
  split; [reflexivity|]. split; [reflexivity|]. split.
  - destruct (transcript_is_filtered_then_recorded 1700000000000 "s1"
                "Play some jazz" ConversationAgent.new ResponseManager.new
                eq_refl) as [H _].
    destruct (ConversationAgent.handleTranscript 1700000000000 "s1"
                "Play some jazz" ConversationAgent.new ResponseManager.new)
      as [[[messages|] c'] rm'] eqn:E.
    + destruct H as (_ & _ & _ & Hlocked & _ & history & Hhistory & -> & -> & _).
      exists c', rm'. split; [reflexivity|]. split; [exact Hhistory | exact Hlocked].
    + vm_compute in E. discriminate.
  - destruct (transcript_is_filtered_then_recorded 1700000000000 "s1"
                " Uh. " ConversationAgent.new ResponseManager.new
                eq_refl) as [H _].
    destruct (ConversationAgent.handleTranscript 1700000000000 "s1"
                " Uh. " ConversationAgent.new ResponseManager.new)
      as [[[messages|] c'] rm'] eqn:E.
    + vm_compute in E. discriminate.
    + by destruct H as (-> & -> & _).
Defined.

(* ===================================================================== *)
(** * Properties of the access to Spotify *)
(* ===================================================================== *)


Section SpotifyFacts.
Import A2A JS Spotify.

(** X21: the life of an access token.  [getValidToken] hands out the stored
    token without any request as long as more than a minute is left before
    it expires.  From one minute before the expiry on it never hands out
    the stored token: it asks for a new one, and what it returns is the
    token of the answer.  The new token is then handed out, again without
    request, until one minute before its own expiry, and the refresh token
    is replaced only when the answer brings one. *)
Theorem access_token_lifecycle (t : Tokens) (now : Z) (r : Refresh) :
  (∀ expires, expires_at t = Time expires → now < expires - 60000 →
     getValidToken now r (Some t) = (Returns (access_token t), Some t)) ∧
  (∀ expires v st, expires_at t = Time expires → expires - 60000 ≤ now →
     getValidToken now r (Some t) = (Returns v, st) →
     present (refresh_token t) = true ∧
     ∃ data now' t',
       r = Answers data now' None ∧ st = Some t' ∧
       v = r_access_token data ∧ access_token t' = v ∧
       refresh_token t'
         = (if present (r_refresh_token data) then r_refresh_token data
            else refresh_token t) ∧
       ∀ expires_in later r',
         r_expires_in data = Some expires_in →
         later < now' + expires_in * 1000 - 60000 →
         getValidToken later r' st = (Returns v, st)) ∧
  (∀ expires, expires_at t = Time expires → expires - 60000 ≤ now →
     present (refresh_token t) = false →
     getValidToken now r (Some t)
     = (Throws (Error "No refresh token"), Some t)) ∧
  getValidToken now r None = (Throws (Error "No Spotify token"), None).
Proof.
  split_and!.
  - intros expires He Hlt. unfold getValidToken, getValidToken_start. rewrite He.
    by rewrite (proj2 (Z.leb_gt _ _)) by lia.
  - intros expires v st He Hle. unfold getValidToken, getValidToken_start.
    rewrite He, (proj2 (Z.leb_le _ _)) by lia. simpl.
    destruct (present (refresh_token t)) eqn:Hp; [|done]. simpl.
    destruct r as [e | data now' [e|]]; simpl; try done.
    intros [= <- <-]. split; [done|].
    eexists data, now', _. split_and!; try done.
    intros expires_in later r' Hin Hlater.
    unfold getValidToken, getValidToken_start. simpl. rewrite Hin. simpl.
    by rewrite (proj2 (Z.leb_gt _ _)) by lia.
  - intros expires He Hle Hp. unfold getValidToken, getValidToken_start.
    rewrite He, (proj2 (Z.leb_le _ _)) by lia. simpl. by rewrite Hp.
  - done.
Qed.

(** X22: a token without expiry time.  When [expires_at] is [NaN] or
    missing, the stored access token (possibly [undefined]) is handed out
    at any time and no new one is asked for.  A refresh whose answer
    carries no [expires_in] leaves the tokens in this state, so in the
    same process the token of that answer is handed out from then on.  In
    the token file the [NaN] is written as [null]; once the tokens are
    read back, and whenever [expires_at] is [null], every call of
    [getValidToken] goes to [refreshSpotifyToken] and, with a refresh
    token, asks for a new token. *)
Theorem token_without_expiry_time (t : Tokens) :
  (expires_at t = NaN ∨ expires_at t = Undefined →
   ∀ now r, getValidToken now r (Some t) = (Returns (access_token t), Some t)) ∧
  (∀ data now write,
     present (refresh_token t) = true → r_expires_in data = None →
     ∃ t', (refreshSpotifyToken_resume (Answers data now write) (Some t)).2
             = Some t' ∧
       access_token t' = r_access_token data ∧
       expires_at t' = NaN ∧
       (∀ later r,
          getValidToken later r (Some t')
          = (Returns (r_access_token data), Some t')) ∧
       expires_at (reloaded t') = Null ∧
       ∀ later, -60000 ≤ later →
         getValidToken_start later (Some (reloaded t')) = Requests) ∧
  (expires_at t = Null →
   ∀ now, -60000 ≤ now →
     getValidToken_start now (Some t) = refreshSpotifyToken_start (Some t) ∧
     (present (refresh_token t) = true →
      getValidToken_start now (Some t) = Requests)).
Proof.
  split_and!.
  - intros He now r. unfold getValidToken, getValidToken_start.
    by destruct He as [-> | ->].
  - intros data now write Hp Hin. simpl. rewrite Hin. simpl.
    eexists. split; [by destruct write|]. split_and!; try done.
    intros later Hlater. unfold getValidToken_start. simpl.
    rewrite (proj2 (Z.leb_le _ _)) by lia. simpl.
    destruct (present (r_refresh_token data)) eqn:Hnew; [by rewrite Hnew|].
    by rewrite Hp.
  - intros He now Hnow. unfold getValidToken_start. rewrite He.
    rewrite (proj2 (Z.leb_le _ _)) by lia.
    split; [done|]. intros Hp. simpl. by rewrite Hp.
Qed.

Lemma find_some_elem {A} (f : A → bool) (l : list A) (x : A) :
  find f l = Some x → x ∈ l ∧ f x = true.
Proof.
  induction l as [|y l IH]; [done|]. simpl.
  destruct (f y) eqn:E.
  - intros [= <-]. split; [left | done].
  - intros H. destruct (IH H) as [? ?]. split; [by right | done].
Qed.

(** X23: the device that is chosen.  When [ensureDeviceActive] returns a
    device id, it is the id of one of the devices that Spotify has just
    listed, and the playback was transferred to exactly this device.  The
    device asked for (or else the stored one) is kept when it is listed;
    otherwise the first active device is taken, or the first device when
    none is active, and it becomes the stored device.  Without any listed
    device the call throws and the stored device is left alone. *)
Theorem chosen_device_is_listed (deviceId : jsstring)
    (devices : Api (option (list Device))) (transfer : Api unit)
    (stored : jsstring) :
  let wanted := if present deviceId then deviceId else stored in
  let result := ensureDeviceActive deviceId devices transfer stored in
  (∀ target, result.1.1 = Returns target →
     ∃ ds d, devices = Ok (Some ds) ∧ d ∈ ds ∧ d_id d = target ∧
       result.2 = Some [target] ∧
       ((present wanted = true ∧ (∃ d', d' ∈ ds ∧ d_id d' = wanted) ∧
         target = wanted ∧ result.1.2 = stored)
        ∨
        ((present wanted = false ∨ ∀ d', d' ∈ ds → d_id d' ≠ wanted) ∧
         result.1.2 = target ∧
         (is_active d = true ∧ find is_active ds = Some d
          ∨ find is_active ds = None ∧ head ds = Some d)))) ∧
  (devices = Ok None ∨ devices = Ok (Some []) →
     result = (Throws no_device, stored, None)) ∧
  (∀ e, devices = Failed e → result = (Throws e, stored, None)).
Proof.
  cbv zeta. split_and!.
  - intros target. unfold ensureDeviceActive.
    destruct devices as [[[|first rest]|]|e]; try done.
    remember (first :: rest) as ds eqn:Hds.
    assert (head ds = Some first) as Hhead by by subst ds.
    assert (first ∈ ds) as Hfirst by (subst ds; left).
    clear Hds.
    set (wanted := if present deviceId then deviceId else stored).
    assert (∀ d, default first (find is_active ds) = d →
              d ∈ ds ∧
              (is_active d = true ∧ find is_active ds = Some d
               ∨ find is_active ds = None ∧ head ds = Some d)) as Hpick.
    { intros d. destruct (find is_active ds) as [d'|] eqn:Hfind; simpl.
      - intros <-. destruct (find_some_elem _ _ _ Hfind) as [Hin Hact].
        split; [done|]. by left.
      - intros <-. split; [done|]. by right. }
    destruct (present wanted) eqn:Hp.
    + destruct (existsb (λ d, bool_decide (d_id d = wanted)) ds) eqn:Hex.
      * rewrite Hp. destruct transfer as [[]|e]; simpl; [|done].
        intros [= <-]. apply existsb_exists in Hex as (d & Hin & Hd).
        apply bool_decide_eq_true in Hd. apply list_elem_of_In in Hin.
        exists ds, d. split_and!; try done. left. split_and!; try done.
        by exists d.
      * cbn [present]. destruct transfer as [[]|e]; simpl; [|done].
        intros [= <-].
        assert (∀ d', d' ∈ ds → d_id d' ≠ wanted) as Hnone.
        { intros d' Hin Heq. apply not_true_iff_false in Hex. apply Hex.
          apply existsb_exists. exists d'.
          split; [by apply list_elem_of_In | by apply bool_decide_eq_true]. }
        destruct (Hpick _ eq_refl) as [Hin Hhow].
        eexists ds, _. split_and!; try done. right. split_and!; try done.
        by right.
    + rewrite Hp. destruct transfer as [[]|e]; simpl; [|done].
      intros [= <-].
      destruct (Hpick _ eq_refl) as [Hin Hhow].
      eexists ds, _. split_and!; try done. right. split_and!; try done.
      by left.
  - by intros [-> | ->].
  - by intros e ->.
Qed.

End SpotifyFacts.

(* ===================================================================== *)
(** * Mood history and sessions *)
(* ===================================================================== *)


Section MoodFacts.
Import A2A SentimentAgent.

Lemma assoc_set_field (key k : string) (v : jsval) (fields : jsfields) :
  assoc k (set_field key v fields)
  = if decide (k = key) then v else assoc k fields.
Proof.
  induction fields as [|k' v' rest IH]; simpl.
  - repeat case_decide; congruence.
  - destruct (decide (k' = key)) as [->|Hne]; simpl.
    + repeat case_decide; congruence.
    + rewrite IH. repeat case_decide; congruence.
Qed.

Lemma getMoodHistory_storeMood (now : Z) (s s' : jsstring) (f : jsfields) (a : t) :
  getMoodHistory s' (storeMood now s f a)
  = getMoodHistory s' a ++
    (if decide (s = s') then [set_field "timestamp" (JNum now) f] else []).
Proof.
  unfold getMoodHistory, storeMood. simpl.
  destruct (decide (s = s')) as [<-|Hne].
  - rewrite lookup_insert_eq. simpl.
    destruct (userMoods a !! s) eqn:E; simpl; [by rewrite E|].
    by rewrite lookup_insert_eq.
  - rewrite lookup_insert_ne by done.
    destruct (userMoods a !! s) eqn:E; simpl; [by rewrite app_nil_r|].
    rewrite lookup_insert_ne by done. by rewrite app_nil_r.
Qed.

(** X24: the mood history.  The history of a session holds one entry for
    each mood stored for it, in the order of the calls, and nothing else;
    it is empty for a session without stored mood.  An entry has the
    members of the analysis result, except that its [timestamp] is the
    time of the call, also when the result has a [timestamp] of its
    own. *)
Theorem mood_history_in_order (calls : list Stored) (sessionId : jsstring) :
  getMoodHistory sessionId (run calls)
    = (λ c, set_field "timestamp" (JNum (s_now c)) (s_sentiment c))
        <$> filter (λ c, s_sessionId c = sessionId) calls ∧
  (∀ now sentiment key,
     assoc key (set_field "timestamp" (JNum now) sentiment)
     = if decide (key = "timestamp") then JNum now else assoc key sentiment) ∧
  (sessionId ∉ s_sessionId <$> calls → getMoodHistory sessionId (run calls) = []).
Proof.
  assert (getMoodHistory sessionId (run calls)
    = (λ c, set_field "timestamp" (JNum (s_now c)) (s_sentiment c))
        <$> filter (λ c, s_sessionId c = sessionId) calls) as Hhist.
  { unfold run. induction calls as [|c calls IH] using rev_ind; [done|].
    rewrite foldl_app. simpl. rewrite getMoodHistory_storeMood, IH.
    rewrite filter_app, fmap_app. f_equal.
    rewrite filter_cons, filter_nil. by destruct (decide _). }
  split_and!; [done | intros; apply assoc_set_field |].
  intros Hnot. rewrite Hhist.
  replace (filter (λ c, s_sessionId c = sessionId) calls) with (@nil Stored); [done|].
  symmetry. clear Hhist. induction calls as [|c calls IH]; [done|].
  rewrite fmap_cons in Hnot. apply not_elem_of_cons in Hnot as [Hne Hnot].
  rewrite filter_cons. rewrite decide_False by done. by apply IH.
Qed.

End MoodFacts.

Section SessionFacts.
Import Orchestrator.

Lemma connected_since_snoc (s : string) (calls : list call) (c : call) :
  connected_since s (calls ++ [c])
  = match c with
    | Connect now s' _ => if decide (s' = s) then Some now else connected_since s calls
    | Close s' => if decide (s' = s) then None else connected_since s calls
    end.
Proof.
  induction calls as [|c0 calls IH]; simpl.
  - destruct c; simpl; by case_decide.
  - rewrite IH, existsb_app. simpl. rewrite orb_false_r.
    destruct c as [now s' socket | s']; simpl.
    + destruct (decide (s' = s)) as [->|Hne].
      * rewrite bool_decide_eq_true_2 by done. by rewrite orb_true_r.
      * rewrite bool_decide_eq_false_2 by done. by rewrite orb_false_r.
    + destruct (decide (s' = s)) as [->|Hne].
      * rewrite bool_decide_eq_true_2 by done. by rewrite orb_true_r.
      * rewrite bool_decide_eq_false_2 by done. by rewrite orb_false_r.
Qed.

Lemma sessions_run (s : string) (calls : list call) :
  startTime <$> sessions (run calls) !! s = connected_since s calls.
Proof.
  unfold run. induction calls as [|c calls IH] using rev_ind; [done|].
  rewrite foldl_app, connected_since_snoc. simpl.
  destruct c as [now s' socket | s']; simpl.
  - destruct (decide (s' = s)) as [->|Hne].
    + by rewrite lookup_insert_eq.
    + by rewrite lookup_insert_ne.
  - destruct (decide (s' = s)) as [->|Hne].
    + by rewrite lookup_delete_eq.
    + by rewrite lookup_delete_ne.
Qed.

(** X25: session information.  [getSessionInfo] answers for a session
    exactly from its connection to the end of it: it gives the id, the
    start time of the last connection with this id and the time elapsed
    since; it gives [null] for a session that was never connected, whose
    connection has ended, or when no id is given. *)
Theorem session_info_while_connected (calls : list call) (sessionId : string)
    (now : Z) :
  getSessionInfo now (Some sessionId) (run calls)
    = (since ← connected_since sessionId calls;
       Some {| i_sessionId := sessionId; i_startTime := since;
               i_duration := now - since |}) ∧
  getSessionInfo now None (run calls) = None ∧
  getSessionInfo now (Some sessionId) (run (calls ++ [Close sessionId])) = None ∧
  (∀ socket start,
     getSessionInfo now (Some sessionId)
       (run (calls ++ [Connect start sessionId socket]))
     = Some {| i_sessionId := sessionId; i_startTime := start;
               i_duration := now - start |}).
Proof.
  assert (∀ calls,
    getSessionInfo now (Some sessionId) (run calls)
    = (since ← connected_since sessionId calls;
       Some {| i_sessionId := sessionId; i_startTime := since;
               i_duration := now - since |})) as H.
  { intros l. unfold getSessionInfo. simpl. rewrite <- sessions_run.
    by destruct (sessions (run l) !! sessionId). }
  split_and!; [apply H | done | |].
  - rewrite H, connected_since_snoc. by rewrite decide_True.
  - intros socket start. rewrite H, connected_since_snoc. by rewrite decide_True.
Qed.

End SessionFacts.
